(** * Subtitle timing and segmentation engine

    A shallow embedding of the subtitle engine of the repository
    ([src/timing_redistributor.py] and the matching functions of
    [src/main.py] and [src/transcribe_api.py]) together with the properties
    its specification states about it.

    Conventions of the embedding.
    - A Python [str] is a list of characters whose code points lie in
      0..255 ([list ascii]); [isspace] and decimal digits are those of
      Python restricted to that range.
    - Python integers are [Z]. The interpreter's limit on the number of
      digits of an integer literal is the parameter [max_str_digits] of
      [py_int_limited] and of the [parse_timestamp_limited] functions;
      elsewhere [int()] is [py_int], the function with the limit lifted.
    - A [try]/[except (ValueError, IndexError)] block is a computation in
      [option]: [None] stands for the exception reaching the handler.
    - Where the functions modelled here go through binary floating point,
      the computation has the shape [int(a * (b / c))]; it is a parameter
      [imd] of the functions concerned, and the statements made of these
      hold for every value of it, hence of every list the code returns.
      [exact_imd] is the instance that truncates the exact quotient. The
      modules [PyFloat], [TRFloat] and [MainFloat] carry the computation
      out on binary64 numbers, with the exceptions it raises. *)

From Stdlib Require Import ZArith Ascii String List Lia.
From Stdlib Require SpecFloat.
From stdpp Require Import base option list strings gmap.

Local Open Scope Z_scope.

(** ** Python strings *)

Module PyStr.

Abbreviation str := (list ascii).

(** String literals of the development. *)
Definition lit (s : string) : str := list_ascii_of_string s.

Definition LF : ascii := "010"%char.
Definition SP : ascii := " "%char.

(** [str.isspace] on one character (code points 0..255). *)
Definition isspace (c : ascii) : bool :=
  let n := N_of_ascii c in
  ((9 <=? n) && (n <=? 13) || (28 <=? n) && (n <=? 32)
   || (n =? 133) || (n =? 160))%N.

Fixpoint lstrip (s : str) : str :=
  match s with
  | [] => []
  | c :: s' => if isspace c then lstrip s' else s
  end.

Definition rstrip (s : str) : str := reverse (lstrip (reverse s)).

(** [s.strip()] *)
Definition strip (s : str) : str := rstrip (lstrip s).

(** [s.startswith(p)] *)
Fixpoint startswith (p s : str) : bool :=
  match p, s with
  | [], _ => true
  | _ :: _, [] => false
  | a :: p', b :: s' => Ascii.eqb a b && startswith p' s'
  end.

(** [s.split(sep)] for a non-empty separator: a scan from the left that
    closes the current piece at each occurrence of [sep] and resumes after
    it. [skip] counts the characters of the separator still to pass; the
    head of the result is the piece being read. *)
Fixpoint split_go (sep : str) (skip : nat) (s : str) : list str :=
  match s with
  | [] => [[]]
  | c :: s' =>
      match skip with
      | S k => split_go sep k s'
      | O =>
          if startswith sep s then [] :: split_go sep (length sep - 1) s'
          else match split_go sep 0 s' with
               | p :: ps => (c :: p) :: ps
               | [] => [[c]]
               end
      end
  end.

Definition split (sep s : str) : list str := split_go sep 0 s.

(** [sep.join(l)] *)
Fixpoint join (sep : str) (l : list str) : str :=
  match l with
  | [] => []
  | x :: l' =>
      match l' with
      | [] => x
      | _ :: _ => x ++ sep ++ join sep l'
      end
  end.

(** [s.split()] without argument: the maximal runs of characters that are
    not white space. [inword] tells whether a word is being read, in which
    case the head of the result is the rest of that word. *)
Fixpoint words_go (inword : bool) (s : str) : list str :=
  match s with
  | [] => if inword then [[]] else []
  | c :: s' =>
      if isspace c then
        if inword then [] :: words_go false s' else words_go false s'
      else
        match words_go true s' with
        | w :: ws => (c :: w) :: ws
        | [] => [[c]]
        end
  end.

Definition words (s : str) : list str := words_go false s.

(** [re.sub(r'<[^>]+>', '', s)]: at a ["<"] followed by at least one
    character other than [">"] and, later, by a [">"], everything up to and
    including the first such [">"] is removed. *)
Definition opens_tag (s : str) : bool :=
  match s with
  | [] => false
  | c :: _ => negb (Ascii.eqb c ">") && bool_decide (">"%char ∈ s)
  end.

Fixpoint remove_tags_go (in_tag : bool) (s : str) : str :=
  match s with
  | [] => []
  | c :: s' =>
      if in_tag then remove_tags_go (negb (Ascii.eqb c ">")) s'
      else if Ascii.eqb c "<" && opens_tag s' then remove_tags_go true s'
      else c :: remove_tags_go false s'
  end.

Definition remove_tags (s : str) : str := remove_tags_go false s.

(** Decimal digits. *)
Definition digit_val (c : ascii) : option Z :=
  let n := N_of_ascii c in
  if ((48 <=? n) && (n <=? 57))%N then Some (Z.of_N n - 48) else None.

Definition digit_char (d : Z) : ascii := ascii_of_N (Z.to_N (d + 48)).

(** The digits of an integer literal after its sign: one digit, then
    digits each preceded by at most one underscore. [sep_ok] is false at
    the start and right after an underscore. *)
Fixpoint int_digits (acc : Z) (sep_ok : bool) (s : str) : option Z :=
  match s with
  | [] => if sep_ok then Some acc else None
  | c :: s' =>
      match digit_val c with
      | Some d => int_digits (10 * acc + d) true s'
      | None =>
          if Ascii.eqb c "_" && sep_ok then int_digits acc false s' else None
      end
  end.

(** The white space that [int()] skips around a literal: the C white
    space, which is all it skips in an ASCII string, and U+0085 and U+00A0,
    which it reads as spaces. The separators U+001C to U+001F, white space
    for [str.isspace], stay in place and make the literal invalid. *)
Definition int_space (c : ascii) : bool :=
  let n := N_of_ascii c in
  ((9 <=? n) && (n <=? 13) || (n =? 32) || (n =? 133) || (n =? 160))%N.

Fixpoint int_lstrip (s : str) : str :=
  match s with
  | [] => []
  | c :: s' => if int_space c then int_lstrip s' else s
  end.

Definition int_strip (s : str) : str :=
  reverse (int_lstrip (reverse (int_lstrip s))).

(** [int(s)] for a string [s], with no limit on the number of digits;
    [None] is [ValueError]. *)
Definition py_int (s : str) : option Z :=
  match int_strip s with
  | c :: r =>
      if Ascii.eqb c "-" then Z.opp <$> int_digits 0 false r
      else if Ascii.eqb c "+" then int_digits 0 false r
      else int_digits 0 false (c :: r)
  | [] => None
  end.

(** The number of digits of a literal: the sign, the underscores and the
    white space around it do not count, leading zeros do. *)
Definition count_digits (s : str) : nat :=
  length (filter (λ c, is_Some (digit_val c)) s).

(** [int(s)] under the interpreter's limit on the digits of a literal,
    [sys.get_int_max_str_digits()]: 4300 unless the interpreter is told
    otherwise, 0 for no limit. A literal of more than 640 digits that
    exceeds the limit is a [ValueError]. *)
Definition default_max_str_digits : nat := 4300.

Definition py_int_limited (max_str_digits : nat) (s : str) : option Z :=
  let digits := count_digits s in
  if (0 <? max_str_digits)%nat && (max_str_digits <? digits)%nat
     && (640 <? digits)%nat
  then None
  else py_int s.

(** The decimal digits of a non-negative integer, most significant first. *)
Fixpoint digits_go (fuel : nat) (n : Z) (acc : str) : str :=
  match fuel with
  | O => acc
  | S f =>
      let acc' := digit_char (n mod 10) :: acc in
      if n <? 10 then acc' else digits_go f (n / 10) acc'
  end.

Definition digits (n : Z) : str := digits_go (S (Z.to_nat (Z.log2 n))) n [].

(** [str(n)] *)
Definition py_str (n : Z) : str :=
  if n <? 0 then "-"%char :: digits (- n) else digits n.

(** [f"{n:0wd}"]: the sign, then the digits filled with zeros on the left
    up to a total width of [w]. *)
Definition zfill (w : nat) (d : str) : str := replicate (w - length d) "0"%char ++ d.

Definition format_0d (w : nat) (n : Z) : str :=
  if n <? 0 then "-"%char :: zfill (w - 1) (digits (- n)) else zfill w (digits n).

(** [sep in s] *)
Definition contains (sep s : str) : Prop := ∃ l r, s = l ++ sep ++ r.

(** [l[i:j]] for indices within the usual range of a slice. *)
Definition slice {A} (i j : nat) (l : list A) : list A := drop i (take j l).

End PyStr.

Import PyStr.

(** ** Python floats *)

(** The floating-point numbers of Python are the binary64 numbers of
    IEEE 754, here those of [SpecFloat] with a precision of 53 bits and the
    infinities at exponent 1024; every operation rounds to the nearest
    number, ties to the even one. [None] is the exception an operation
    raises. *)
Module PyFloat.

Definition prec : Z := 53.
Definition emax : Z := 1024.

Abbreviation float := SpecFloat.spec_float.

(** A result that is a number; an infinity where a number is expected is
    an [OverflowError]. *)
Definition finite (x : float) : option float :=
  match x with
  | SpecFloat.S754_infinity _ | SpecFloat.S754_nan => None
  | _ => Some x
  end.

(** The conversion of an integer, [float(n)], which also takes place when
    an integer meets a float in a product or a sum: [OverflowError] when
    the integer rounds beyond the largest float. *)
Definition of_int (n : Z) : option float :=
  finite (SpecFloat.binary_normalize prec emax n 0 false).

(** [a / b] on integers, the exact quotient rounded once:
    [ZeroDivisionError] when [b] is 0, [OverflowError] when the quotient
    rounds beyond the largest float. *)
Definition truediv (a b : Z) : option float :=
  if b =? 0 then None
  else if a =? 0 then Some (SpecFloat.S754_zero (b <? 0))
  else
    let '(q, e, l) :=
      SpecFloat.SFdiv_core_binary prec emax (Z.abs a) 0 (Z.abs b) 0 in
    finite (SpecFloat.binary_round_aux prec emax (xorb (a <? 0) (b <? 0)) q e l).

(** The product and the sum of two floats; neither raises. *)
Definition mul (x y : float) : float := SpecFloat.SFmul prec emax x y.
Definition add (x y : float) : float := SpecFloat.SFadd prec emax x y.

(** [int(x)], the truncation toward zero: [OverflowError] on an infinity,
    [ValueError] on a NaN. *)
Definition to_int (x : float) : option Z :=
  match x with
  | SpecFloat.S754_zero _ => Some 0
  | SpecFloat.S754_finite s m e =>
      Some (SpecFloat.cond_Zopp s (Z.shiftl (Z.pos m) e))
  | _ => None
  end.

(** [n + 0.5] on an integer [n]. *)
Definition half : float := SpecFloat.S754_finite false (2 ^ 52) (-53).

Definition add_half (n : Z) : option float :=
  x ← of_int n; Some (add x half).

(** The float [x] is the number [p / q]. *)
Definition is_ratio (x : float) (p q : Z) : Prop :=
  match x with
  | SpecFloat.S754_zero _ => p = 0
  | SpecFloat.S754_finite s m e =>
      SpecFloat.cond_Zopp s (Z.pos m) * 2 ^ Z.max e 0 * q = p * 2 ^ Z.max (- e) 0
  | _ => False
  end.

(** [int(a * (b / c))] on integers [a], [b] and [c], the quotient first:
    the computation for which the parameter [imd] stands. *)
Definition imd (a b c : Z) : option Z :=
  proportion ← truediv b c;
  x ← of_int a;
  to_int (mul x proportion).

(** Its value where it raises nothing. *)
Definition imd_value (a b c : Z) : Z := default 0 (imd a b c).

End PyFloat.

(** ** Data model *)

(** A subtitle segment: the dataclass [SubtitleSegment] of
    [timing_redistributor.py] and the dictionaries with the keys
    ['number'], ['start_ms'], ['end_ms'] and ['text'] of [main.py]. *)
Record Segment := mkSegment {
  number : Z;
  start_ms : Z;
  end_ms : Z;
  text : str
}.

Definition with_start (s : Segment) (v : Z) : Segment :=
  mkSegment (number s) v (end_ms s) (text s).
Definition with_end (s : Segment) (v : Z) : Segment :=
  mkSegment (number s) (start_ms s) v (text s).

(** [int(a * (b / c))] computed on the exact quotient; the parameter [imd]
    of the functions below stands for the floating-point computation. *)
Definition exact_imd (a b c : Z) : Z := Z.quot (a * b) c.

(** [len([word for word in words if word.strip()])] after the removal of
    tags: [SubtitleSegment.word_count] and [count_words_in_text]. *)
Definition count_words_in_text (t : str) : Z :=
  let clean_text := remove_tags (strip t) in
  let ws := words clean_text in
  Z.of_nat (length (filter (λ w, strip w ≠ []) ws)).

Definition sum_Z (l : list Z) : Z := foldr Z.add 0 l.

(** The parsing loop shared by [parse_srt_content] and
    [group_continuous_subtitles_for_timing]; [pts] is the module's
    [parse_timestamp]. [parse_block] is the body of the [try]. *)
Definition parse_block (pts : str → Z) (lines : list str) : option Segment :=
  match lines with
  | l0 :: l1 :: rest =>
      number ← py_int (strip l0);
      let timestamp_line := strip l1 in
      let text := strip (join [LF] rest) in
      match split (lit " --> ") timestamp_line with
      | [start_str; end_str] =>
          Some (mkSegment number (pts (strip start_str)) (pts (strip end_str)) text)
      | _ => None
      end
  | _ => None
  end.

Definition parse_step (pts : str → Z) (segments : list Segment) (block : str)
  : list Segment :=
  if bool_decide (strip block = []) then segments
  else
    let lines := split [LF] (strip block) in
    if (3 <=? length lines)%nat then
      match parse_block pts lines with
      | Some seg => segments ++ [seg]
      | None => segments
      end
    else segments.

Definition parse_blocks (pts : str → Z) (srt_content : str) : list Segment :=
  foldl (parse_step pts) [] (split [LF; LF] (strip srt_content)).

(** The grouping loop of [group_continuous_subtitles] and of
    [group_continuous_subtitles_for_timing]: [prev] is [segments[i-1]]. *)
Fixpoint group_loop (max_gap_ms : Z) (groups : list (list Segment))
    (current_group : list Segment) (prev : Segment) (rest : list Segment)
  : list (list Segment) :=
  match rest with
  | [] =>
      match current_group with
      | [] => groups
      | _ :: _ => groups ++ [current_group]
      end
  | curr :: rest' =>
      let gap_ms := start_ms curr - end_ms prev in
      if gap_ms <=? max_gap_ms then
        group_loop max_gap_ms groups (current_group ++ [curr]) curr rest'
      else
        group_loop max_gap_ms (groups ++ [current_group]) [curr] curr rest'
  end.

Definition group_segments (segments : list Segment) (max_gap_ms : Z)
  : list (list Segment) :=
  match segments with
  | [] => []
  | s0 :: rest => group_loop max_gap_ms [] [s0] s0 rest
  end.

(** ** [timing_redistributor.py] *)

Module TR.

Definition duration_ms (s : Segment) : Z := end_ms s - start_ms s.
Definition word_count (s : Segment) : Z := count_words_in_text (text s).

(** The body of the [try] of [parse_timestamp]. *)
Definition parse_timestamp_body (timestamp_str : str) : option Z :=
  match split (lit ",") timestamp_str with
  | [time_part; ms_part] =>
      match split (lit ":") time_part with
      | [h; m; s] =>
          hours ← py_int h;
          minutes ← py_int m;
          seconds ← py_int s;
          milliseconds ← py_int ms_part;
          let total_ms := (hours * 3600 + minutes * 60 + seconds) * 1000 + milliseconds in
          Some (Z.max 0 total_ms)
      | _ => None
      end
  | _ => None
  end.

Definition parse_timestamp (timestamp_str : str) : Z :=
  default 0 (parse_timestamp_body timestamp_str).

(** [parse_timestamp] under the interpreter's limit [max_str_digits] on the
    digits of a literal; [parse_timestamp] above is the function with the
    limit lifted. *)
Definition parse_timestamp_body_limited (max_str_digits : nat) (timestamp_str : str)
  : option Z :=
  match split (lit ",") timestamp_str with
  | [time_part; ms_part] =>
      match split (lit ":") time_part with
      | [h; m; s] =>
          hours ← py_int_limited max_str_digits h;
          minutes ← py_int_limited max_str_digits m;
          seconds ← py_int_limited max_str_digits s;
          milliseconds ← py_int_limited max_str_digits ms_part;
          let total_ms := (hours * 3600 + minutes * 60 + seconds) * 1000 + milliseconds in
          Some (Z.max 0 total_ms)
      | _ => None
      end
  | _ => None
  end.

Definition parse_timestamp_limited (max_str_digits : nat) (timestamp_str : str) : Z :=
  default 0 (parse_timestamp_body_limited max_str_digits timestamp_str).

Definition format_timestamp (total_ms : Z) : str :=
  let total_ms := Z.max 0 total_ms in
  let hours := total_ms / (1000 * 60 * 60) in
  let minutes := (total_ms mod (1000 * 60 * 60)) / (1000 * 60) in
  let seconds := (total_ms mod (1000 * 60)) / 1000 in
  let milliseconds := total_ms mod 1000 in
  format_0d 2 hours ++ lit ":" ++ format_0d 2 minutes ++ lit ":"
    ++ format_0d 2 seconds ++ lit "," ++ format_0d 3 milliseconds.

Definition parse_srt_content (srt_content : str) : list Segment :=
  parse_blocks parse_timestamp srt_content.

Definition group_continuous_subtitles (segments : list Segment) (max_gap_ms : Z)
  : list (list Segment) :=
  group_segments segments max_gap_ms.

Section Redistribution.
Variable imd : Z → Z → Z → Z.

(** The loop of [redistribute_timing_in_group]: [n] is [len(group)], [i]
    the index of the head of [segs]. This is the list the loop builds when
    [int(total_duration_ms * proportion)] raises nothing;
    [TRFloat.redistribute_loop] below has the exception. *)
Fixpoint redistribute_loop (n : nat) (total_words total_duration_ms group_end_ms
    min_duration_ms : Z) (i : nat) (current_start_ms : Z) (segs : list Segment)
  : list Segment :=
  match segs with
  | [] => []
  | segment :: rest =>
      let words := word_count segment in
      let segment_end_ms :=
        if bool_decide (i = (n - 1)%nat) then group_end_ms
        else
          let proportional_duration := imd total_duration_ms words total_words in
          let actual_duration := Z.max proportional_duration min_duration_ms in
          let segment_end_ms := current_start_ms + actual_duration in
          if segment_end_ms >? group_end_ms then group_end_ms else segment_end_ms in
      mkSegment (number segment) current_start_ms segment_end_ms (text segment)
        :: redistribute_loop n total_words total_duration_ms group_end_ms
             min_duration_ms (S i) segment_end_ms rest
  end.

Definition redistribute_timing_in_group (group : list Segment) (min_duration_ms : Z)
  : list Segment :=
  if (length group <=? 1)%nat then group
  else
    let word_counts := map word_count group in
    let total_words := sum_Z word_counts in
    if total_words =? 0 then group
    else
      match head group, last group with
      | Some first, Some final =>
          let group_start_ms := start_ms first in
          let group_end_ms := end_ms final in
          let total_duration_ms := group_end_ms - group_start_ms in
          if total_duration_ms <=? 0 then group
          else
            let redistributed_segments :=
              redistribute_loop (length group) total_words total_duration_ms
                group_end_ms min_duration_ms 0 group_start_ms group in
            alter (λ s, with_end s group_end_ms)
              (length redistributed_segments - 1)%nat redistributed_segments
      | _, _ => group
      end.

End Redistribution.

(** The renderer at the end of [redistribute_srt_timing]: four lines per
    segment, joined by line feeds, the result stripped. *)
Definition srt_lines (segments : list Segment) : list str :=
  foldl (λ acc segment,
           acc ++ [py_str (number segment);
                   format_timestamp (start_ms segment) ++ lit " --> "
                     ++ format_timestamp (end_ms segment);
                   text segment;
                   []])
        [] segments.

Definition render_srt (segments : list Segment) : str :=
  strip (join [LF] (srt_lines segments)).

End TR.

(** ** [main.py] *)

Module Main.

(** The body of the [try] of [parse_timestamp], with its range check. *)
Definition parse_timestamp_body (timestamp_str : str) : option Z :=
  match split (lit ",") timestamp_str with
  | [time_part; ms_part] =>
      match split (lit ":") time_part with
      | [h; m; s] =>
          hours ← py_int h;
          minutes ← py_int m;
          seconds ← py_int s;
          milliseconds ← py_int ms_part;
          if (hours <? 0) || (minutes <? 0) || (minutes >? 59) || (seconds <? 0)
             || (seconds >? 59) || (milliseconds <? 0) || (milliseconds >? 999)
          then Some 0
          else
            let total_ms := (hours * 3600 + minutes * 60 + seconds) * 1000 + milliseconds in
            Some (Z.max 0 total_ms)
      | _ => None
      end
  | _ => None
  end.

Definition parse_timestamp (timestamp_str : str) : Z :=
  default 0 (parse_timestamp_body timestamp_str).

(** [parse_timestamp] under the interpreter's limit [max_str_digits] on the
    digits of a literal; [parse_timestamp] above is the function with the
    limit lifted. *)
Definition parse_timestamp_body_limited (max_str_digits : nat) (timestamp_str : str)
  : option Z :=
  match split (lit ",") timestamp_str with
  | [time_part; ms_part] =>
      match split (lit ":") time_part with
      | [h; m; s] =>
          hours ← py_int_limited max_str_digits h;
          minutes ← py_int_limited max_str_digits m;
          seconds ← py_int_limited max_str_digits s;
          milliseconds ← py_int_limited max_str_digits ms_part;
          if (hours <? 0) || (minutes <? 0) || (minutes >? 59) || (seconds <? 0)
             || (seconds >? 59) || (milliseconds <? 0) || (milliseconds >? 999)
          then Some 0
          else
            let total_ms := (hours * 3600 + minutes * 60 + seconds) * 1000 + milliseconds in
            Some (Z.max 0 total_ms)
      | _ => None
      end
  | _ => None
  end.

Definition parse_timestamp_limited (max_str_digits : nat) (timestamp_str : str) : Z :=
  default 0 (parse_timestamp_body_limited max_str_digits timestamp_str).

Definition format_timestamp (total_ms : Z) : str :=
  let total_ms := if total_ms <? 0 then 0 else total_ms in
  let milliseconds := total_ms mod 1000 in
  let total_seconds := total_ms / 1000 in
  let hours := total_seconds / 3600 in
  let minutes := (total_seconds mod 3600) / 60 in
  let seconds := total_seconds mod 60 in
  let hours := Z.max 0 (Z.min 99 hours) in
  let minutes := Z.max 0 (Z.min 59 minutes) in
  let seconds := Z.max 0 (Z.min 59 seconds) in
  let milliseconds := Z.max 0 (Z.min 999 milliseconds) in
  format_0d 2 hours ++ lit ":" ++ format_0d 2 minutes ++ lit ":"
    ++ format_0d 2 seconds ++ lit "," ++ format_0d 3 milliseconds.

(** [group_continuous_subtitles_for_timing]: the blocks are parsed, then
    grouped by the same loop as in [timing_redistributor.py]. *)
Definition group_continuous_subtitles_for_timing (srt_content : str) (max_gap_ms : Z)
  : list (list Segment) :=
  group_segments (parse_blocks parse_timestamp srt_content) max_gap_ms.

(** *** [redistribute_timing_in_group] *)

Section Redistribution.
Variable imd : Z → Z → Z → Z.

(** The main loop: [n] is [len(group)], [i] the index of the head of
    [segs]; each segment is a copy of the input one with new times. This is
    the list the loop builds when [int(content_duration_ms * proportion)]
    raises nothing; [MainFloat.redistribute_loop] below has the
    exception. *)
Fixpoint redistribute_loop (n : nat) (total_words content_duration_ms group_end_ms
    min_duration_ms gap_ms : Z) (i : nat) (current_start_ms : Z) (segs : list Segment)
  : list Segment :=
  match segs with
  | [] => []
  | segment :: rest =>
      let words := count_words_in_text (text segment) in
      let segment_end_ms :=
        if bool_decide (i = (n - 1)%nat) then group_end_ms
        else
          let proportional_duration := imd content_duration_ms words total_words in
          let actual_duration := Z.max proportional_duration min_duration_ms in
          let segment_end_ms := current_start_ms + actual_duration in
          let remaining_segments := Z.of_nat n - Z.of_nat i - 1 in
          let remaining_time_needed :=
            remaining_segments * min_duration_ms + remaining_segments * gap_ms in
          let max_allowed_end := group_end_ms - remaining_time_needed in
          if segment_end_ms >? max_allowed_end then max_allowed_end else segment_end_ms in
      let redistributed_segment :=
        with_end (with_start segment current_start_ms)
                 (Z.max (current_start_ms + min_duration_ms) segment_end_ms) in
      redistributed_segment
        :: redistribute_loop n total_words content_duration_ms group_end_ms
             min_duration_ms gap_ms (S i) (end_ms redistributed_segment + gap_ms) rest
  end.

(** One iteration of the loop that verifies that no two segments overlap:
    it reads and writes the entries [i] and [i + 1] of the list. *)
Definition fix_overlap_at (min_duration_ms gap_ms : Z) (l : list Segment) (i : nat)
  : list Segment :=
  match l !! i, l !! S i with
  | Some curr_seg, Some next_seg =>
      if end_ms curr_seg >=? start_ms next_seg then
        let curr1 := with_end curr_seg (start_ms next_seg - gap_ms) in
        if end_ms curr1 - start_ms curr1 <? min_duration_ms then
          let curr2 := with_end curr1 (start_ms curr1 + min_duration_ms) in
          if end_ms curr2 + gap_ms >? start_ms next_seg then
            <[S i := with_start next_seg (end_ms curr2 + gap_ms)]> (<[i := curr2]> l)
          else <[i := curr2]> l
        else <[i := curr1]> l
      else l
  | _, _ => l
  end.

Definition verify_no_overlaps (min_duration_ms gap_ms : Z) (l : list Segment)
  : list Segment :=
  foldl (fix_overlap_at min_duration_ms gap_ms) l (seq 0 (length l - 1)).

Definition redistribute_timing_in_group (group : list Segment)
    (min_duration_ms gap_ms : Z) : list Segment :=
  if (length group <=? 1)%nat then group
  else
    let word_counts := map (λ seg, count_words_in_text (text seg)) group in
    let total_words := sum_Z word_counts in
    if total_words =? 0 then group
    else
      match head group, last group with
      | Some first, Some final =>
          let group_start_ms := start_ms first in
          let group_end_ms := end_ms final in
          let total_available_ms := group_end_ms - group_start_ms in
          if total_available_ms <=? 0 then group
          else
            let num_gaps := Z.of_nat (length group) - 1 in
            let total_gap_ms := num_gaps * gap_ms in
            let content_duration_ms := total_available_ms - total_gap_ms in
            let '(gap_ms, content_duration_ms) :=
              if content_duration_ms <=? 0 then
                let gap_ms := Z.max 10 (total_available_ms / (Z.of_nat (length group) * 4)) in
                (gap_ms, total_available_ms - num_gaps * gap_ms)
              else (gap_ms, content_duration_ms) in
            let redistributed_segments :=
              redistribute_loop (length group) total_words content_duration_ms
                group_end_ms min_duration_ms gap_ms 0 group_start_ms group in
            match redistributed_segments with
            | [] => redistributed_segments
            | _ :: _ =>
                let redistributed_segments :=
                  alter (λ s, with_end s group_end_ms)
                    (length redistributed_segments - 1)%nat redistributed_segments in
                verify_no_overlaps min_duration_ms gap_ms redistributed_segments
            end
      | _, _ => group
      end.

End Redistribution.

(** *** The timing stage of [split_advanced_segments] *)

(** The value under the key ['num']: an integer, or an integer plus one
    half for the second child of a split. The code computes the latter as
    the floating-point sum [num + 0.5], which is the half-integer exactly
    for a number from [-2^52] to [2^52 - 1] ([PyFloat.add_half]); the
    statements that depend on the sum bound the number so. *)
Inductive pynum := Whole (n : Z) | PlusHalf (n : Z).

(** The dictionaries with the keys ['num'], ['timestamp'] and ['text']. *)
Record Cue := mkCue {
  num : pynum;
  timestamp : str;
  cue_text : str
}.

Definition min_segment_duration : Z := 200.
Definition required_total_duration : Z := min_segment_duration * 2 + 100.
Definition split_gap_ms : Z := 30.

Definition add_half (n : pynum) : pynum :=
  match n with Whole z => PlusHalf z | PlusHalf z => Whole (z + 1) end.

(** What [split_advanced_segments] does with one segment once a split of
    its text into [first_part] and [second_part] has been found: it reads
    the two times of the segment, then either keeps the segment or appends
    two children. [None] is the [ValueError] of a time line that does not
    split in two at the arrow; the [OverflowError] of the floating-point
    operations on a duration or a number beyond the range of floats is not
    part of this function, which gives the list appended when none is
    raised. *)
Definition emit_split (imd : Z → Z → Z → Z) (segment : Cue)
    (first_part second_part : str) : option (list Cue) :=
  match split (lit " --> ") (timestamp segment) with
  | [start_time; end_time] =>
      let start_ms := parse_timestamp start_time in
      let end_ms := parse_timestamp end_time in
      let total_duration := end_ms - start_ms in
      if total_duration <? required_total_duration then Some [segment]
      else
        let gap_ms := split_gap_ms in
        let first_words := Z.of_nat (length (words first_part)) in
        let second_words := Z.of_nat (length (words second_part)) in
        let total_words := first_words + second_words in
        let available_duration := total_duration - gap_ms in
        if available_duration <=? min_segment_duration * 2 then Some [segment]
        else
          let first_duration :=
            if total_words >? 0 then
              let ideal_first_duration := imd available_duration first_words total_words in
              let first_duration := Z.max min_segment_duration ideal_first_duration in
              let second_duration := available_duration - first_duration in
              let first_duration :=
                if second_duration <? min_segment_duration
                then available_duration - min_segment_duration
                else first_duration in
              if first_duration <? min_segment_duration
              then available_duration / 2
              else first_duration
            else Z.max min_segment_duration (available_duration / 2) in
          let first_end_time := start_ms + first_duration in
          let second_start_time := first_end_time + gap_ms in
          if (first_end_time <=? start_ms) || (second_start_time >=? end_ms)
          then Some [segment]
          else if first_end_time =? start_ms then Some [segment]
          else if second_start_time =? end_ms then Some [segment]
          else
            Some [ mkCue (num segment)
                     (start_time ++ lit " --> " ++ format_timestamp first_end_time)
                     first_part;
                   mkCue (add_half (num segment))
                     (format_timestamp second_start_time ++ lit " --> " ++ end_time)
                     second_part ]
  | _ => None
  end.

(** *** [redistribute_original_text] *)

(** The entries of [processed_segments]: keys ['num'] and ['timestamp']. *)
Record Stamped := mkStamped {
  s_num : Z;
  s_timestamp : str
}.

(** The texts of the original blocks, joined by spaces line by line. *)
Definition original_texts_step (original_texts : list str) (block : str) : list str :=
  if bool_decide (strip block = []) then original_texts
  else
    let lines := split [LF] (strip block) in
    if (3 <=? length lines)%nat then
      let text := strip (join [SP] (drop 2 lines)) in
      if bool_decide (text = []) then original_texts else original_texts ++ [text]
    else original_texts.

Definition original_texts_of (original_srt_content : str) : list str :=
  foldl original_texts_step [] (split [LF; LF] (strip original_srt_content)).

(** The processed blocks; [None] is the [ValueError] of [int(lines[0])],
    which this loop does not catch. *)
Definition processed_step (acc : option (list Stamped)) (block : str)
  : option (list Stamped) :=
  processed_segments ← acc;
  if bool_decide (strip block = []) then Some processed_segments
  else
    let lines := split [LF] (strip block) in
    if (3 <=? length lines)%nat then
      segment_num ← py_int (default [] (lines !! 0%nat));
      Some (processed_segments ++ [mkStamped segment_num (default [] (lines !! 1%nat))])
    else Some processed_segments.

Definition processed_segments_of (processed_srt_content : str) : option (list Stamped) :=
  foldl processed_step (Some []) (split [LF; LF] (strip processed_srt_content)).

Section TextRedistribution.
Variable imd : Z → Z → Z → Z.

(** [int((i + 1) * words_per_segment)] with
    [words_per_segment = len(original_words) / total_segments]; the product
    of non-negative floating-point numbers is not negative. *)
Definition expected_words_end (total_words total_segments i : nat) : nat :=
  Z.to_nat (imd (Z.of_nat i + 1) (Z.of_nat total_words) (Z.of_nat total_segments)).

(** The loop over [enumerate(processed_segments)]: the state is
    [word_index] and [redistributed_segments]. *)
Fixpoint assign_loop (original_words : list str) (total_segments : nat)
    (i word_index : nat) (redistributed_segments : list Cue) (segs : list Stamped)
  : nat * list Cue :=
  match segs with
  | [] => (word_index, redistributed_segments)
  | segment :: rest =>
      let expected_words_end :=
        expected_words_end (length original_words) total_segments i in
      let segment_words := slice word_index expected_words_end original_words in
      let segment_words :=
        if (length original_words <? expected_words_end)%nat
        then drop word_index original_words else segment_words in
      let segment_text := strip (join [SP] segment_words) in
      let '(segment_text, word_index) :=
        if bool_decide (segment_text = []) && (word_index <? length original_words)%nat
        then (default [] (original_words !! word_index), S word_index)
        else if bool_decide (segment_words ≠ [])
             then (segment_text, expected_words_end)
             else (segment_text, word_index) in
      let redistributed_segments :=
        if bool_decide (segment_text ≠ [])
        then redistributed_segments
               ++ [mkCue (Whole (s_num segment)) (s_timestamp segment) segment_text]
        else redistributed_segments in
      assign_loop original_words total_segments (S i) word_index
        redistributed_segments rest
  end.

Definition append_text (extra : str) (c : Cue) : Cue :=
  mkCue (num c) (timestamp c) (cue_text c ++ extra).

(** The part of [redistribute_original_text] that works on the words of
    the original and on the processed segments. *)
Definition redistribute_words (original_words : list str)
    (processed_segments : list Stamped) : list Cue :=
  let total_segments := length processed_segments in
  let '(word_index, redistributed_segments) :=
    assign_loop original_words total_segments 0 0 [] processed_segments in
  if (word_index <? length original_words)%nat then
    let remaining_words := drop word_index original_words in
    match redistributed_segments with
    | _ :: _ =>
        alter (append_text ([SP] ++ join [SP] remaining_words))
          (length redistributed_segments - 1)%nat redistributed_segments
    | [] =>
        redistributed_segments
          ++ [mkCue (Whole (Z.of_nat (length processed_segments)))
                (from_option s_timestamp (lit "00:00:00,000 --> 00:00:01,000")
                   (last processed_segments))
                (join [SP] remaining_words)]
    end
  else redistributed_segments.

Definition num_str (n : pynum) : str :=
  match n with
  | Whole z => py_str z
  | PlusHalf z => py_str z ++ lit ".5"
  end.

Definition cue_lines (segments : list Cue) : list str :=
  foldl (λ acc segment,
           acc ++ [num_str (num segment); timestamp segment; cue_text segment; []])
        [] segments.

Definition redistribute_original_text (original_srt_content processed_srt_content : str)
  : option str :=
  let original_texts := original_texts_of original_srt_content in
  processed_segments ← processed_segments_of processed_srt_content;
  if bool_decide (original_texts = []) || bool_decide (processed_segments = [])
  then Some processed_srt_content
  else
    let full_original_text := join [SP] original_texts in
    let original_words := words full_original_text in
    if bool_decide (original_words = []) then Some processed_srt_content
    else
      Some (join [LF] (cue_lines (redistribute_words original_words processed_segments))).

End TextRedistribution.

(** *** [validate_translation_structure] *)

(** The values a decoded response can hold; of a floating-point number
    only whether it is zero matters here. *)
#[local] Set Warnings "-register-all".
Inductive pyval :=
  | PNone
  | PBool (b : bool)
  | PInt (z : Z)
  | PFloat (nonzero : bool)
  | PStr (s : str)
  | PList (l : list pyval)
  | PDict (d : gmap str pyval).

Inductive pytype := TNone | TBool | TInt | TFloat | TStr | TList | TDict.

Definition type_of (v : pyval) : pytype :=
  match v with
  | PNone => TNone | PBool _ => TBool | PInt _ => TInt | PFloat _ => TFloat
  | PStr _ => TStr | PList _ => TList | PDict _ => TDict
  end.

(** Truth value of a Python object. *)
Definition truthy (v : pyval) : bool :=
  match v with
  | PNone => false
  | PBool b => b
  | PInt z => negb (z =? 0)
  | PFloat nonzero => nonzero
  | PStr s => negb (bool_decide (s = []))
  | PList l => match l with [] => false | _ :: _ => true end
  | PDict d => negb (bool_decide (d = ∅))
  end.

Definition is_str (v : pyval) : bool :=
  match v with PStr _ => true | _ => false end.

(** The second component of the result: which of the five messages, and
    what it names. *)
Inductive message :=
  | NotADictionary
  | MarkedUnsuccessful
  | MissingSegments (missing : gset str)
  | NotTextString (num : str) (got : pytype)
  | ValidationPassed.

Definition reserved_keys : list str := [lit "success"; lit "comment"].

(** The loop over [expected_nums] runs in the order of iteration of a set,
    here that of [elements]; it stops at the first segment whose value is
    not a string. *)
Definition first_non_string (expected_nums : gset str) (d : gmap str pyval)
  : option (str * pytype) :=
  foldr (λ num later,
           match d !! num with
           | Some v => if is_str v then later else Some (num, type_of v)
           | None => later
           end)
        None (elements expected_nums).

Definition validate_translation_structure (original_segments : gmap str pyval)
    (translated_data : pyval) : bool * message :=
  match translated_data with
  | PDict d =>
      if negb (truthy (default PNone (d !! lit "success")))
      then (false, MarkedUnsuccessful)
      else
        let expected_nums := dom original_segments in
        let actual_nums := filter (λ k, k ∉ reserved_keys) (dom d) in
        if bool_decide (expected_nums ⊆ actual_nums) then
          match first_non_string expected_nums d with
          | Some (num, ty) => (false, NotTextString num ty)
          | None => (true, ValidationPassed)
          end
        else (false, MissingSegments (expected_nums ∖ actual_nums))
  | _ => (false, NotADictionary)
  end.

End Main.

(** ** The floating-point computations and what they raise *)

(** [redistribute_timing_in_group] of [timing_redistributor.py] with
    [int(total_duration_ms * proportion)] carried out on floats; [None] is
    the exception this raises, which the function does not catch. Where the
    loop runs [total_words] is positive, so that [proportion] is
    [words / total_words]. *)
Module TRFloat.

Fixpoint redistribute_loop (n : nat) (total_words total_duration_ms group_end_ms
    min_duration_ms : Z) (i : nat) (current_start_ms : Z) (segs : list Segment)
  : option (list Segment) :=
  match segs with
  | [] => Some []
  | segment :: rest =>
      let words := TR.word_count segment in
      segment_end_ms ←
        (if bool_decide (i = (n - 1)%nat) then Some group_end_ms
         else
           proportional_duration ← PyFloat.imd total_duration_ms words total_words;
           let actual_duration := Z.max proportional_duration min_duration_ms in
           let segment_end_ms := current_start_ms + actual_duration in
           Some (if segment_end_ms >? group_end_ms then group_end_ms
                 else segment_end_ms));
      redistributed_segments ←
        redistribute_loop n total_words total_duration_ms group_end_ms
          min_duration_ms (S i) segment_end_ms rest;
      Some (mkSegment (number segment) current_start_ms segment_end_ms (text segment)
              :: redistributed_segments)
  end.

Definition redistribute_timing_in_group (group : list Segment) (min_duration_ms : Z)
  : option (list Segment) :=
  if (length group <=? 1)%nat then Some group
  else
    let word_counts := map TR.word_count group in
    let total_words := sum_Z word_counts in
    if total_words =? 0 then Some group
    else
      match head group, last group with
      | Some first, Some final =>
          let group_start_ms := start_ms first in
          let group_end_ms := end_ms final in
          let total_duration_ms := group_end_ms - group_start_ms in
          if total_duration_ms <=? 0 then Some group
          else
            redistributed_segments ←
              redistribute_loop (length group) total_words total_duration_ms
                group_end_ms min_duration_ms 0 group_start_ms group;
            Some (alter (λ s, with_end s group_end_ms)
                    (length redistributed_segments - 1)%nat redistributed_segments)
      | _, _ => Some group
      end.

End TRFloat.

(** The functions of [main.py] that compute on floats, with these
    computations carried out; [None] is an exception that the function does
    not catch. *)
Module MainFloat.

(** *** [redistribute_timing_in_group] *)

Fixpoint redistribute_loop (n : nat) (total_words content_duration_ms group_end_ms
    min_duration_ms gap_ms : Z) (i : nat) (current_start_ms : Z) (segs : list Segment)
  : option (list Segment) :=
  match segs with
  | [] => Some []
  | segment :: rest =>
      let words := count_words_in_text (text segment) in
      segment_end_ms ←
        (if bool_decide (i = (n - 1)%nat) then Some group_end_ms
         else
           proportional_duration ← PyFloat.imd content_duration_ms words total_words;
           let actual_duration := Z.max proportional_duration min_duration_ms in
           let segment_end_ms := current_start_ms + actual_duration in
           let remaining_segments := Z.of_nat n - Z.of_nat i - 1 in
           let remaining_time_needed :=
             remaining_segments * min_duration_ms + remaining_segments * gap_ms in
           let max_allowed_end := group_end_ms - remaining_time_needed in
           Some (if segment_end_ms >? max_allowed_end then max_allowed_end
                 else segment_end_ms));
      let redistributed_segment :=
        with_end (with_start segment current_start_ms)
                 (Z.max (current_start_ms + min_duration_ms) segment_end_ms) in
      redistributed_segments ←
        redistribute_loop n total_words content_duration_ms group_end_ms
          min_duration_ms gap_ms (S i) (end_ms redistributed_segment + gap_ms) rest;
      Some (redistributed_segment :: redistributed_segments)
  end.

(** The gap in force and the time left for the segments once the gaps are
    set aside: the parameter [gap_ms] when the gaps fit, else a quarter
    of the mean time of a segment, at least 10 ms. *)
Definition content_duration (n : nat) (total_available_ms gap_ms : Z) : Z * Z :=
  let num_gaps := Z.of_nat n - 1 in
  let total_gap_ms := num_gaps * gap_ms in
  let content_duration_ms := total_available_ms - total_gap_ms in
  if content_duration_ms <=? 0 then
    let gap_ms := Z.max 10 (total_available_ms / (Z.of_nat n * 4)) in
    (gap_ms, total_available_ms - num_gaps * gap_ms)
  else (gap_ms, content_duration_ms).

(** The two quotients by 1000 are those of the message printed before the
    loop. *)
Definition redistribute_timing_in_group (group : list Segment)
    (min_duration_ms gap_ms : Z) : option (list Segment) :=
  if (length group <=? 1)%nat then Some group
  else
    let word_counts := map (λ seg, count_words_in_text (text seg)) group in
    let total_words := sum_Z word_counts in
    if total_words =? 0 then Some group
    else
      match head group, last group with
      | Some first, Some final =>
          let group_start_ms := start_ms first in
          let group_end_ms := end_ms final in
          let total_available_ms := group_end_ms - group_start_ms in
          if total_available_ms <=? 0 then Some group
          else
            let '(gap_ms, content_duration_ms) :=
              content_duration (length group) total_available_ms gap_ms in
            _ ← PyFloat.truediv total_available_ms 1000;
            _ ← PyFloat.truediv content_duration_ms 1000;
            redistributed_segments ←
              redistribute_loop (length group) total_words content_duration_ms
                group_end_ms min_duration_ms gap_ms 0 group_start_ms group;
            match redistributed_segments with
            | [] => Some redistributed_segments
            | _ :: _ =>
                let redistributed_segments :=
                  alter (λ s, with_end s group_end_ms)
                    (length redistributed_segments - 1)%nat redistributed_segments in
                Some (Main.verify_no_overlaps min_duration_ms gap_ms
                        redistributed_segments)
            end
      | _, _ => Some group
      end.

(** *** [redistribute_original_text] *)

(** [int((i + 1) * words_per_segment)]; the product of two floats that are
    not negative is not negative. *)
Definition expected_words_end (words_per_segment : PyFloat.float) (i : nat)
  : option nat :=
  x ← PyFloat.of_int (Z.of_nat i + 1);
  Z.to_nat <$> PyFloat.to_int (PyFloat.mul x words_per_segment).

Fixpoint assign_loop (original_words : list str) (words_per_segment : PyFloat.float)
    (i word_index : nat) (redistributed_segments : list Main.Cue)
    (segs : list Main.Stamped) : option (nat * list Main.Cue) :=
  match segs with
  | [] => Some (word_index, redistributed_segments)
  | segment :: rest =>
      expected_words_end ← expected_words_end words_per_segment i;
      let segment_words := slice word_index expected_words_end original_words in
      let segment_words :=
        if (length original_words <? expected_words_end)%nat
        then drop word_index original_words else segment_words in
      let segment_text := strip (join [SP] segment_words) in
      let '(segment_text, word_index) :=
        if bool_decide (segment_text = []) && (word_index <? length original_words)%nat
        then (default [] (original_words !! word_index), S word_index)
        else if bool_decide (segment_words ≠ [])
             then (segment_text, expected_words_end)
             else (segment_text, word_index) in
      let redistributed_segments :=
        if bool_decide (segment_text ≠ [])
        then redistributed_segments
               ++ [Main.mkCue (Main.Whole (Main.s_num segment))
                     (Main.s_timestamp segment) segment_text]
        else redistributed_segments in
      assign_loop original_words words_per_segment (S i) word_index
        redistributed_segments rest
  end.

(** The part of [redistribute_original_text] that works on the words of
    the original and on the processed segments, from
    [words_per_segment = len(original_words) / total_segments] on. *)
Definition redistribute_words (original_words : list str)
    (processed_segments : list Main.Stamped) : option (list Main.Cue) :=
  let total_segments := length processed_segments in
  words_per_segment ←
    PyFloat.truediv (Z.of_nat (length original_words)) (Z.of_nat total_segments);
  '(word_index, redistributed_segments) ←
    assign_loop original_words words_per_segment 0 0 [] processed_segments;
  if (word_index <? length original_words)%nat then
    let remaining_words := drop word_index original_words in
    match redistributed_segments with
    | _ :: _ =>
        Some (alter (Main.append_text ([SP] ++ join [SP] remaining_words))
                (length redistributed_segments - 1)%nat redistributed_segments)
    | [] =>
        Some (redistributed_segments
                ++ [Main.mkCue (Main.Whole (Z.of_nat (length processed_segments)))
                      (from_option Main.s_timestamp
                         (lit "00:00:00,000 --> 00:00:01,000")
                         (last processed_segments))
                      (join [SP] remaining_words)])
    end
  else Some redistributed_segments.

Definition redistribute_original_text (original_srt_content processed_srt_content : str)
  : option str :=
  let original_texts := Main.original_texts_of original_srt_content in
  processed_segments ← Main.processed_segments_of processed_srt_content;
  if bool_decide (original_texts = []) || bool_decide (processed_segments = [])
  then Some processed_srt_content
  else
    let full_original_text := join [SP] original_texts in
    let original_words := words full_original_text in
    if bool_decide (original_words = []) then Some processed_srt_content
    else
      redistributed_segments ← redistribute_words original_words processed_segments;
      Some (join [LF] (Main.cue_lines redistributed_segments)).

End MainFloat.

(** ** [timing_redistributor.py]: the whole pass *)

Module Redistributor.

(** [all_redistributed.sort(key=lambda x: x.number)]: the sort of Python is
    stable; here, insertion from the right, each segment before the first
    one whose number is not smaller. *)
Fixpoint insert_by_number (x : Segment) (l : list Segment) : list Segment :=
  match l with
  | [] => [x]
  | y :: l' => if number x <=? number y then x :: l else y :: insert_by_number x l'
  end.

Definition sort_by_number (l : list Segment) : list Segment :=
  foldr insert_by_number [] l.

Section Pass.
Variable imd : Z → Z → Z → Z.

(** The loop over the groups of [redistribute_srt_timing]. *)
Definition redistribute_groups (groups : list (list Segment)) (min_duration_ms : Z)
  : list Segment :=
  foldl (λ all_redistributed group,
           if (1 <? length group)%nat
           then all_redistributed ++ TR.redistribute_timing_in_group imd group min_duration_ms
           else all_redistributed ++ group)
        [] groups.

Definition redistribute_srt_timing (srt_content : str) (max_gap_ms min_duration_ms : Z)
  : str :=
  let segments := TR.parse_srt_content srt_content in
  match segments with
  | [] => srt_content
  | _ :: _ =>
      let groups := TR.group_continuous_subtitles segments max_gap_ms in
      let all_redistributed := redistribute_groups groups min_duration_ms in
      TR.render_srt (sort_by_number all_redistributed)
  end.

End Pass.
End Redistributor.


(** ** [main.py] and [transcribe_api.py]: the translated texts put back *)

Module Reconstruct.
Import Main.

(** [segment['t']]: [None] is the [KeyError] of a dictionary without the
    key, or the [TypeError] of a value that cannot be indexed by a string. *)
Definition timestamp_of (segment : pyval) : option pyval :=
  match segment with
  | PDict d => d !! lit "t"
  | _ => None
  end.

Definition new_result : gmap str pyval :=
  {[ lit "success" := PBool true; lit "comment" := PStr [] ]}.

(** One iteration of the loop over [original_segments.keys()]; the
    accumulator is [None] once an exception has been raised. The entries
    are written under distinct keys, so that the order of iteration does
    not show in the result. *)
Definition reconstruct_step (translated_texts : gmap str pyval) (num : str)
    (segment : pyval) (acc : option (gmap str pyval)) : option (gmap str pyval) :=
  result ← acc;
  match translated_texts !! num with
  | Some s =>
      if bool_decide (num ∉ reserved_keys) then
        t ← timestamp_of segment;
        Some (<[num := PDict {[ lit "t" := t; lit "s" := s ]}]> result)
      else Some result
  | None => Some result
  end.

Definition reconstruct_with_timestamps (original_segments translated_texts : gmap str pyval)
  : option (gmap str pyval) :=
  map_fold (reconstruct_step translated_texts) (Some new_result) original_segments.

(** The loop over [chunk_result.items()]. *)
Definition merge_chunk (merged_texts chunk_result : gmap str pyval) : gmap str pyval :=
  map_fold (λ key value merged_texts,
              if bool_decide (key ∉ reserved_keys) then <[key := value]> merged_texts
              else merged_texts)
           merged_texts chunk_result.

Definition merge_translated_chunks (chunks_results : list (gmap str pyval))
    (original_segments : gmap str pyval) : option (gmap str pyval) :=
  let merged_texts := foldl merge_chunk ∅ chunks_results in
  reconstruct_with_timestamps original_segments merged_texts.

End Reconstruct.

(** ** [main.py]: the search for a split point *)

Module Splitter.
Import Main.

(** The comparisons and the truncation that [find_punctuation_split_point]
    and [split_advanced_segments] compute in binary floating point. They are
    parameters of the functions below; [exact_floats] computes them on the
    exact products. *)
Record Floats := mkFloats {
  (** [text_length > char_limit * 1.5] *)
  exceeds_1_5 : nat → Z → bool;
  (** [text_length > char_limit * 1.8] *)
  exceeds_1_8 : nat → Z → bool;
  (** [pos > text_length * 0.2] *)
  above_0_2 : nat → nat → bool;
  (** [pos < text_length * 0.8] *)
  below_0_8 : nat → nat → bool;
  (** [int(text_length * 0.2)] *)
  int_0_2 : nat → Z
}.

Definition exact_floats : Floats :=
  {| exceeds_1_5 n limit := 3 * limit <? 2 * Z.of_nat n;
     exceeds_1_8 n limit := 9 * limit <? 5 * Z.of_nat n;
     above_0_2 pos n := (n <? 5 * pos)%nat;
     below_0_8 pos n := (5 * pos <? 4 * n)%nat;
     int_0_2 n := Z.of_nat n / 5 |}.

(** [str.isdigit] on one character (code points 0..255): the ten digits and
    the superscripts one, two and three. *)
Definition isdigit (c : ascii) : bool :=
  let n := N_of_ascii c in
  ((48 <=? n) && (n <=? 57) || (n =? 178) || (n =? 179) || (n =? 185))%N.

Definition punctuation_marks : str := lit ".,:;!?-".

(** The comma at [i] has a digit among the five characters before it and a
    digit among the four after it: the two loops of
    [find_punctuation_split_point], the outer one left at the first digit. *)
Definition is_number_comma (text : str) (i : nat) : bool :=
  match find isdigit (slice (i - 5) i text) with
  | Some _ => existsb isdigit (slice (S i) (min (length text) (i + 5)) text)
  | None => false
  end.

(** The loop over [enumerate(text)]; [i] is the index of the head of [rest]. *)
Fixpoint punct_loop (text : str) (i : nat) (rest : str) : list nat :=
  match rest with
  | [] => []
  | char :: rest' =>
      if bool_decide (char ∈ punctuation_marks) then
        if Ascii.eqb char "," && is_number_comma text i
        then punct_loop text (S i) rest'
        else i :: punct_loop text (S i) rest'
      else punct_loop text (S i) rest'
  end.

Inductive strategy :=
  | no_punctuation | single_punctuation | single_too_unbalanced
  | multiple_balanced | multiple_aggressive | multiple_last_resort | no_good_split.

(** [text[:pos + 1].strip()] and [text[pos + 1:].strip()] *)
Definition parts_after (text : str) (pos : nat) : str * str :=
  (strip (take (S pos) text), strip (drop (S pos) text)).

(** Both parts have at least [n] characters. *)
Definition parts_at_least (n : nat) (parts : str * str) : bool :=
  (n <=? length parts.1)%nat && (n <=? length parts.2)%nat.

Section Search.
Variable fl : Floats.

Definition find_punctuation_split_point (text : str) (char_limit : Z) : Z * strategy :=
  let punct_positions := punct_loop text 0 text in
  let text_length := length text in
  let is_very_long := exceeds_1_5 fl text_length char_limit in
  match punct_positions with
  | [] => (-1, no_punctuation)
  | [split_pos] =>
      if is_very_long || parts_at_least 5 (parts_after text split_pos)
      then (Z.of_nat split_pos, single_punctuation)
      else (-1, single_too_unbalanced)
  | _ :: _ :: _ =>
      let min_length := if is_very_long then 5%nat else 8%nat in
      let best_pos :=
        match find (λ pos, parts_at_least min_length (parts_after text pos))
                (reverse punct_positions) with
        | Some pos => Z.of_nat pos
        | None => -1
        end in
      if best_pos >? 0 then (best_pos, multiple_balanced)
      else
        match (if is_very_long
               then find (λ pos, above_0_2 fl pos text_length
                                 && below_0_8 fl pos text_length
                                 && parts_at_least 3 (parts_after text pos))
                      (reverse punct_positions)
               else None) with
        | Some pos => (Z.of_nat pos, multiple_aggressive)
        | None =>
            match last punct_positions with
            | Some split_pos =>
                if parts_at_least 3 (parts_after text split_pos)
                then (Z.of_nat split_pos, multiple_last_resort)
                else (-1, no_good_split)
            | None => (-1, no_good_split)
            end
        end
  end.

(** *** The search of [split_advanced_segments] *)

(** [0 < pos < len(text) - 1 and text[pos] == ' '] *)
Definition space_inside (text : str) (pos : Z) : bool :=
  (0 <? pos) && (pos <? Z.of_nat (length text) - 1)
  && bool_decide (text !! Z.to_nat pos = Some SP).

(** The first search for a space: the positions [target_pos - offset] and
    [target_pos + offset], in this order, for the offsets from 0 on; the
    two loops are left at the first position that qualifies. *)
Definition space_near_middle (text : str) : Z :=
  let target_pos := Z.of_nat (length text) / 2 in
  let search_range := Z.max 10 (int_0_2 fl (length text)) in
  let candidates :=
    flat_map (λ offset, [target_pos - offset; target_pos + offset])
      (seqZ 0 search_range) in
  default (-1) (find (space_inside text) candidates).

(** The second search: the first space between the fifth and the four
    fifths of the text. *)
Definition space_in_the_middle (text : str) : Z :=
  match find (λ i, bool_decide (text !! i = Some SP)
                   && above_0_2 fl i (length text) && below_0_8 fl i (length text))
          (seq 0 (length text)) with
  | Some i => Z.of_nat i
  | None => -1
  end.

(** The two parts of the text when a split is found, by punctuation, then
    at a word boundary, then, for a text far beyond the limit, in the
    middle. *)
Definition find_split (text : str) (char_limit : Z) : option (str * str) :=
  let '(split_pos, _) := find_punctuation_split_point text char_limit in
  let by_punctuation :=
    if split_pos >? 0 then
      let parts := parts_after text (Z.to_nat split_pos) in
      let is_very_long := exceeds_1_5 fl (length text) char_limit in
      let min_part_length := if is_very_long then 2%nat else 3%nat in
      if parts_at_least min_part_length parts then Some parts else None
    else None in
  match by_punctuation with
  | Some parts => Some parts
  | None =>
      let best_space_pos := space_near_middle text in
      let best_space_pos :=
        if best_space_pos =? -1 then space_in_the_middle text else best_space_pos in
      let by_word_boundary :=
        if best_space_pos >? 0 then
          let parts := (strip (take (Z.to_nat best_space_pos) text),
                        strip (drop (Z.to_nat best_space_pos) text)) in
          if parts_at_least 3 parts then Some parts else None
        else None in
      match by_word_boundary with
      | Some parts => Some parts
      | None =>
          if exceeds_1_8 fl (length text) char_limit then
            let mid_point := (length text / 2)%nat in
            Some (strip (take mid_point text), strip (drop mid_point text))
          else None
      end
  end.

Definition should_process (text : str) (char_limit : Z) : bool :=
  let word_count := length (words text) in
  let is_very_long := exceeds_1_5 fl (length text) char_limit in
  (Z.of_nat (length text) >? char_limit) && (3 <=? word_count)%nat
  || is_very_long && (2 <=? word_count)%nat.

(** One iteration of the loop over the segments: what is appended to
    [new_segments]. [None] is the [ValueError] of a time line that does not
    split in two at the arrow, raised before the search. *)
Definition split_segment (imd : Z → Z → Z → Z) (char_limit : Z) (segment : Cue)
  : option (list Cue) :=
  let text := strip (cue_text segment) in
  if should_process text char_limit then
    match split (lit " --> ") (timestamp segment) with
    | [_; _] =>
        match find_split text char_limit with
        | Some (first_part, second_part) => emit_split imd segment first_part second_part
        | None => Some [segment]
        end
    | _ => None
    end
  else Some [segment].

End Search.

(** *** [split_advanced_segments], the whole pass *)

(** The blocks of the input; [None] is the [ValueError] of [int(lines[0])],
    which this loop does not catch. *)
Definition parse_cue_step (acc : option (list Cue)) (block : str) : option (list Cue) :=
  segments ← acc;
  if bool_decide (strip block = []) then Some segments
  else
    let lines := split [LF] (strip block) in
    if (3 <=? length lines)%nat then
      segment_num ← py_int (default [] (lines !! 0%nat));
      Some (segments ++ [mkCue (Whole segment_num) (default [] (lines !! 1%nat))
                           (join [SP] (drop 2 lines))])
    else Some segments.

Definition parse_cues (srt_content : str) : option (list Cue) :=
  foldl parse_cue_step (Some []) (split [LF; LF] (strip srt_content)).

(** [new_segments.sort(key=lambda x: x['num'])]: a stable sort; a number
    plus one half lies between the number and its successor, as the
    floating-point sum does for a number from [-2^52] to [2^52 - 1]. *)
Definition num_key (n : pynum) : Z :=
  match n with
  | Whole z => 2 * z
  | PlusHalf z => 2 * z + 1
  end.

Fixpoint insert_by_num (x : Cue) (l : list Cue) : list Cue :=
  match l with
  | [] => [x]
  | y :: l' =>
      if num_key (num x) <=? num_key (num y) then x :: l else y :: insert_by_num x l'
  end.

Definition sort_by_num (l : list Cue) : list Cue := foldr insert_by_num [] l.

(** [sep in s] *)
Fixpoint occurs (sep s : str) : bool :=
  startswith sep s || match s with [] => false | _ :: s' => occurs sep s' end.

(** Whether the filter keeps the segment; [None] is the [ValueError] of a
    time line with more than one arrow. *)
Definition keeps (segment : Cue) : option bool :=
  let text := strip (cue_text segment) in
  if bool_decide (text = []) || (length text <? 2)%nat then Some false
  else if occurs (lit " --> ") (timestamp segment) then
    match split (lit " --> ") (timestamp segment) with
    | [start_time; end_time] =>
        if bool_decide (start_time = end_time) then Some false
        else
          let start_ms := parse_timestamp start_time in
          let end_ms := parse_timestamp end_time in
          if start_ms >=? end_ms then Some false
          else if end_ms - start_ms <? 50 then Some false
          else Some true
    | _ => None
    end
  else Some true.

Definition filter_step (acc : option (list Cue)) (segment : Cue) : option (list Cue) :=
  valid_segments ← acc;
  keep ← keeps segment;
  Some (if keep : bool then valid_segments ++ [segment] else valid_segments).

(** [for i, segment in enumerate(valid_segments, 1): segment['num'] = i] *)
Definition renumber (valid_segments : list Cue) : list Cue :=
  imap (λ i segment,
          mkCue (Whole (Z.of_nat i + 1)) (timestamp segment) (cue_text segment))
       valid_segments.

Section Pass.
Variable fl : Floats.
Variable imd : Z → Z → Z → Z.

Definition split_step (char_limit : Z) (acc : option (list Cue)) (segment : Cue)
  : option (list Cue) :=
  new_segments ← acc;
  added ← split_segment fl imd char_limit segment;
  Some (new_segments ++ added).

(** The segments of the result, before they are written. *)
Definition split_advanced_cues (srt_content : str) (char_limit : Z) : option (list Cue) :=
  segments ← parse_cues srt_content;
  new_segments ← foldl (split_step char_limit) (Some []) segments;
  valid_segments ← foldl filter_step (Some []) (sort_by_num new_segments);
  Some (renumber valid_segments).

Definition split_advanced_segments (srt_content : str) (char_limit : Z) : option str :=
  cues ← split_advanced_cues srt_content char_limit;
  Some (join [LF] (cue_lines cues)).

End Pass.
End Splitter.

(** ** [main.py]: the whole timing pass *)

Module MainPass.

(** The renderer at the end of [redistribute_srt_timing]. *)
Definition srt_lines (segments : list Segment) : list str :=
  foldl (λ acc segment,
           acc ++ [py_str (number segment);
                   Main.format_timestamp (start_ms segment) ++ lit " --> "
                     ++ Main.format_timestamp (end_ms segment);
                   text segment;
                   []])
        [] segments.

Definition render_srt (segments : list Segment) : str :=
  strip (join [LF] (srt_lines segments)).

Section Pass.
Variable imd : Z → Z → Z → Z.

(** The loop over the groups; [redistribute_timing_in_group] is called
    with its default gap of 30 ms. *)
Definition redistribute_groups (groups : list (list Segment)) (min_duration_ms : Z)
  : list Segment :=
  foldl (λ all_redistributed group,
           if (1 <? length group)%nat
           then all_redistributed
                  ++ Main.redistribute_timing_in_group imd group min_duration_ms 30
           else all_redistributed ++ group)
        [] groups.

Definition redistribute_srt_timing (srt_content : str) (max_gap_ms min_duration_ms : Z)
  : str :=
  let groups := Main.group_continuous_subtitles_for_timing srt_content max_gap_ms in
  match groups with
  | [] => srt_content
  | _ :: _ =>
      let all_redistributed := redistribute_groups groups min_duration_ms in
      render_srt (Redistributor.sort_by_number all_redistributed)
  end.

End Pass.
End MainPass.

(** ** [main.py] and [transcribe_api.py]: the exchange format *)

Module Exchange.
Import Main.

(** [d[k] = v] on a dictionary, kept as the list of its items in the order
    of insertion: the value of a key already there is replaced in place. *)
Fixpoint dict_set {V} (k : str) (v : V) (d : list (str * V)) : list (str * V) :=
  match d with
  | [] => [(k, v)]
  | (k', v') :: d' =>
      if decide (k = k') then (k, v) :: d' else (k', v') :: dict_set k v d'
  end.

(** [{"t": timestamp, "s": subtitle_text}] *)
Definition entry (timestamp subtitle_text : str) : pyval :=
  PDict {[ lit "t" := PStr timestamp; lit "s" := PStr subtitle_text ]}.

Definition srt_to_json_step (json_data : list (str * pyval)) (block : str)
  : list (str * pyval) :=
  if bool_decide (strip block = []) then json_data
  else
    let lines := split [LF] (strip block) in
    if (3 <=? length lines)%nat then
      let number := strip (default [] (lines !! 0%nat)) in
      let timestamp := strip (default [] (lines !! 1%nat)) in
      let subtitle_text := strip (join [SP] (drop 2 lines)) in
      dict_set number (entry timestamp subtitle_text) json_data
    else json_data.

Definition srt_to_json (srt_content : str) : list (str * pyval) :=
  foldl srt_to_json_step [] (split [LF; LF] (strip srt_content)).

(** [[(int(k), v) for k, v in subtitle_json.items() if k not in
    ['success', 'comment']]]; [None] is the [ValueError] of [int]. *)
Fixpoint numbered_items (items : list (str * pyval)) : option (list (Z * pyval)) :=
  match items with
  | [] => Some []
  | (k, v) :: rest =>
      if bool_decide (k ∉ reserved_keys) then
        n ← py_int k; l ← numbered_items rest; Some ((n, v) :: l)
      else numbered_items rest
  end.

(** [sorted(..., key=lambda x: x[0])]: stable. *)
Fixpoint insert_by_key (x : Z * pyval) (l : list (Z * pyval)) : list (Z * pyval) :=
  match l with
  | [] => [x]
  | y :: l' => if x.1 <=? y.1 then x :: l else y :: insert_by_key x l'
  end.

Definition sort_by_key (l : list (Z * pyval)) : list (Z * pyval) :=
  foldr insert_by_key [] l.

(** [segment_data[key]] where a string is needed: [None] is the [KeyError]
    or the [TypeError] of the access, or the [TypeError] that [join] raises
    on a value that is not a string. *)
Definition text_field (segment_data : pyval) (key : str) : option str :=
  match segment_data with
  | PDict d => match d !! key with Some (PStr s) => Some s | _ => None end
  | _ => None
  end.

Definition json_lines_step (acc : option (list str)) (item : Z * pyval)
  : option (list str) :=
  srt_lines ← acc;
  t ← text_field item.2 (lit "t");
  s ← text_field item.2 (lit "s");
  Some (srt_lines ++ [py_str item.1; t; s; []]).

Definition json_to_srt (subtitle_json : list (str * pyval)) : option str :=
  numbered ← numbered_items subtitle_json;
  srt_lines ← foldl json_lines_step (Some []) (sort_by_key numbered);
  Some (join [LF] srt_lines).

End Exchange.

(** * Properties *)

(** ** Python strings *)

Section StripFacts.

Definition is_space (c : ascii) : Prop := isspace c = true.
Definition non_space (c : ascii) : Prop := isspace c = false.

(** A string that neither starts nor ends with white space. *)
Definition clean (s : str) : Prop :=
  (∀ c, head s = Some c → non_space c) ∧ (∀ c, last s = Some c → non_space c).

Lemma lstrip_spaces_app l s : Forall is_space l → lstrip (l ++ s) = lstrip s.
Proof. induction 1 as [|c l Hc _ IH]; simpl; [done|]. by rewrite Hc. Qed.

Lemma lstrip_head s : (∀ c, head s = Some c → non_space c) → lstrip s = s.
Proof. destruct s as [|c s]; simpl; [done|]. intros H. by rewrite (H c). Qed.

Lemma lstrip_decomp s :
  ∃ l, s = l ++ lstrip s ∧ Forall is_space l
       ∧ ∀ c, head (lstrip s) = Some c → non_space c.
Proof.
  induction s as [|c s (l & Hs & Hl & Hh)]; simpl.
  - exists []. by repeat split.
  - destruct (isspace c) eqn:Ec.
    + exists (c :: l). split; [by rewrite Hs at 1|]. split; [by constructor|done].
    + exists []. split; [done|]. split; [done|]. by intros ? [= <-].
Qed.

Lemma rstrip_spaces_app s r : Forall is_space r → rstrip (s ++ r) = rstrip s.
Proof.
  intros Hr. unfold rstrip. rewrite reverse_app, lstrip_spaces_app; [done|].
  by apply Forall_reverse.
Qed.

Lemma rstrip_last s : (∀ c, last s = Some c → non_space c) → rstrip s = s.
Proof.
  intros H. unfold rstrip. rewrite lstrip_head, reverse_involutive; [done|].
  intros c. rewrite head_reverse. apply H.
Qed.

Lemma rstrip_decomp s :
  ∃ r, s = rstrip s ++ r ∧ Forall is_space r
       ∧ ∀ c, last (rstrip s) = Some c → non_space c.
Proof.
  destruct (lstrip_decomp (reverse s)) as (l & Hs & Hl & Hh).
  exists (reverse l). unfold rstrip. split; [|split].
  - rewrite <- reverse_app, <- Hs. by rewrite reverse_involutive.
  - by apply Forall_reverse.
  - intros c. rewrite last_reverse. apply Hh.
Qed.

Lemma strip_decomp s :
  ∃ l r, s = l ++ strip s ++ r ∧ Forall is_space l ∧ Forall is_space r.
Proof.
  destruct (lstrip_decomp s) as (l & Hs & Hl & _).
  destruct (rstrip_decomp (lstrip s)) as (r & Hs' & Hr & _).
  exists l, r. unfold strip. by rewrite <- Hs', <- Hs.
Qed.

Lemma strip_is_clean s : clean (strip s).
Proof.
  destruct (lstrip_decomp s) as (l & _ & _ & Hh).
  destruct (rstrip_decomp (lstrip s)) as (r & Hs' & _ & Hl).
  split; [|apply Hl]. intros c Hc. apply Hh. rewrite Hs', head_app.
  unfold strip in Hc. by rewrite Hc.
Qed.

Lemma strip_clean_id s : clean s → strip s = s.
Proof.
  intros [Hh Hl]. unfold strip. rewrite (lstrip_head s Hh). by apply rstrip_last.
Qed.

(** What [int()] skips is white space for [str.strip] too. *)
Lemma int_space_is_space c : int_space c = true → is_space c.
Proof.
  unfold is_space.
  destruct c as [[] [] [] [] [] [] [] []]; vm_compute; congruence.
Qed.

Lemma int_lstrip_head s :
  (∀ c, head s = Some c → non_space c) → int_lstrip s = s.
Proof.
  destruct s as [|c s]; simpl; [done|]. intros H.
  destruct (int_space c) eqn:E; [|done].
  apply int_space_is_space in E. specialize (H c eq_refl).
  unfold is_space, non_space in *. congruence.
Qed.

Lemma int_strip_clean_id s : clean s → int_strip s = s.
Proof.
  intros [Hh Hl]. unfold int_strip. rewrite (int_lstrip_head s Hh).
  rewrite int_lstrip_head, reverse_involutive; [done|].
  intros c. rewrite head_reverse. apply Hl.
Qed.

Lemma strip_idemp s : strip (strip s) = strip s.
Proof. apply strip_clean_id, strip_is_clean. Qed.

Lemma strip_app_spaces s r : clean s → Forall is_space r → strip (s ++ r) = s.
Proof.
  intros [Hh Hl] Hr. unfold strip. destruct s as [|c s].
  - simpl. rewrite <- (app_nil_r r), lstrip_spaces_app; done.
  - rewrite lstrip_head.
    + rewrite rstrip_spaces_app by done. by apply rstrip_last.
    + intros c' [= <-]. by apply Hh.
Qed.

Lemma strip_nonempty s c : c ∈ s → non_space c → strip s ≠ [].
Proof.
  intros Hin Hc E. destruct (strip_decomp s) as (l & r & Hs & Hl & Hr).
  rewrite E in Hs. simpl in Hs. rewrite Hs in Hin.
  apply elem_of_app in Hin as [Hin|Hin];
    [rewrite Forall_forall in Hl; specialize (Hl _ Hin)
    |rewrite Forall_forall in Hr; specialize (Hr _ Hin)];
    unfold is_space, non_space in *; congruence.
Qed.

Lemma clean_cons_snoc c s d : non_space c → non_space d → clean (c :: s ++ [d]).
Proof.
  intros Hc Hd. split.
  - by intros ? [= <-].
  - intros x. rewrite app_comm_cons, last_snoc. by intros [= <-].
Qed.

Lemma clean_nil : clean [].
Proof. by split. Qed.

End StripFacts.


Section SplitFacts.

(** The head of the result of [split] takes one more character. *)
Definition cons_head (c : ascii) (l : list str) : list str :=
  match l with
  | p :: ps => (c :: p) :: ps
  | [] => [[c]]
  end.

(** No occurrence of [sep] in [a ++ rest] starts inside [a]. *)
Definition no_start (sep a rest : str) : Prop :=
  ∀ l t, a = l ++ t → t ≠ [] → startswith sep (t ++ rest) = false.

Lemma startswith_app p s : startswith p (p ++ s) = true.
Proof. induction p as [|c p IH]; simpl; [done|]. by rewrite Ascii.eqb_refl. Qed.

Lemma startswith_prefix p s : startswith p s = true ↔ ∃ r, s = p ++ r.
Proof.
  split.
  - revert s. induction p as [|c p IH]; intros s H; [by exists s|].
    destruct s as [|d s]; [done|]. simpl in H.
    apply andb_prop in H as [Hc Hp]. apply Ascii.eqb_eq in Hc as ->.
    destruct (IH _ Hp) as [r ->]. by exists r.
  - intros [r ->]. apply startswith_app.
Qed.

Lemma split_go_skip sep p s : split_go sep (length p) (p ++ s) = split_go sep 0 s.
Proof. induction p; simpl; done. Qed.

Lemma split_nil sep : split sep [] = [[]].
Proof. done. Qed.

Lemma split_sep sep s : sep ≠ [] → split sep (sep ++ s) = [] :: split sep s.
Proof.
  destruct sep as [|c sep]; [done|]. intros _. unfold split.
  change (split_go (c :: sep) 0 ((c :: sep) ++ s))
    with (if startswith (c :: sep) ((c :: sep) ++ s)
          then [] :: split_go (c :: sep) (length (c :: sep) - 1) (sep ++ s)
          else cons_head c (split_go (c :: sep) 0 (sep ++ s))).
  rewrite startswith_app. simpl. by rewrite Nat.sub_0_r, split_go_skip.
Qed.

Lemma split_other sep c s :
  startswith sep (c :: s) = false → split sep (c :: s) = cons_head c (split sep s).
Proof. intros H. unfold split. simpl split_go. by rewrite H. Qed.

Lemma split_ind sep (P : str → list str → Prop) :
  sep ≠ [] →
  P [] [[]] →
  (∀ s, P s (split sep s) → P (sep ++ s) ([] :: split sep s)) →
  (∀ c s, startswith sep (c :: s) = false → P s (split sep s) →
          P (c :: s) (cons_head c (split sep s))) →
  ∀ s, P s (split sep s).
Proof.
  intros Hsep Hnil Hs Hc s.
  induction s as [s IH] using (induction_ltof1 _ (@length ascii)).
  unfold ltof in IH. destruct s as [|c s]; [done|].
  destruct (startswith sep (c :: s)) eqn:E.
  - apply startswith_prefix in E as [r Hr]. rewrite Hr, split_sep by done.
    apply Hs, IH. rewrite Hr, length_app.
    destruct sep; [done|]. simpl. lia.
  - rewrite split_other by done. apply Hc; [done|]. apply IH. simpl. lia.
Qed.

Lemma split_not_nil sep s : split sep s ≠ [].
Proof.
  unfold split. generalize 0%nat. induction s as [|c s IH]; intros k; [done|].
  simpl. destruct k; [|done]. destruct (startswith _ _); [done|].
  by destruct (split_go sep 0 s).
Qed.

Lemma join_cons sep x l : l ≠ [] → join sep (x :: l) = x ++ sep ++ join sep l.
Proof. by destruct l. Qed.

Lemma join_split sep s : sep ≠ [] → join sep (split sep s) = s.
Proof.
  intros Hsep.
  apply (split_ind sep (λ s l, join sep l = s)); try done.
  - intros s' IH. rewrite join_cons by apply split_not_nil. by rewrite IH.
  - intros c s' _ IH. pose proof (split_not_nil sep s').
    destruct (split sep s') as [|p [|q ps]]; [done|..]; simpl in *; by rewrite <- IH.
Qed.

Lemma contains_nil sep : sep ≠ [] → ¬ contains sep [].
Proof. intros Hsep (l & r & E). destruct l, sep; done. Qed.

Lemma contains_app sep s l r : contains sep s → contains sep (l ++ s ++ r).
Proof.
  intros (l' & r' & ->). exists (l ++ l'), (r' ++ r). by rewrite <- !app_assoc.
Qed.

Lemma split_pieces sep s :
  sep ≠ [] → Forall (λ p, ¬ contains sep p) (split sep s).
Proof.
  intros Hsep.
  apply (split_ind sep (λ s l, Forall (λ p, ¬ contains sep p) l
                               ∧ ∃ p ps r, l = p :: ps ∧ s = p ++ r)); try done.
  - split; [constructor; [by apply contains_nil|done]|]. by exists [], [], [].
  - intros s' [IH _]. split; [constructor; [by apply contains_nil|done]|].
    by exists [], (split sep s'), (sep ++ s').
  - intros c s' Hc [IH (p & ps & r & Hl & Hr)]. rewrite Hl in *. simpl.
    apply Forall_cons in IH as [IHp IHps]. split.
    + constructor; [|done]. intros (l0 & r0 & E). destruct l0 as [|c0 l0].
      * simpl in E. rewrite Hr, app_comm_cons, E in Hc.
        by rewrite <- app_assoc, startswith_app in Hc.
      * simplify_eq/=. apply IHp. by exists l0, r0.
    + exists (c :: p), ps, r. by rewrite Hr.
Qed.

Lemma split_prepend sep a rest :
  no_start sep a rest →
  split sep (a ++ rest)
  = match split sep rest with p :: ps => (a ++ p) :: ps | [] => [a] end.
Proof.
  pose proof (split_not_nil sep rest) as Hne.
  induction a as [|c a IH]; intros H; simpl.
  - by destruct (split sep rest).
  - rewrite split_other.
    + rewrite IH; [by destruct (split sep rest)|].
      intros l t -> Ht. by apply (H (c :: l)).
    + by apply (H [] (c :: a)).
Qed.

Lemma split_piece sep a b :
  sep ≠ [] → no_start sep a (sep ++ b) →
  split sep (a ++ sep ++ b) = a :: split sep b.
Proof.
  intros Hsep H. rewrite split_prepend, split_sep by done. by rewrite app_nil_r.
Qed.

Lemma split_single sep a : no_start sep a [] → split sep a = [a].
Proof.
  intros H. rewrite <- (app_nil_r a) at 1. rewrite split_prepend by done.
  simpl. by rewrite app_nil_r.
Qed.

(** A separator whose first character does not occur in [a]. *)
Lemma no_start_first x sep a rest : x ∉ a → no_start (x :: sep) a rest.
Proof.
  intros Hx l t -> Ht. destruct t as [|c t]; [done|]. simpl.
  destruct (Ascii.eqb_spec x c) as [->|]; [|done].
  exfalso. apply Hx, elem_of_app. right. by left.
Qed.

(** The blank line: no occurrence inside [a], and [a] does not end with a
    line feed. *)
Lemma no_start_blank_line a rest :
  ¬ contains [LF; LF] a → last a ≠ Some LF → no_start [LF; LF] a (LF :: rest).
Proof.
  intros Hc Hl l t -> Ht.
  destruct t as [|c [|d t]]; [done|..]; cbn [startswith app].
  - destruct (Ascii.eqb_spec LF c) as [<-|]; [|done].
    by rewrite last_snoc in Hl.
  - destruct (Ascii.eqb_spec LF c) as [<-|]; [|done].
    destruct (Ascii.eqb_spec LF d) as [<-|]; [|done].
    exfalso. apply Hc. by exists l, t.
Qed.

End SplitFacts.

Section DigitFacts.

Definition is_digit (c : ascii) : Prop := is_Some (digit_val c).

(** The value of a string of digits read from the left, after [acc]. *)
Definition dval (acc : Z) (ds : str) : Z :=
  foldl (λ a c, 10 * a + default 0 (digit_val c)) acc ds.

(** Every character but the few that matter below is told apart by
    computation on its eight bits. *)
Ltac by_bits c :=
  destruct c as [[] [] [] [] [] [] [] []]; vm_compute; try done;
  try (intros; congruence).

Lemma digit_non_space c : is_digit c → non_space c.
Proof. intros [d Hd]. revert Hd. unfold non_space. by_bits c. Qed.

(** Digits are none of the characters that punctuate a block. *)
Lemma digit_not_punct c :
  is_digit c →
  c ≠ LF ∧ c ≠ SP ∧ c ≠ ","%char ∧ c ≠ ":"%char ∧ c ≠ "-"%char
  ∧ c ≠ "+"%char ∧ c ≠ "_"%char ∧ c ≠ ">"%char.
Proof.
  intros [d Hd]. revert Hd.
  destruct c as [[] [] [] [] [] [] [] []]; vm_compute; intros; try congruence;
    repeat split; congruence.
Qed.

Lemma digit_val_range c d : digit_val c = Some d → 0 ≤ d < 10.
Proof.
  destruct c as [[] [] [] [] [] [] [] []]; vm_compute; intros [= <-]; by split.
Qed.

Lemma digit_val_char d : 0 ≤ d < 10 → digit_val (digit_char d) = Some d.
Proof.
  intros H.
  assert (d = 0 ∨ d = 1 ∨ d = 2 ∨ d = 3 ∨ d = 4 ∨ d = 5 ∨ d = 6 ∨ d = 7
          ∨ d = 8 ∨ d = 9) as Hd by lia.
  repeat destruct Hd as [->|Hd]; try subst d; reflexivity.
Qed.

Lemma digit_char_digit d : 0 ≤ d < 10 → is_digit (digit_char d).
Proof. intros H. unfold is_digit. by rewrite digit_val_char. Qed.

Lemma dval_app a x y : dval a (x ++ y) = dval (dval a x) y.
Proof. apply foldl_app. Qed.

Lemma dval_zeros k : dval 0 (replicate k "0"%char) = 0.
Proof. induction k; [done|]. simpl. apply IHk. Qed.

Lemma int_digits_all acc b ds :
  Forall is_digit ds → ds ≠ [] ∨ b = true →
  int_digits acc b ds = Some (dval acc ds).
Proof.
  intros Hd. revert acc b. induction Hd as [|c ds [d Hc] _ IH]; intros acc b Hb.
  - destruct Hb as [?| ->]; done.
  - simpl. rewrite Hc. simpl. apply IH. by right.
Qed.

Lemma digits_clean ds : Forall is_digit ds → clean ds.
Proof.
  intros Hd. rewrite Forall_forall in Hd. split; intros c Hc; apply digit_non_space, Hd.
  - destruct ds; simplify_eq/=. by left.
  - apply last_Some in Hc as [l ->]. apply elem_of_app. right. by left.
Qed.

Lemma py_int_digits ds :
  Forall is_digit ds → ds ≠ [] → py_int ds = Some (dval 0 ds).
Proof.
  intros Hd Hne. unfold py_int. rewrite int_strip_clean_id by by apply digits_clean.
  destruct ds as [|c r]; [done|].
  pose proof (Forall_inv Hd) as Hc.
  apply digit_not_punct in Hc as (_ & _ & _ & _ & Hminus & Hplus & _).
  destruct (Ascii.eqb_spec c "-"); [done|].
  destruct (Ascii.eqb_spec c "+"); [done|].
  apply int_digits_all; [done|by left].
Qed.

Lemma digits_go_spec fuel n acc :
  0 ≤ n → Z.log2 n < Z.of_nat fuel →
  ∃ pre, digits_go fuel n acc = pre ++ acc ∧ pre ≠ [] ∧ Forall is_digit pre
         ∧ ∀ a, dval a pre = a * 10 ^ Z.of_nat (length pre) + n.
Proof.
  revert n acc. induction fuel as [|fuel IH]; intros n acc Hn Hf.
  - pose proof (Z.log2_nonneg n). lia.
  - simpl. assert (0 ≤ n mod 10 < 10) as Hm by (apply Z.mod_pos_bound; lia).
    destruct (Z.ltb_spec n 10) as [Hlt|Hge].
    + exists [digit_char (n mod 10)]. split; [done|]. split; [done|].
      split; [by repeat constructor; apply digit_char_digit|].
      intros a. unfold dval. simpl. rewrite digit_val_char by done. simpl.
      rewrite Z.mod_small by lia. lia.
    + destruct (IH (n / 10) (digit_char (n mod 10) :: acc)) as (pre & E & Hne & Hd & Hv).
      * apply Z.div_pos; lia.
      * assert (Z.log2 (n / 10) ≤ Z.log2 (n / 2)) as H1.
        { apply Z.log2_le_mono. apply Z.div_le_compat_l; lia. }
        replace (n / 2) with (Z.shiftr n 1) in H1
          by (by rewrite Z.shiftr_div_pow2).
        rewrite Z.log2_shiftr in H1 by lia.
        pose proof (Z.log2_pos n). lia.
      * exists (pre ++ [digit_char (n mod 10)]). split; [by rewrite E, <- app_assoc|].
        split; [by destruct pre|]. split.
        { apply Forall_app; split; [done|].
          by repeat constructor; apply digit_char_digit. }
        intros a. rewrite dval_app, Hv, length_app. unfold dval. simpl.
        rewrite digit_val_char by done. simpl.
        rewrite Nat2Z.inj_add, Z.pow_add_r by lia.
        pose proof (Z.div_mod n 10). lia.
Qed.

Lemma digits_spec n :
  0 ≤ n → digits n ≠ [] ∧ Forall is_digit (digits n) ∧ dval 0 (digits n) = n.
Proof.
  intros Hn. unfold digits.
  destruct (digits_go_spec (S (Z.to_nat (Z.log2 n))) n [] Hn) as (pre & E & Hne & Hd & Hv).
  { pose proof (Z.log2_nonneg n). lia. }
  rewrite E, app_nil_r. by rewrite Hv.
Qed.

Lemma zfill_spec w ds :
  Forall is_digit ds → ds ≠ [] →
  zfill w ds ≠ [] ∧ Forall is_digit (zfill w ds) ∧ dval 0 (zfill w ds) = dval 0 ds.
Proof.
  intros Hd Hne. unfold zfill. split; [|split].
  - by destruct (replicate _ _), ds.
  - apply Forall_app; split; [|done]. apply Forall_replicate. by exists 0.
  - by rewrite dval_app, dval_zeros.
Qed.

Lemma format_0d_spec w n :
  0 ≤ n →
  format_0d w n ≠ [] ∧ Forall is_digit (format_0d w n) ∧ dval 0 (format_0d w n) = n.
Proof.
  intros Hn. unfold format_0d. destruct (Z.ltb_spec n 0); [lia|].
  destruct (digits_spec n Hn) as (Hne & Hd & Hv).
  destruct (zfill_spec w (digits n) Hd Hne) as (? & ? & Hz).
  rewrite Hz. done.
Qed.

(** The characters of [str(n)]: digits after an optional minus sign. *)
Definition is_numeral (s : str) : Prop :=
  ∃ ds, Forall is_digit ds ∧ ds ≠ [] ∧ (s = ds ∨ s = "-"%char :: ds).

Lemma py_str_numeral n : is_numeral (py_str n).
Proof.
  unfold py_str. destruct (Z.ltb_spec n 0).
  - destruct (digits_spec (- n)) as (Hne & Hd & _); [lia|].
    exists (digits (- n)). auto.
  - destruct (digits_spec n) as (Hne & Hd & _); [lia|].
    exists (digits n). auto.
Qed.

Lemma numeral_clean s : is_numeral s → clean s ∧ s ≠ [] ∧ LF ∉ s.
Proof.
  intros (ds & Hd & Hne & Hs).
  assert (LF ∉ ds) as Hlf.
  { intros Hin. rewrite Forall_forall in Hd.
    apply Hd, digit_not_punct in Hin as [Hin _]. done. }
  pose proof (digits_clean ds Hd) as [Hh Hl].
  destruct Hs as [->| ->]; [by repeat split|]. split; [split|split].
  - by intros ? [= <-].
  - intros c Hc. apply Hl. by destruct ds.
  - done.
  - intros [E|Hin]%elem_of_cons; [by vm_compute in E|done].
Qed.

Lemma py_int_py_str n : py_int (py_str n) = Some n.
Proof.
  unfold py_str. destruct (Z.ltb_spec n 0).
  - destruct (digits_spec (- n)) as (Hne & Hd & Hv); [lia|].
    unfold py_int. rewrite int_strip_clean_id.
    + simpl. rewrite int_digits_all by (done || by left). rewrite Hv. simpl.
      f_equal. lia.
    + apply numeral_clean. exists (digits (- n)). auto.
  - destruct (digits_spec n) as (Hne & Hd & Hv); [lia|].
    rewrite py_int_digits by done. by rewrite Hv.
Qed.

End DigitFacts.

(** ** Timestamps *)

Section TimestampFacts.

(** A field of a timestamp: a non-empty string of digits. *)
Definition is_field (s : str) : Prop := Forall is_digit s ∧ s ≠ [].

(** The text [hs:ms:ss,mss]. *)
Definition timestamp_text (hs ms ss mss : str) : str :=
  hs ++ lit ":" ++ ms ++ lit ":" ++ ss ++ lit "," ++ mss.

Definition total_ms_of (hours minutes seconds milliseconds : Z) : Z :=
  (hours * 3600 + minutes * 60 + seconds) * 1000 + milliseconds.

Lemma dval_nonneg a ds : 0 ≤ a → Forall is_digit ds → 0 ≤ dval a ds.
Proof.
  intros Ha Hd. revert a Ha. induction Hd as [|c ds [d Hc] _ IH]; intros a Ha; [done|].
  simpl. apply IH. rewrite Hc. simpl. apply digit_val_range in Hc. lia.
Qed.

Lemma field_lacks s c :
  is_field s → c = ","%char ∨ c = ":"%char ∨ c = SP ∨ c = LF → c ∉ s.
Proof.
  intros [Hd _] Hc Hin. rewrite Forall_forall in Hd.
  apply Hd, digit_not_punct in Hin as (? & ? & ? & ? & _).
  destruct Hc as [->|[->|[->| ->]]]; done.
Qed.

Lemma split_timestamp_text hs ms ss mss :
  is_field hs → is_field ms → is_field ss → is_field mss →
  split (lit ",") (timestamp_text hs ms ss mss) = [hs ++ lit ":" ++ ms ++ lit ":" ++ ss; mss]
  ∧ split (lit ":") (hs ++ lit ":" ++ ms ++ lit ":" ++ ss) = [hs; ms; ss].
Proof.
  intros Hh Hm Hs Hms. unfold timestamp_text. split.
  - rewrite !(app_assoc _ _ (lit "," ++ mss)), <- !app_assoc.
    replace (hs ++ lit ":" ++ ms ++ lit ":" ++ ss ++ lit "," ++ mss)
      with ((hs ++ lit ":" ++ ms ++ lit ":" ++ ss) ++ lit "," ++ mss)
      by (by rewrite <- !app_assoc).
    rewrite split_piece; [|done|].
    + f_equal. apply split_single, no_start_first, field_lacks; auto.
    + assert (","%char ∉ lit ":") as Hcolon
        by (by intros ?%list_elem_of_singleton).
      apply no_start_first.
      repeat (apply not_elem_of_app; split); try done;
        apply field_lacks; auto.
  - rewrite split_piece; [|done|apply no_start_first, field_lacks; auto].
    rewrite split_piece; [|done|apply no_start_first, field_lacks; auto].
    f_equal. f_equal. apply split_single, no_start_first, field_lacks; auto.
Qed.

Lemma tr_parse_timestamp_fields hs ms ss mss :
  is_field hs → is_field ms → is_field ss → is_field mss →
  TR.parse_timestamp (timestamp_text hs ms ss mss)
  = total_ms_of (dval 0 hs) (dval 0 ms) (dval 0 ss) (dval 0 mss).
Proof.
  intros Hh Hm Hs Hms. unfold TR.parse_timestamp, TR.parse_timestamp_body.
  destruct (split_timestamp_text hs ms ss mss) as [-> ->]; try done.
  destruct Hh as [Hh ?], Hm as [Hm ?], Hs as [Hs ?], Hms as [Hms ?].
  rewrite !py_int_digits by done. simpl.
  pose proof (dval_nonneg 0 hs (Z.le_refl 0) Hh).
  pose proof (dval_nonneg 0 ms (Z.le_refl 0) Hm).
  pose proof (dval_nonneg 0 ss (Z.le_refl 0) Hs).
  pose proof (dval_nonneg 0 mss (Z.le_refl 0) Hms).
  unfold total_ms_of. lia.
Qed.

Lemma main_parse_timestamp_fields hs ms ss mss :
  is_field hs → is_field ms → is_field ss → is_field mss →
  Main.parse_timestamp (timestamp_text hs ms ss mss)
  = if (dval 0 ms <=? 59) && (dval 0 ss <=? 59) && (dval 0 mss <=? 999)
    then total_ms_of (dval 0 hs) (dval 0 ms) (dval 0 ss) (dval 0 mss)
    else 0.
Proof.
  intros Hh Hm Hs Hms. unfold Main.parse_timestamp, Main.parse_timestamp_body.
  destruct (split_timestamp_text hs ms ss mss) as [-> ->]; try done.
  destruct Hh as [Hh ?], Hm as [Hm ?], Hs as [Hs ?], Hms as [Hms ?].
  rewrite !py_int_digits by done. simpl.
  pose proof (dval_nonneg 0 hs (Z.le_refl 0) Hh).
  pose proof (dval_nonneg 0 ms (Z.le_refl 0) Hm).
  pose proof (dval_nonneg 0 ss (Z.le_refl 0) Hs).
  pose proof (dval_nonneg 0 mss (Z.le_refl 0) Hms).
  unfold total_ms_of.
  repeat match goal with
         | |- context [?a <? ?b] => destruct (Z.ltb_spec a b)
         | |- context [?a >? ?b] => destruct (Z.gtb_spec a b)
         | |- context [?a <=? ?b] => destruct (Z.leb_spec a b)
         end; simpl; lia.
Qed.

(** *** Under the limit on the digits of a literal *)

(** A field short enough for [int()] under the limit [max_str_digits]. *)
Definition within_limit (max_str_digits : nat) (s : str) : Prop :=
  (max_str_digits = 0 ∨ length s ≤ max_str_digits ∨ length s ≤ 640)%nat.

Lemma count_digits_field ds : Forall is_digit ds → count_digits ds = length ds.
Proof.
  unfold count_digits. induction 1 as [|c ds Hc _ IH]; [done|].
  rewrite filter_cons_True by done. simpl. by rewrite IH.
Qed.

Lemma py_int_limited_lifted s : py_int_limited 0 s = py_int s.
Proof. done. Qed.

Lemma py_int_limited_within max_str_digits ds :
  Forall is_digit ds → within_limit max_str_digits ds →
  py_int_limited max_str_digits ds = py_int ds.
Proof.
  intros Hd Hw. unfold py_int_limited. rewrite (count_digits_field ds Hd).
  destruct (Nat.ltb_spec 0 max_str_digits); [|done].
  destruct (Nat.ltb_spec max_str_digits (length ds)); [|done].
  destruct (Nat.ltb_spec 640 (length ds)); [|done].
  unfold within_limit in Hw. lia.
Qed.

Lemma py_int_limited_beyond max_str_digits ds :
  Forall is_digit ds → ¬ within_limit max_str_digits ds →
  py_int_limited max_str_digits ds = None.
Proof.
  intros Hd Hw. unfold py_int_limited. rewrite (count_digits_field ds Hd).
  destruct (Nat.ltb_spec 0 max_str_digits);
    [|exfalso; apply Hw; unfold within_limit; lia].
  destruct (Nat.ltb_spec max_str_digits (length ds));
    [|exfalso; apply Hw; unfold within_limit; lia].
  destruct (Nat.ltb_spec 640 (length ds)); [done|].
  exfalso; apply Hw; unfold within_limit; lia.
Qed.

Lemma parse_timestamp_limited_lifted s :
  TR.parse_timestamp_limited 0 s = TR.parse_timestamp s
  ∧ Main.parse_timestamp_limited 0 s = Main.parse_timestamp s.
Proof. done. Qed.

Lemma parse_timestamp_limited_fields max_str_digits hs ms ss mss :
  is_field hs → is_field ms → is_field ss → is_field mss →
  within_limit max_str_digits hs → within_limit max_str_digits ms →
  within_limit max_str_digits ss → within_limit max_str_digits mss →
  TR.parse_timestamp_limited max_str_digits (timestamp_text hs ms ss mss)
  = TR.parse_timestamp (timestamp_text hs ms ss mss)
  ∧ Main.parse_timestamp_limited max_str_digits (timestamp_text hs ms ss mss)
    = Main.parse_timestamp (timestamp_text hs ms ss mss).
Proof.
  intros Hh Hm Hs Hms Wh Wm Ws Wms.
  unfold TR.parse_timestamp_limited, TR.parse_timestamp_body_limited,
    Main.parse_timestamp_limited, Main.parse_timestamp_body_limited,
    TR.parse_timestamp, TR.parse_timestamp_body,
    Main.parse_timestamp, Main.parse_timestamp_body.
  destruct (split_timestamp_text hs ms ss mss) as [-> ->]; try done.
  destruct Hh as [Hh ?], Hm as [Hm ?], Hs as [Hs ?], Hms as [Hms ?].
  by rewrite !py_int_limited_within by done.
Qed.

Lemma parse_timestamp_limited_errors max_str_digits s time_part ms_part h m sec :
  split (lit ",") s = [time_part; ms_part] →
  split (lit ":") time_part = [h; m; sec] →
  py_int_limited max_str_digits h = None ∨ py_int_limited max_str_digits m = None
    ∨ py_int_limited max_str_digits sec = None
    ∨ py_int_limited max_str_digits ms_part = None →
  TR.parse_timestamp_limited max_str_digits s = 0
  ∧ Main.parse_timestamp_limited max_str_digits s = 0.
Proof.
  unfold TR.parse_timestamp_limited, TR.parse_timestamp_body_limited,
    Main.parse_timestamp_limited, Main.parse_timestamp_body_limited.
  intros -> -> H.
  destruct (py_int_limited max_str_digits h); [|done].
  destruct (py_int_limited max_str_digits m); [|done].
  destruct (py_int_limited max_str_digits sec); [|done].
  destruct (py_int_limited max_str_digits ms_part); [|done].
  by destruct H as [?|[?|[?|?]]].
Qed.

End TimestampFacts.

(** ** Floats *)

(** The size of the results of the floating-point operations, to tell
    where they raise nothing: a float [m * 2^e] is kept track of by a bound
    on [e] and a bound on the position of its leading bit. *)

Section FloatFacts.

Local Abbreviation fexp := (SpecFloat.fexp PyFloat.prec PyFloat.emax).
Local Abbreviation digits := SpecFloat.Zdigits2.
Local Abbreviation bra := (SpecFloat.binary_round_aux PyFloat.prec PyFloat.emax).

Lemma fexp_eq e : fexp e = Z.max (e - 53) (-1074).
Proof. reflexivity. Qed.

Lemma digits2_pos_size p : SpecFloat.digits2_pos p = Pos.size p.
Proof. induction p; simpl; congruence. Qed.

Lemma digits_nonneg m : 0 ≤ digits m.
Proof. destruct m; simpl; lia. Qed.

Lemma digits_gt m : 0 ≤ m → m < 2 ^ digits m.
Proof.
  destruct m as [|p|p]; [done| |lia]. intros _. simpl. rewrite digits2_pos_size.
  pose proof (Pos.size_gt p) as H. apply Pos2Z.pos_lt_pos in H.
  by rewrite Pos2Z.inj_pow in H.
Qed.

Lemma digits_lower m : 0 < m → 2 ^ (digits m - 1) ≤ m.
Proof.
  destruct m as [|p|p]; [lia| |lia]. intros _. simpl. rewrite digits2_pos_size.
  pose proof (Pos.size_le p) as H. apply Pos2Z.pos_le_pos in H.
  rewrite Pos2Z.inj_pow in H.
  replace (Z.pos (Pos.size p)) with (Z.succ (Z.pos (Pos.size p) - 1)) in H by lia.
  rewrite Z.pow_succ_r in H by lia. lia.
Qed.

Lemma digits_le m k : 0 ≤ m → 0 ≤ k → m < 2 ^ k → digits m ≤ k.
Proof.
  intros Hm Hk Hlt. destruct (Z.eq_dec m 0) as [->|Hne]; [done|].
  pose proof (digits_lower m ltac:(lia)) as Hl.
  pose proof (digits_nonneg m).
  destruct (Z.le_gt_cases (digits m) k) as [|Hgt]; [done|].
  assert (2 ^ k ≤ 2 ^ (digits m - 1)) by (apply Z.pow_le_mono_r; lia). lia.
Qed.

(** What a float holds once it is known to be a number of limited size. *)
Definition bounded_by (K E : Z) (x : PyFloat.float) : Prop :=
  match x with
  | SpecFloat.S754_zero _ => True
  | SpecFloat.S754_finite _ m e => e ≤ E ∧ digits (Z.pos m) + e ≤ K
  | _ => False
  end.

Lemma bounded_finite K E x : bounded_by K E x → PyFloat.finite x = Some x.
Proof. by destruct x. Qed.

Lemma shr_1_m mrs :
  0 ≤ SpecFloat.shr_m mrs → SpecFloat.shr_m (SpecFloat.shr_1 mrs) = SpecFloat.shr_m mrs / 2.
Proof.
  destruct mrs as [m r s]. cbn [SpecFloat.shr_m]. intros Hm.
  destruct m as [|[p|p|]|]; cbn [SpecFloat.shr_1 SpecFloat.shr_m]; try lia; try done.
  - apply (Z.div_unique _ _ _ 1); lia.
  - apply (Z.div_unique _ _ _ 0); lia.
Qed.

Lemma iter_shr_m p mrs :
  0 ≤ SpecFloat.shr_m mrs →
  SpecFloat.shr_m (SpecFloat.iter_pos SpecFloat.shr_1 p mrs)
  = SpecFloat.shr_m mrs / 2 ^ Z.pos p.
Proof.
  revert mrs. induction p as [p IH|p IH|]; intros mrs Hm; simpl SpecFloat.iter_pos.
  - assert (0 ≤ SpecFloat.shr_m (SpecFloat.shr_1 mrs)) as H1
      by (rewrite shr_1_m by done; apply Z.div_pos; lia).
    assert (0 ≤ SpecFloat.shr_m (SpecFloat.iter_pos SpecFloat.shr_1 p (SpecFloat.shr_1 mrs))) as H2
      by (rewrite IH by done; apply Z.div_pos; [done|apply Z.pow_pos_nonneg; lia]).
    rewrite IH, IH, shr_1_m by done.
    rewrite !Z.div_div by (try apply Z.pow_pos_nonneg; lia).
    f_equal. rewrite Pos2Z.inj_xI, <- Z.pow_add_r, <- Z.pow_succ_r by lia. f_equal. lia.
  - assert (0 ≤ SpecFloat.shr_m (SpecFloat.iter_pos SpecFloat.shr_1 p mrs)) as H2
      by (rewrite IH by done; apply Z.div_pos; [done|apply Z.pow_pos_nonneg; lia]).
    rewrite IH, IH by done.
    rewrite !Z.div_div by (try apply Z.pow_pos_nonneg; lia).
    f_equal. rewrite Pos2Z.inj_xO, <- Z.pow_add_r by lia. f_equal. lia.
  - by rewrite shr_1_m.
Qed.

Lemma shr_record_of_loc_m m l : SpecFloat.shr_m (SpecFloat.shr_record_of_loc m l) = m.
Proof. by destruct l as [|[]]. Qed.

Lemma fexp_mono a b : a ≤ b → fexp a ≤ fexp b.
Proof. rewrite !fexp_eq. lia. Qed.

Lemma shr_fexp_bound m e l K E :
  0 ≤ m → digits m + e ≤ K → -1074 ≤ K → e ≤ E → fexp K ≤ E →
  0 ≤ SpecFloat.shr_m (SpecFloat.shr_fexp PyFloat.prec PyFloat.emax m e l).1
  ∧ (SpecFloat.shr_fexp PyFloat.prec PyFloat.emax m e l).2 ≤ E
  ∧ digits (SpecFloat.shr_m (SpecFloat.shr_fexp PyFloat.prec PyFloat.emax m e l).1)
    + (SpecFloat.shr_fexp PyFloat.prec PyFloat.emax m e l).2 ≤ K.
Proof.
  intros Hm Hd HK He HE. unfold SpecFloat.shr_fexp, SpecFloat.shr.
  pose proof (fexp_mono _ _ Hd) as Hf.
  destruct (fexp (digits m + e) - e) as [|p|p] eqn:En; simpl;
    rewrite ?shr_record_of_loc_m; [by repeat split|..|by repeat split].
  rewrite iter_shr_m by (by rewrite shr_record_of_loc_m).
  rewrite shr_record_of_loc_m.
  assert (0 < 2 ^ Z.pos p) by (apply Z.pow_pos_nonneg; lia).
  assert (0 ≤ m / 2 ^ Z.pos p) by (by apply Z.div_pos).
  split; [done|]. split; [lia|].
  pose proof (digits_gt m Hm) as Hg. pose proof (digits_nonneg m) as Hn.
  destruct (Z.le_gt_cases (digits m) (Z.pos p)) as [Hle|Hgt].
  - assert (2 ^ digits m ≤ 2 ^ Z.pos p) by (apply Z.pow_le_mono_r; lia).
    rewrite Z.div_small by lia. simpl. rewrite fexp_eq in *. lia.
  - assert (digits (m / 2 ^ Z.pos p) ≤ digits m - Z.pos p); [|lia].
    apply digits_le; [done|lia|]. apply Z.div_lt_upper_bound; [done|].
    rewrite <- Z.pow_add_r by lia. by replace (Z.pos p + (digits m - Z.pos p)) with (digits m) by lia.
Qed.

Lemma round_nearest_even_bound m l :
  m ≤ SpecFloat.round_nearest_even m l ≤ m + 1.
Proof. destruct l as [|[]]; simpl; try lia. destruct (Z.even m); lia. Qed.

Lemma binary_round_aux_bound s m e l K E :
  0 ≤ m → digits m + e ≤ K → -1074 ≤ K → e ≤ E → fexp (K + 1) ≤ E → E ≤ 971 →
  bounded_by (K + 1) E (bra s m e l).
Proof.
  intros Hm Hd HK He HE HE'. unfold SpecFloat.binary_round_aux.
  assert (fexp K ≤ E) as HEK by (pose proof (fexp_mono K (K + 1)); lia).
  pose proof (shr_fexp_bound m e l K E Hm Hd HK He HEK) as (H1 & H2 & H3).
  destruct (SpecFloat.shr_fexp PyFloat.prec PyFloat.emax m e l) as [mrs' e'].
  simpl in H1, H2, H3.
  set (m2 := SpecFloat.round_nearest_even _ _).
  pose proof (round_nearest_even_bound (SpecFloat.shr_m mrs')
                (SpecFloat.loc_of_shr_record mrs')) as Hr. fold m2 in Hr.
  assert (digits m2 ≤ digits (SpecFloat.shr_m mrs') + 1) as Hd2.
  { pose proof (digits_nonneg (SpecFloat.shr_m mrs')).
    pose proof (digits_gt _ H1).
    apply digits_le; [lia|lia|]. rewrite Z.pow_add_r by lia. lia. }
  pose proof (shr_fexp_bound m2 e' SpecFloat.loc_Exact (K + 1) E) as (G1 & G2 & G3);
    [lia..|].
  destruct (SpecFloat.shr_fexp PyFloat.prec PyFloat.emax m2 e' SpecFloat.loc_Exact)
    as [mrs'' e''].
  simpl in G1, G2, G3.
  destruct (SpecFloat.shr_m mrs'') as [|q|q]; [done| |lia].
  change (PyFloat.emax - PyFloat.prec) with 971.
  destruct (Z.leb_spec e'' 971); [|lia]. by split.
Qed.

Lemma pos_iter_xO m d : Z.pos (Pos.iter xO m d) = Z.pos m * 2 ^ Z.pos d.
Proof.
  induction d as [|d IH] using Pos.peano_ind.
  - simpl. lia.
  - rewrite Pos.iter_succ, Pos2Z.inj_xO, IH, Pos2Z.inj_succ, Z.pow_succ_r by lia. lia.
Qed.

Lemma digits_mul_pow2 m k : 0 < m → 0 ≤ k → digits (m * 2 ^ k) ≤ digits m + k.
Proof.
  intros Hm Hk. pose proof (digits_gt m ltac:(lia)). pose proof (digits_nonneg m).
  assert (0 < 2 ^ k) by (apply Z.pow_pos_nonneg; lia).
  apply digits_le; [nia|lia|]. rewrite Z.pow_add_r by lia. nia.
Qed.

Lemma binary_round_bound s p e K E :
  digits (Z.pos p) + e ≤ K → -1074 ≤ K → e ≤ E → fexp (K + 1) ≤ E → E ≤ 971 →
  bounded_by (K + 1) E (SpecFloat.binary_round PyFloat.prec PyFloat.emax s p e).
Proof.
  intros Hd HK He HE HE'. unfold SpecFloat.binary_round, SpecFloat.shl_align.
  change (Z.pos (SpecFloat.digits2_pos p)) with (digits (Z.pos p)).
  destruct (fexp (digits (Z.pos p) + e) - e) as [|d|d] eqn:Ed;
    [by apply binary_round_aux_bound..|].
  apply binary_round_aux_bound; [lia| |done|lia|done..].
  rewrite pos_iter_xO.
  pose proof (digits_mul_pow2 (Z.pos p) (Z.pos d)). lia.
Qed.

Lemma of_int_bound n k :
  Z.abs n < 2 ^ k → 0 ≤ k → k ≤ 1022 →
  ∃ x, PyFloat.of_int n = Some x ∧ bounded_by (k + 1) (Z.max 0 (fexp (k + 1))) x.
Proof.
  intros Hn Hk Hk'. unfold PyFloat.of_int.
  assert (bounded_by (k + 1) (Z.max 0 (fexp (k + 1)))
            (SpecFloat.binary_normalize PyFloat.prec PyFloat.emax n 0 false)) as Hb.
  { destruct n as [|p|p]; [done|..]; simpl;
      (apply binary_round_bound; [|rewrite ?fexp_eq; lia..]);
      (assert (digits (Z.pos p) ≤ k) by (apply digits_le; lia)); simpl in *; lia. }
  eexists. split; [by eapply bounded_finite|done].
Qed.

Lemma digits_mul a b : 0 ≤ a → 0 ≤ b → digits (a * b) ≤ digits a + digits b.
Proof.
  intros Ha Hb. pose proof (digits_gt a Ha). pose proof (digits_gt b Hb).
  pose proof (digits_nonneg a). pose proof (digits_nonneg b).
  apply digits_le; [nia|lia|]. rewrite Z.pow_add_r by lia. nia.
Qed.

Lemma mul_bound x y Kx Ex Ky Ey K E :
  bounded_by Kx Ex x → bounded_by Ky Ey y →
  Kx + Ky ≤ K → -1074 ≤ K → Ex + Ey ≤ E → fexp (K + 1) ≤ E → E ≤ 971 →
  bounded_by (K + 1) E (PyFloat.mul x y).
Proof.
  intros Hx Hy HK HK' HE HE' HE''.
  destruct x as [sx|sx| |sx mx ex], y as [sy|sy| |sy my ey]; try done.
  destruct Hx as [Hx1 Hx2], Hy as [Hy1 Hy2]. unfold PyFloat.mul, SpecFloat.SFmul.
  apply binary_round_aux_bound; [lia| |done|lia|done..].
  rewrite Pos2Z.inj_mul. pose proof (digits_mul (Z.pos mx) (Z.pos my)). lia.
Qed.

Lemma to_int_bounded K E x : bounded_by K E x → is_Some (PyFloat.to_int x).
Proof. by destruct x. Qed.

Lemma truediv_bound a b k :
  a ≠ 0 → b ≠ 0 → digits (Z.abs a) - digits (Z.abs b) + 1 ≤ k → -1074 ≤ k → k ≤ 1022 →
  ∃ x, PyFloat.truediv a b = Some x ∧ bounded_by (k + 1) (Z.max 0 (fexp (k + 1))) x.
Proof.
  intros Ha Hb Hk Hk1 Hk2. unfold PyFloat.truediv.
  destruct (Z.eqb_spec b 0); [done|]. destruct (Z.eqb_spec a 0); [done|].
  unfold SpecFloat.SFdiv_core_binary.
  set (e' := Z.min (fexp (digits (Z.abs a) + 0 - (digits (Z.abs b) + 0))) (0 - 0)).
  set (m' := match 0 - 0 - e' with Z.pos _ => Z.shiftl (Z.abs a) (0 - 0 - e') | 0 => Z.abs a | Z.neg _ => 0 end).
  assert (e' ≤ 0) as He' by (unfold e'; lia).
  assert (m' = Z.abs a * 2 ^ (- e')) as Hm'.
  { unfold m'. replace (0 - 0 - e') with (- e') by lia.
    destruct (- e') as [|p|p] eqn:E; [lia| |lia].
    by rewrite Z.shiftl_mul_pow2. }
  pose proof (Z.div_eucl_eq m' (Z.abs b) ltac:(lia)) as Heq.
  pose proof (Z.mod_pos_bound m' (Z.abs b) ltac:(lia)) as Hr.
  unfold Z.modulo in Hr.
  destruct (Z.div_eucl m' (Z.abs b)) as [q r].
  assert (0 < 2 ^ (- e')) by (apply Z.pow_pos_nonneg; lia).
  assert (0 ≤ q) as Hq by nia.
  assert (digits q + e' ≤ k) as Hd.
  { destruct (Z.eq_dec q 0) as [->|Hq0].
    - simpl. unfold e'. rewrite fexp_eq. lia.
    - pose proof (digits_lower q ltac:(lia)) as Hl.
      pose proof (digits_gt (Z.abs a) ltac:(lia)) as Hg.
      pose proof (digits_lower (Z.abs b) ltac:(lia)) as Hl2.
      pose proof (digits_nonneg (Z.abs a)). pose proof (digits_nonneg (Z.abs b)).
      pose proof (digits_nonneg q).
      assert (0 < digits (Z.abs b)) by (destruct (Z.abs b) eqn:E; simpl; lia).
      assert (0 < digits q) by (destruct q; simpl; lia).
      assert (2 ^ (digits q - 1) * 2 ^ (digits (Z.abs b) - 1)
              < 2 ^ digits (Z.abs a) * 2 ^ (- e')) as Hlt by nia.
      rewrite <- !Z.pow_add_r in Hlt by lia.
      apply Z.pow_lt_mono_r_iff in Hlt; lia. }
  assert (bounded_by (k + 1) (Z.max 0 (fexp (k + 1)))
            (bra (xorb (a <? 0) (b <? 0)) q e' (SpecFloat.new_location (Z.abs b) r))) as Hbd.
  { apply binary_round_aux_bound; rewrite ?fexp_eq; lia. }
  eexists. split; [by eapply bounded_finite|done].
Qed.

Lemma imd_defined a b c :
  Z.abs a < 2 ^ 1000 → 0 ≤ b ≤ c → 0 < c → is_Some (PyFloat.imd a b c).
Proof.
  intros Ha Hb Hc. unfold PyFloat.imd.
  assert (∃ p, PyFloat.truediv b c = Some p ∧ bounded_by 2 0 p) as (p & -> & Hp).
  { destruct (Z.eq_dec b 0) as [->|Hb0].
    - unfold PyFloat.truediv. destruct (Z.eqb_spec c 0); [lia|]. by eexists.
    - destruct (truediv_bound b c 1) as (p & Hp & Hbd); [lia..| |lia|lia|by exists p].
      assert (digits (Z.abs b) ≤ digits (Z.abs c)); [|lia].
      pose proof (digits_gt (Z.abs c) ltac:(lia)). pose proof (digits_nonneg (Z.abs c)).
      apply digits_le; lia. }
  destruct (of_int_bound a 1000) as (x & -> & Hx); [lia..|].
  cbn [mbind option_bind].
  apply (to_int_bounded (1003 + 1) 951),
    (mul_bound x p (1000 + 1) (Z.max 0 (fexp (1000 + 1))) 2 0 1003 951);
    rewrite ?fexp_eq; try done; lia.
Qed.

Lemma truediv_defined a b :
  Z.abs a < 2 ^ 1000 → b ≠ 0 → is_Some (PyFloat.truediv a b).
Proof.
  intros Ha Hb. destruct (Z.eq_dec a 0) as [->|Ha0].
  - unfold PyFloat.truediv. by destruct (Z.eqb_spec b 0).
  - destruct (truediv_bound a b 1001) as (p & -> & _); [done|done| |lia|lia|done].
    assert (digits (Z.abs a) ≤ 1000) by (apply digits_le; lia).
    pose proof (digits_nonneg (Z.abs b)). lia.
Qed.


(** *** Exact results *)

Lemma digits_unique m d : 2 ^ (d - 1) ≤ m < 2 ^ d → 0 < d → digits m = d.
Proof.
  intros [Hl Hu] Hd.
  assert (0 < m) as Hm by (pose proof (Z.pow_pos_nonneg 2 (d - 1)); lia).
  pose proof (digits_lower m Hm) as Hl'.
  pose proof (digits_gt m ltac:(lia)) as Hu'.
  pose proof (digits_nonneg m).
  assert (0 < digits m) by (destruct m; simpl; lia).
  assert (digits m - 1 < d).
  { apply (Z.pow_lt_mono_r_iff 2); lia. }
  assert (d - 1 < digits m).
  { apply (Z.pow_lt_mono_r_iff 2); lia. }
  lia.
Qed.

Lemma digits_shift m k : 0 < m → 0 ≤ k → digits (m * 2 ^ k) = digits m + k.
Proof.
  intros Hm Hk.
  pose proof (digits_lower m Hm) as Hl.
  pose proof (digits_gt m ltac:(lia)) as Hu.
  assert (0 < digits m) by (destruct m; simpl; lia).
  assert (0 < 2 ^ k) by (apply Z.pow_pos_nonneg; lia).
  apply digits_unique; [|lia].
  replace (digits m + k - 1) with (digits m - 1 + k) by lia.
  rewrite !Z.pow_add_r by lia. nia.
Qed.

Lemma pow2_xO p : 2 ^ Z.pos p~0 = 2 ^ Z.pos p * 2 ^ Z.pos p.
Proof. rewrite <- Z.pow_add_r by lia. f_equal. lia. Qed.

Lemma pow2_xI p : 2 ^ Z.pos p~1 = 2 ^ Z.pos p * 2 ^ Z.pos p * 2.
Proof.
  replace (2 ^ Z.pos p * 2 ^ Z.pos p * 2) with (2 ^ Z.succ (Z.pos p + Z.pos p)).
  - f_equal. lia.
  - rewrite Z.pow_succ_r, Z.pow_add_r by lia. lia.
Qed.

Lemma iter_shr_exact p k :
  0 ≤ k →
  SpecFloat.iter_pos SpecFloat.shr_1 p (SpecFloat.Build_shr_record (k * 2 ^ Z.pos p) false false)
  = SpecFloat.Build_shr_record k false false.
Proof.
  intros Hk.
  assert (∀ j, 0 ≤ j → SpecFloat.shr_1 (SpecFloat.Build_shr_record (j * 2) false false)
                     = SpecFloat.Build_shr_record j false false) as H1.
  { intros j Hj. destruct j as [|q|q]; [done| |lia].
    by replace (Z.pos q * 2) with (Z.pos q~0) by lia. }
  revert k Hk. induction p as [p IH|p IH|]; intros k Hk; cbn [SpecFloat.iter_pos].
  - replace (k * 2 ^ Z.pos p~1) with ((k * 2 ^ Z.pos p * 2 ^ Z.pos p) * 2).
    2:{ rewrite pow2_xI. lia. }
    assert (0 < 2 ^ Z.pos p) by (apply Z.pow_pos_nonneg; lia).
    rewrite H1 by nia. rewrite IH by nia. by apply IH.
  - replace (k * 2 ^ Z.pos p~0) with (k * 2 ^ Z.pos p * 2 ^ Z.pos p).
    2:{ rewrite pow2_xO. lia. }
    assert (0 < 2 ^ Z.pos p) by (apply Z.pow_pos_nonneg; lia).
    rewrite IH by nia. by apply IH.
  - replace (k * 2 ^ 1) with (k * 2) by lia. by apply H1.
Qed.

(** A mantissa of 53 bits is left as it is. *)
Lemma binary_round_aux_canonical s m e :
  digits (Z.pos m) = 53 → -1074 ≤ e ≤ 971 →
  bra s (Z.pos m) e SpecFloat.loc_Exact = SpecFloat.S754_finite s m e.
Proof.
  intros Hd He. unfold SpecFloat.binary_round_aux, SpecFloat.shr_fexp.
  rewrite Hd. replace (fexp (53 + e) - e) with 0 by (rewrite fexp_eq; lia).
  cbn [SpecFloat.shr SpecFloat.shr_record_of_loc SpecFloat.shr_m
       SpecFloat.loc_of_shr_record SpecFloat.round_nearest_even].
  rewrite Hd. replace (fexp (53 + e) - e) with 0 by (rewrite fexp_eq; lia).
  cbn [SpecFloat.shr SpecFloat.shr_record_of_loc SpecFloat.shr_m].
  change (PyFloat.emax - PyFloat.prec) with 971.
  by destruct (Z.leb_spec e 971); [|lia].
Qed.

(** A mantissa with [n] zero bits below 53 bits loses them. *)
Lemma binary_round_aux_exact s k n e :
  0 < k → digits k = 53 → 0 < n → -1074 ≤ e + n ≤ 971 →
  bra s (k * 2 ^ n) e SpecFloat.loc_Exact = SpecFloat.S754_finite s (Z.to_pos k) (e + n).
Proof.
  intros Hk Hd Hn He. unfold SpecFloat.binary_round_aux, SpecFloat.shr_fexp.
  rewrite digits_shift, Hd by lia.
  replace (fexp (53 + n + e) - e) with n by (rewrite fexp_eq; lia).
  destruct n as [|p|p]; [lia| |lia].
  cbn [SpecFloat.shr SpecFloat.shr_record_of_loc].
  rewrite iter_shr_exact by lia.
  cbn [SpecFloat.shr_m SpecFloat.loc_of_shr_record SpecFloat.round_nearest_even].
  rewrite Hd. replace (fexp (53 + (e + Z.pos p)) - (e + Z.pos p)) with 0
    by (rewrite fexp_eq; lia).
  cbn [SpecFloat.shr SpecFloat.shr_record_of_loc SpecFloat.shr_m].
  destruct k as [|q|q]; [lia| |lia].
  change (PyFloat.emax - PyFloat.prec) with 971.
  by destruct (Z.leb_spec (e + Z.pos p) 971); [|lia].
Qed.


Lemma digits_pos m : 0 < m → 0 < digits m.
Proof. destruct m; simpl; lia. Qed.

Lemma binary_round_exact s p e :
  digits (Z.pos p) ≤ 53 → -1021 ≤ e + digits (Z.pos p) → e + digits (Z.pos p) ≤ 1024 →
  SpecFloat.binary_round PyFloat.prec PyFloat.emax s p e
  = SpecFloat.S754_finite s (Z.to_pos (Z.pos p * 2 ^ (53 - digits (Z.pos p))))
      (e + digits (Z.pos p) - 53).
Proof.
  intros Hd He He'. pose proof (digits_pos (Z.pos p) ltac:(lia)) as Hp.
  unfold SpecFloat.binary_round, SpecFloat.shl_align.
  change (Z.pos (SpecFloat.digits2_pos p)) with (digits (Z.pos p)).
  replace (fexp (digits (Z.pos p) + e)) with (e + digits (Z.pos p) - 53)
    by (rewrite fexp_eq; lia).
  destruct (e + digits (Z.pos p) - 53 - e) as [|q|q] eqn:E; [|lia|].
  - replace (53 - digits (Z.pos p)) with 0 by lia.
    replace (e + digits (Z.pos p) - 53) with e by lia.
    rewrite Z.mul_1_r. cbn [Z.to_pos].
    apply binary_round_aux_canonical; lia.
  - replace (53 - digits (Z.pos p)) with (Z.pos q) by lia.
    rewrite <- pos_iter_xO. cbn [Z.to_pos].
    apply binary_round_aux_canonical; [|lia].
    rewrite pos_iter_xO, digits_shift; lia.
Qed.

Lemma of_int_exact z :
  z ≠ 0 → Z.abs z < 2 ^ 53 →
  PyFloat.of_int z
  = Some (SpecFloat.S754_finite (z <? 0)
            (Z.to_pos (Z.abs z * 2 ^ (53 - digits (Z.abs z))))
            (digits (Z.abs z) - 53)).
Proof.
  intros Hz Hlt. unfold PyFloat.of_int.
  assert (digits (Z.abs z) ≤ 53) as Hd by (apply digits_le; lia).
  pose proof (digits_pos (Z.abs z) ltac:(lia)) as Hp.
  destruct z as [|p|p]; [done|..];
    [change (Z.abs (Z.pos p)) with (Z.pos p) in *
    |change (Z.abs (Z.neg p)) with (Z.pos p) in *];
    cbn [SpecFloat.binary_normalize];
    rewrite binary_round_exact by lia; cbn [PyFloat.finite]; do 2 f_equal; lia.
Qed.

Lemma add_half_exact z :
  - 2 ^ 52 ≤ z < 2 ^ 52 →
  ∃ y, PyFloat.add_half z = Some y ∧ PyFloat.is_ratio y (2 * z + 1) 2.
Proof.
  intros Hz. unfold PyFloat.add_half.
  destruct (Z.eq_dec z 0) as [->|Hz0]; [by eexists|].
  rewrite of_int_exact by lia. cbn [mbind option_bind].
  eexists. split; [done|].
  set (d := digits (Z.abs z)).
  assert (d ≤ 53) as Hd by (apply digits_le; lia).
  pose proof (digits_pos (Z.abs z) ltac:(lia)) as Hp. fold d in Hp.
  assert (0 < 2 ^ (53 - d)) as Hpow by (apply Z.pow_pos_nonneg; lia).
  unfold PyFloat.add, PyFloat.half, SpecFloat.SFadd.
  replace (Z.min (d - 53) (-53)) with (-53) by lia.
  unfold SpecFloat.shl_align at 2.
  replace (-53 - -53) with 0 by lia. cbn [fst].
  unfold SpecFloat.shl_align.
  destruct (-53 - (d - 53)) as [|q|q] eqn:Eq; [lia|lia|].
  cbn [fst]. rewrite pos_iter_xO, Z2Pos.id by nia.
  replace (Z.pos q) with d by lia.
  replace (Z.abs z * 2 ^ (53 - d) * 2 ^ d) with (Z.abs z * 2 ^ 53)
    by (rewrite <- Z.mul_assoc, <- Z.pow_add_r by lia; do 2 f_equal; lia).
  set (sum := SpecFloat.cond_Zopp (z <? 0) (Z.abs z * 2 ^ 53)
              + SpecFloat.cond_Zopp false (Z.pos (2 ^ 52))).
  assert (sum = (2 * z + 1) * 2 ^ 52) as Hsum.
  { unfold sum, SpecFloat.cond_Zopp.
    change (Z.pos (2 ^ 52)) with (2 ^ 52). change (2 ^ 53) with (2 * 2 ^ 52).
    destruct (Z.ltb_spec z 0); lia. }
  set (D := digits (Z.abs (2 * z + 1))).
  assert (D ≤ 53) as HD by (apply digits_le; lia).
  pose proof (digits_pos (Z.abs (2 * z + 1)) ltac:(lia)) as HDp. fold D in HDp.
  assert (0 < 2 ^ (53 - D)) as HpowD by (apply Z.pow_pos_nonneg; lia).
  assert (∀ s p, Z.pos p = Z.abs (2 * z + 1) * 2 ^ 52 →
            PyFloat.is_ratio
              (SpecFloat.binary_round PyFloat.prec PyFloat.emax s p (-53))
              (SpecFloat.cond_Zopp s (Z.abs (2 * z + 1))) 2) as Hround.
  { intros s p Hp'.
    assert (digits (Z.pos p) = D + 52) as Hdp
      by (rewrite Hp'; apply digits_shift; lia).
    unfold SpecFloat.binary_round, SpecFloat.shl_align.
    change (Z.pos (SpecFloat.digits2_pos p)) with (digits (Z.pos p)).
    rewrite Hdp. replace (fexp (D + 52 + -53)) with (D - 54) by (rewrite fexp_eq; lia).
    assert (Z.pos p = (Z.abs (2 * z + 1) * 2 ^ (53 - D)) * 2 ^ (D - 1)) as Hk.
    { rewrite Hp', <- Z.mul_assoc, <- Z.pow_add_r by lia. do 2 f_equal. lia. }
    assert (digits (Z.abs (2 * z + 1) * 2 ^ (53 - D)) = 53) as Hdk
      by (rewrite digits_shift by lia; fold D; lia).
    destruct (D - 54 - -53) as [|n|n] eqn:En; [| |lia].
    + rewrite binary_round_aux_canonical by lia.
      unfold PyFloat.is_ratio. rewrite Hp'. replace D with 1 in * by lia.
      unfold SpecFloat.cond_Zopp. destruct s; vm_compute Z.max; lia.
    + rewrite Hk. replace (D - 1) with (Z.pos n) by lia.
      rewrite binary_round_aux_exact; [|nia|done|lia|lia].
      unfold PyFloat.is_ratio. rewrite Z2Pos.id by nia.
      replace (Z.max (-53 + Z.pos n) 0) with 0 by lia.
      replace (Z.max (- (-53 + Z.pos n)) 0) with (54 - D) by lia.
      replace (54 - D) with (Z.succ (53 - D)) by lia.
      rewrite Z.pow_succ_r by lia.
      unfold SpecFloat.cond_Zopp. destruct s; lia. }
  unfold SpecFloat.binary_normalize.
  destruct sum as [|p|p] eqn:Es; [lia|..].
  - replace (2 * z + 1) with (SpecFloat.cond_Zopp false (Z.abs (2 * z + 1)))
      by (unfold SpecFloat.cond_Zopp; lia).
    apply Hround. lia.
  - replace (2 * z + 1) with (SpecFloat.cond_Zopp true (Z.abs (2 * z + 1)))
      by (unfold SpecFloat.cond_Zopp; lia).
    apply Hround. lia.
Qed.

End FloatFacts.

(** ** Lists read pairwise *)

(** [all_adjacent R l]: every two neighbours of [l] are related by [R]. *)
Definition all_adjacent {A} (R : A → A → Prop) (l : list A) : Prop :=
  ∀ i x y, l !! i = Some x → l !! S i = Some y → R x y.

Section Adjacent.
Context {A : Type} (R : A → A → Prop).

Lemma all_adjacent_nil : all_adjacent R [].
Proof. intros i x y H. by rewrite lookup_nil in H. Qed.

Lemma all_adjacent_singleton a : all_adjacent R [a].
Proof. intros [|i] x y _ H; by rewrite ?lookup_nil in H. Qed.

Lemma all_adjacent_cons a l :
  all_adjacent R (a :: l) ↔ (∀ b, head l = Some b → R a b) ∧ all_adjacent R l.
Proof.
  split.
  - intros H. split.
    + intros b Hb. apply (H 0%nat a b); [done|]. by destruct l; simplify_eq/=.
    + intros i x y Hx Hy. by apply (H (S i) x y).
  - intros [Hh Ht] [|i] x y Hx Hy; simplify_eq/=.
    + apply Hh. by destruct l; simplify_eq/=.
    + by apply (Ht i).
Qed.

Lemma all_adjacent_snoc l a :
  all_adjacent R (l ++ [a]) ↔ all_adjacent R l ∧ (∀ b, last l = Some b → R b a).
Proof.
  induction l as [|c l IH]; simpl.
  - split; [intros _|intros _; apply all_adjacent_singleton].
    split; [apply all_adjacent_nil|done].
  - rewrite !all_adjacent_cons, IH. destruct l as [|d l]; simpl.
    + split.
      * intros [H _]. split; [split; [done|apply all_adjacent_nil]|].
        intros b [= <-]. by apply H.
      * intros [_ H]. split; [intros b [= <-]; by apply H|].
        split; [apply all_adjacent_nil|done].
    + tauto.
Qed.

End Adjacent.

(** ** The continuity grouper *)

Section Grouping.
Variable max_gap_ms : Z.

(** Two neighbours of one group: the gap is at most the threshold. *)
Definition continues (a b : Segment) : Prop := start_ms b - end_ms a ≤ max_gap_ms.

(** Two neighbouring groups: the gap from the last segment of the first to
    the first segment of the second exceeds the threshold. *)
Definition breaks (g1 g2 : list Segment) : Prop :=
  ∃ a b, last g1 = Some a ∧ head g2 = Some b ∧ max_gap_ms < start_ms b - end_ms a.

Lemma group_loop_concat groups current_group prev rest :
  concat (group_loop max_gap_ms groups current_group prev rest)
  = concat groups ++ current_group ++ rest.
Proof.
  revert groups current_group prev.
  induction rest as [|curr rest IH]; intros groups cur prev; simpl.
  - destruct cur; [by rewrite app_nil_r|].
    by rewrite concat_app, app_nil_r; simpl; rewrite app_nil_r.
  - destruct (_ <=? _); rewrite IH.
    + by rewrite <- !app_assoc.
    + rewrite concat_app. simpl. by rewrite app_nil_r, <- !app_assoc.
Qed.

Lemma group_loop_nonempty groups current_group prev rest :
  Forall (λ g, g ≠ []) groups → current_group ≠ [] →
  Forall (λ g, g ≠ []) (group_loop max_gap_ms groups current_group prev rest).
Proof.
  revert groups current_group prev.
  induction rest as [|curr rest IH]; intros groups cur prev Hg Hc; simpl.
  - destruct cur; [done|]. apply Forall_app; split; [done|]. by constructor.
  - destruct (_ <=? _); apply IH; try done.
    + by destruct cur.
    + apply Forall_app; split; [done|]. by constructor.
Qed.

Lemma group_loop_runs groups current_group prev rest :
  Forall (all_adjacent continues) groups →
  all_adjacent continues current_group →
  last current_group = Some prev →
  all_adjacent breaks (groups ++ [current_group]) →
  Forall (all_adjacent continues) (group_loop max_gap_ms groups current_group prev rest)
  ∧ all_adjacent breaks (group_loop max_gap_ms groups current_group prev rest).
Proof.
  revert groups current_group prev.
  induction rest as [|curr rest IH]; intros groups cur prev Hg Hc Hl Hb; simpl.
  - destruct cur as [|c cur]; [done|]. split; [|done].
    apply Forall_app; split; [done|]. by constructor.
  - destruct (Z.leb_spec (start_ms curr - end_ms prev) max_gap_ms) as [Hle|Hgt].
    + apply IH.
      * done.
      * apply all_adjacent_snoc; split; [done|].
        intros b Hb'. rewrite Hl in Hb'. by simplify_eq.
      * by rewrite last_snoc.
      * apply all_adjacent_snoc in Hb as [Hb1 Hb2].
        apply all_adjacent_snoc; split; [done|].
        intros g Hg'. destruct (Hb2 g Hg') as (a & b & Ha & Hhd & Hlt).
        exists a, b. split; [done|]. split; [|done].
        destruct cur; by simplify_eq/=.
    + apply IH.
      * apply Forall_app; split; [done|]. by constructor.
      * apply all_adjacent_singleton.
      * done.
      * apply all_adjacent_snoc; split; [done|].
        intros g Hg'. rewrite last_snoc in Hg'. simplify_eq.
        exists prev, curr. split; [done|]. split; [done|]. lia.
Qed.

End Grouping.

(** C10. The groups returned by [group_continuous_subtitles] (and by the
    grouping loop of [group_continuous_subtitles_for_timing], run on the
    segments it parsed) form a partition of the input: no group is empty,
    the groups put end to end in order are exactly the input list, and the
    empty input yields no group. *)
Theorem group_continuous_subtitles_partition :
  ∀ (segments : list Segment) (max_gap_ms : Z),
    Forall (λ g, g ≠ []) (TR.group_continuous_subtitles segments max_gap_ms)
    ∧ concat (TR.group_continuous_subtitles segments max_gap_ms) = segments
    ∧ TR.group_continuous_subtitles [] max_gap_ms = []
    ∧ ∀ srt_content,
        Forall (λ g, g ≠ [])
          (Main.group_continuous_subtitles_for_timing srt_content max_gap_ms)
        ∧ concat (Main.group_continuous_subtitles_for_timing srt_content max_gap_ms)
          = parse_blocks Main.parse_timestamp srt_content.
Proof.
  assert (Hpart : ∀ (l : list Segment) mg,
    Forall (λ g, g ≠ []) (group_segments l mg) ∧ concat (group_segments l mg) = l).
  { intros [|s0 rest] mg; simpl; [by split|]. split.
    - by apply group_loop_nonempty.
    - by rewrite group_loop_concat. }
  intros segments mg. unfold TR.group_continuous_subtitles,
    Main.group_continuous_subtitles_for_timing.
  split; [apply Hpart|]. split; [apply Hpart|]. split; [done|].
  intros srt. apply Hpart.
Qed.


(** ** The timing redistributor *)

(** Two neighbours do not overlap. *)
Definition no_overlap (prev next : Segment) : Prop := end_ms prev ≤ start_ms next.

Definition total_words_of (group : list Segment) : Z :=
  sum_Z (map (λ seg, count_words_in_text (text seg)) group).

Lemma head_lookup_0 {A} (l : list A) : head l = l !! 0%nat.
Proof. by destruct l. Qed.

Lemma last_lookup_pred {A} (l : list A) : last l = l !! (length l - 1)%nat.
Proof. rewrite last_lookup. f_equal. lia. Qed.

Lemma foldl_invariant {A B} (P : A → Prop) (f : A → B → A) (l : list B) (a : A) :
  P a → (∀ a b, P a → P (f a b)) → P (foldl f a l).
Proof. revert a. induction l; simpl; auto. Qed.

Section SetLastEnd.
Variable v : Z.

Lemma set_last_end_start (l : list Segment) i :
  start_ms <$> head (alter (λ s, with_end s v) i l) = start_ms <$> head l.
Proof.
  rewrite !head_lookup_0, list_lookup_alter.
  destruct (decide (i = 0%nat)) as [->|]; [|done]. by destruct (l !! 0%nat).
Qed.

Lemma set_last_end_end (l : list Segment) :
  l ≠ [] →
  end_ms <$> last (alter (λ s, with_end s v) (length l - 1)%nat l) = Some v.
Proof.
  intros Hl. rewrite last_lookup_pred, length_alter, list_lookup_alter_eq.
  destruct (l !! (length l - 1)%nat) eqn:E; [done|].
  apply lookup_ge_None in E. destruct l; simpl in *; [done|lia].
Qed.

Lemma set_last_end_adjacent (l : list Segment) :
  all_adjacent no_overlap l →
  all_adjacent no_overlap (alter (λ s, with_end s v) (length l - 1)%nat l).
Proof.
  intros H i x y Hx Hy.
  assert (S i < length l)%nat as Hlt.
  { apply lookup_lt_Some in Hy. by rewrite length_alter in Hy. }
  rewrite list_lookup_alter_ne in Hx by lia.
  rewrite list_lookup_alter in Hy.
  destruct (decide ((length l - 1)%nat = S i)) as [E1|].
  - rewrite E1 in Hy. destruct (l !! S i) as [y0|] eqn:E; simplify_eq/=.
    unfold no_overlap. simpl. by apply (H i x y0).
  - by apply (H i x y).
Qed.

End SetLastEnd.

(** *** [timing_redistributor.py] *)

Section TRLoop.
Variable imd : Z → Z → Z → Z.
Variables (n : nat) (total_words total_duration_ms group_end_ms min_duration_ms : Z).

Local Abbreviation loop :=
  (TR.redistribute_loop imd n total_words total_duration_ms group_end_ms min_duration_ms).

Lemma tr_loop_length i cur segs : length (loop i cur segs) = length segs.
Proof. revert i cur. induction segs; intros; simpl; [done|]. by rewrite IHsegs. Qed.

Lemma tr_loop_head i cur segs h :
  head (loop i cur segs) = Some h → start_ms h = cur.
Proof. destruct segs; simpl; [done|]. by intros [= <-]. Qed.

Lemma tr_loop_adjacent i cur segs : all_adjacent no_overlap (loop i cur segs).
Proof.
  revert i cur. induction segs as [|s segs IH]; intros i cur; simpl.
  - apply all_adjacent_nil.
  - apply all_adjacent_cons; split; [|apply IH].
    intros b Hb. apply tr_loop_head in Hb. unfold no_overlap. simpl. lia.
Qed.

End TRLoop.

(** *** [main.py] *)

Section MainLoop.
Variable imd : Z → Z → Z → Z.
Variables (n : nat) (total_words content_duration_ms group_end_ms : Z).
Variables (min_duration_ms gap_ms : Z).

Local Abbreviation loop :=
  (Main.redistribute_loop imd n total_words content_duration_ms group_end_ms
     min_duration_ms gap_ms).
Local Abbreviation fix_at := (Main.fix_overlap_at min_duration_ms gap_ms).

Lemma main_loop_length i cur segs : length (loop i cur segs) = length segs.
Proof. revert i cur. induction segs; intros; simpl; [done|]. by rewrite IHsegs. Qed.

Lemma main_loop_head i cur segs h :
  head (loop i cur segs) = Some h → start_ms h = cur.
Proof. destruct segs; simpl; [done|]. by intros [= <-]. Qed.

(** What one iteration of the verification loop changes: at most the end
    of entry [i] and the start of entry [i + 1], and afterwards these two
    entries do not overlap when the gap is not negative. *)
Lemma fix_overlap_at_spec (l : list Segment) (i : nat) :
  length (fix_at l i) = length l
  ∧ (∀ j, j ≠ i → j ≠ S i → fix_at l i !! j = l !! j)
  ∧ start_ms <$> fix_at l i !! i = start_ms <$> l !! i
  ∧ end_ms <$> fix_at l i !! S i = end_ms <$> l !! S i
  ∧ (l !! S i = None → fix_at l i = l)
  ∧ (0 ≤ gap_ms → ∀ a b, fix_at l i !! i = Some a → fix_at l i !! S i = Some b →
       no_overlap a b).
Proof.
  unfold Main.fix_overlap_at.
  destruct (l !! i) as [c|] eqn:Ec;
    [|repeat split; try done; intros; congruence].
  destruct (l !! S i) as [x|] eqn:Ex;
    [|repeat split; try done; intros; congruence].
  pose proof (lookup_lt_Some _ _ _ Ec) as Hi.
  pose proof (lookup_lt_Some _ _ _ Ex) as HSi.
  repeat case_match; repeat split; intros;
    rewrite ?length_insert in *;
    repeat first
      [ rewrite list_lookup_insert_ne by lia
      | rewrite list_lookup_insert_eq by (rewrite ?length_insert; lia)
      | rewrite list_lookup_insert_ne in * by lia
      | rewrite list_lookup_insert_eq in * by (rewrite ?length_insert; lia) ];
    simplify_eq/=; try done; try (rewrite ?Ec, ?Ex; done);
    unfold no_overlap; simpl in *; lia.
Qed.

Lemma verify_no_overlaps_length l :
  length (Main.verify_no_overlaps min_duration_ms gap_ms l) = length l.
Proof.
  unfold Main.verify_no_overlaps.
  apply (foldl_invariant (λ l', length l' = length l)); [done|].
  intros a b <-. apply fix_overlap_at_spec.
Qed.

Lemma verify_no_overlaps_start l :
  start_ms <$> head (Main.verify_no_overlaps min_duration_ms gap_ms l)
  = start_ms <$> head l.
Proof.
  unfold Main.verify_no_overlaps.
  apply (foldl_invariant (λ l', start_ms <$> head l' = start_ms <$> head l)); [done|].
  intros a b <-. rewrite !head_lookup_0.
  destruct (fix_overlap_at_spec a b) as (_ & Hne & Hst & _).
  destruct b; [done|]. by rewrite Hne.
Qed.

Lemma verify_no_overlaps_end l :
  end_ms <$> last (Main.verify_no_overlaps min_duration_ms gap_ms l)
  = end_ms <$> last l.
Proof.
  unfold Main.verify_no_overlaps.
  apply (foldl_invariant (λ l', end_ms <$> last l' = end_ms <$> last l)); [done|].
  intros a b <-. rewrite !last_lookup_pred.
  destruct (fix_overlap_at_spec a b) as (Hlen & Hne & _ & Hend & Hid & _).
  rewrite Hlen.
  destruct (decide ((length a - 1)%nat = S b)) as [->|]; [done|].
  destruct (decide ((length a - 1)%nat = b)) as [E|]; [|by rewrite Hne].
  rewrite Hid; [done|]. apply lookup_ge_None. lia.
Qed.

Lemma verify_no_overlaps_adjacent l :
  0 ≤ gap_ms →
  all_adjacent no_overlap (Main.verify_no_overlaps min_duration_ms gap_ms l).
Proof.
  intros Hgap. unfold Main.verify_no_overlaps.
  assert (∀ k, let l' := foldl fix_at l (seq 0 k) in
               length l' = length l ∧
               ∀ j a b, (j < k)%nat → l' !! j = Some a → l' !! S j = Some b →
                        no_overlap a b) as H.
  { induction k as [|k [IHlen IH]].
    - simpl. split; [done|]. intros; lia.
    - rewrite seq_S, foldl_app. simpl.
      destruct (fix_overlap_at_spec (foldl fix_at l (seq 0 k)) k)
        as (Hlen & Hne & Hst & Hend & Hid & Hok).
      split; [congruence|]. intros j a b Hj Ha Hb.
      destruct (decide (j = k)) as [->|Hjk]; [by apply (Hok Hgap)|].
      rewrite Hne in Ha by lia.
      destruct (decide (S j = k)) as [E|].
      + rewrite E in Hb.
        destruct (foldl fix_at l (seq 0 k) !! k) as [b0|] eqn:Eb.
        * rewrite Hb in Hst. simpl in Hst.
          assert (no_overlap a b0) as Hab by (apply (IH j); [lia|done|by rewrite E]).
          unfold no_overlap in *. simplify_eq/=. lia.
        * rewrite Hb in Hst. done.
      + rewrite Hne in Hb by lia. apply (IH j); [lia|done..]. }
  destruct (H (length l - 1)%nat) as [Hlen Hall].
  intros j a b Ha Hb. apply (Hall j); [|done..].
  apply lookup_lt_Some in Hb. lia.
Qed.

End MainLoop.

(** *** The loops on floats *)

(** Whatever the functions on floats return is what the functions above
    return when [imd] is the floating-point computation, so that every
    statement made for all values of [imd] holds of the lists they return;
    and they return when the floating-point computation raises nothing. *)
Section FloatLoops.

Lemma imd_value_eq a b c r : PyFloat.imd a b c = Some r → PyFloat.imd_value a b c = r.
Proof. unfold PyFloat.imd_value. by intros ->. Qed.

Lemma tr_float_loop n tw d ge mind i cur segs out :
  TRFloat.redistribute_loop n tw d ge mind i cur segs = Some out →
  out = TR.redistribute_loop PyFloat.imd_value n tw d ge mind i cur segs.
Proof.
  revert i cur out. induction segs as [|s segs IH]; intros i cur out;
    cbn [TRFloat.redistribute_loop TR.redistribute_loop]; [by intros [= <-]|].
  case_bool_decide; cbn [mbind option_bind].
  - destruct (TRFloat.redistribute_loop _ _ _ _ _ _ _ _) as [l|] eqn:E; [|done].
    intros [= <-]. f_equal. by apply IH.
  - destruct (PyFloat.imd d (TR.word_count s) tw) as [r|] eqn:Er; [|done].
    cbn [mbind option_bind]. rewrite (imd_value_eq _ _ _ _ Er).
    destruct (TRFloat.redistribute_loop _ _ _ _ _ _ _ _) as [l|] eqn:E; [|done].
    intros [= <-]. f_equal. by apply IH.
Qed.

Lemma tr_float_loop_defined n tw d ge mind i cur segs :
  (∀ s, s ∈ segs → is_Some (PyFloat.imd d (TR.word_count s) tw)) →
  is_Some (TRFloat.redistribute_loop n tw d ge mind i cur segs).
Proof.
  revert i cur. induction segs as [|s segs IH]; intros i cur Hs;
    cbn [TRFloat.redistribute_loop]; [done|].
  assert (∀ i cur, is_Some (TRFloat.redistribute_loop n tw d ge mind i cur segs)) as Hr.
  { intros i' cur'. apply IH. intros s' Hs'. apply Hs. by right. }
  destruct (Hs s ltac:(by left)) as [r Er].
  case_bool_decide; cbn [mbind option_bind].
  - destruct (Hr (S i) ge) as [l ->]. done.
  - rewrite Er. cbn [mbind option_bind].
    match goal with |- context [TRFloat.redistribute_loop _ _ _ _ _ _ ?c _] =>
      destruct (Hr (S i) c) as [l ->] end.
    done.
Qed.

Lemma tr_float_value group mind out :
  TRFloat.redistribute_timing_in_group group mind = Some out →
  out = TR.redistribute_timing_in_group PyFloat.imd_value group mind.
Proof.
  unfold TRFloat.redistribute_timing_in_group, TR.redistribute_timing_in_group.
  destruct (length group <=? 1)%nat; [by intros [= <-]|].
  destruct (_ =? 0); [by intros [= <-]|].
  destruct (head group) as [first|]; [|by intros [= <-]].
  destruct (last group) as [final|]; [|by intros [= <-]].
  destruct (_ <=? 0); [by intros [= <-]|].
  cbv zeta.
  destruct (TRFloat.redistribute_loop _ _ _ _ _ _ _ _) as [l|] eqn:E;
    cbn [mbind option_bind]; [|done].
  intros [= <-]. by rewrite (tr_float_loop _ _ _ _ _ _ _ _ _ E).
Qed.

Lemma main_float_loop n tw d ge mind gap i cur segs out :
  MainFloat.redistribute_loop n tw d ge mind gap i cur segs = Some out →
  out = Main.redistribute_loop PyFloat.imd_value n tw d ge mind gap i cur segs.
Proof.
  revert i cur out. induction segs as [|s segs IH]; intros i cur out;
    cbn [MainFloat.redistribute_loop Main.redistribute_loop]; [by intros [= <-]|].
  case_bool_decide; cbn [mbind option_bind].
  - destruct (MainFloat.redistribute_loop _ _ _ _ _ _ _ _ _) as [l|] eqn:E; [|done].
    intros [= <-]. f_equal. by apply IH.
  - destruct (PyFloat.imd d (count_words_in_text (text s)) tw) as [r|] eqn:Er; [|done].
    cbn [mbind option_bind]. rewrite (imd_value_eq _ _ _ _ Er).
    destruct (MainFloat.redistribute_loop _ _ _ _ _ _ _ _ _) as [l|] eqn:E; [|done].
    intros [= <-]. f_equal. by apply IH.
Qed.

Lemma main_float_loop_defined n tw d ge mind gap i cur segs :
  (∀ s, s ∈ segs → is_Some (PyFloat.imd d (count_words_in_text (text s)) tw)) →
  is_Some (MainFloat.redistribute_loop n tw d ge mind gap i cur segs).
Proof.
  revert i cur. induction segs as [|s segs IH]; intros i cur Hs;
    cbn [MainFloat.redistribute_loop]; [done|].
  assert (∀ i cur, is_Some (MainFloat.redistribute_loop n tw d ge mind gap i cur segs))
    as Hr.
  { intros i' cur'. apply IH. intros s' Hs'. apply Hs. by right. }
  destruct (Hs s ltac:(by left)) as [r Er].
  case_bool_decide; cbn [mbind option_bind].
  - match goal with |- context [MainFloat.redistribute_loop _ _ _ _ _ _ _ ?c _] =>
      destruct (Hr (S i) c) as [l ->] end.
    done.
  - rewrite Er. cbn [mbind option_bind].
    match goal with |- context [MainFloat.redistribute_loop _ _ _ _ _ _ _ ?c _] =>
      destruct (Hr (S i) c) as [l ->] end.
    done.
Qed.

Lemma main_float_value group mind gap out :
  MainFloat.redistribute_timing_in_group group mind gap = Some out →
  out = Main.redistribute_timing_in_group PyFloat.imd_value group mind gap.
Proof.
  unfold MainFloat.redistribute_timing_in_group, Main.redistribute_timing_in_group,
    MainFloat.content_duration.
  destruct (length group <=? 1)%nat; [by intros [= <-]|].
  destruct (_ =? 0); [by intros [= <-]|].
  destruct (head group) as [first|]; [|by intros [= <-]].
  destruct (last group) as [final|]; [|by intros [= <-]].
  destruct (_ <=? 0); [by intros [= <-]|].
  cbv zeta.
  destruct (_ <=? 0); cbv beta iota.
  all: repeat match goal with
              | |- context [PyFloat.truediv ?a 1000] =>
                  destruct (PyFloat.truediv a 1000); cbn [mbind option_bind]
              end; try done.
  all: destruct (MainFloat.redistribute_loop _ _ _ _ _ _ _ _ _) as [l|] eqn:E;
         cbn [mbind option_bind]; [|done].
  all: rewrite <- (main_float_loop _ _ _ _ _ _ _ _ _ _ E).
  all: by destruct l; intros [= <-].
Qed.

(** A word count is at most the total of the group. *)
Lemma word_count_bounds group s :
  s ∈ group →
  0 ≤ count_words_in_text (text s) ≤ total_words_of group.
Proof.
  unfold total_words_of.
  assert (∀ t, 0 ≤ count_words_in_text t) as Hnn
    by (intros t; unfold count_words_in_text; lia).
  induction group as [|x group IH]; [by intros ?%elem_of_nil|].
  assert (0 ≤ sum_Z (map (λ seg, count_words_in_text (text seg)) group)) as Hsum.
  { clear IH. induction group as [|y group IH]; simpl; [done|].
    specialize (Hnn (text y)). lia. }
  intros [->|Hin]%elem_of_cons; simpl.
  - specialize (Hnn (text x)). lia.
  - specialize (IH Hin). specialize (Hnn (text x)). lia.
Qed.

End FloatLoops.

(** Sample groups used to exercise the statements below. *)
Definition sample_group : list Segment :=
  [ mkSegment 1 0 2000 (lit "Hello there");
    mkSegment 2 2100 5000 (lit "how are <i>you</i> today");
    mkSegment 3 5200 9000 (lit "my friend") ].

(** Two overlapping segments whose texts hold no word. *)
Definition wordless_group : list Segment :=
  [ mkSegment 1 0 2000 (lit "<i></i>");
    mkSegment 2 1500 3000 (lit "<i></i>") ].

(** C7. [redistribute_timing_in_group] returns its argument as it is on
    degenerate input: a group of at most one segment, a group without any
    word, a group whose last end is not after its first start. *)
Theorem redistribute_timing_in_group_degenerate :
  ∀ (imd : Z → Z → Z → Z) (group : list Segment) (min_duration_ms gap_ms : Z),
    ((length group ≤ 1)%nat
     ∨ total_words_of group = 0
     ∨ (∃ first final, head group = Some first ∧ last group = Some final
                       ∧ end_ms final - start_ms first ≤ 0)) →
    TR.redistribute_timing_in_group imd group min_duration_ms = group
    ∧ Main.redistribute_timing_in_group imd group min_duration_ms gap_ms = group.
Proof.
  intros imd group mind gap H.
  unfold TR.redistribute_timing_in_group, Main.redistribute_timing_in_group.
  change (sum_Z (map TR.word_count group)) with (total_words_of group).
  change (sum_Z (map (λ seg, count_words_in_text (text seg)) group))
    with (total_words_of group).
  destruct (Nat.leb_spec (length group) 1) as [|Hlen]; [done|].
  destruct (Z.eqb_spec (total_words_of group) 0) as [|Hw]; [done|].
  destruct H as [H|[H|(first & final & -> & -> & H)]]; [lia|done|].
  destruct (Z.leb_spec (end_ms final - start_ms first) 0); [done|lia].
Qed.

Lemma redistribute_timing_in_group_degenerate_witness :
  total_words_of wordless_group = 0
  ∧ TR.redistribute_timing_in_group exact_imd wordless_group 1200 = wordless_group
  ∧ Main.redistribute_timing_in_group exact_imd wordless_group 1200 30 = wordless_group.
Proof.
  split; [reflexivity|].
  apply (redistribute_timing_in_group_degenerate exact_imd wordless_group 1200 30).
  right; left. reflexivity.
Defined.

(** On a group of at least two segments with a positive number of words
    and a positive duration, the list computed from any value of [imd]
    starts at the start of the first segment of the group and ends at the
    end of its last segment. *)
Lemma redistribute_boundaries_value :
  ∀ (imd : Z → Z → Z → Z) (group : list Segment) (min_duration_ms gap_ms : Z)
    (first final : Segment),
    (2 ≤ length group)%nat →
    0 < total_words_of group →
    head group = Some first → last group = Some final →
    0 < end_ms final - start_ms first →
    (start_ms <$> head (TR.redistribute_timing_in_group imd group min_duration_ms)
       = Some (start_ms first)
     ∧ end_ms <$> last (TR.redistribute_timing_in_group imd group min_duration_ms)
       = Some (end_ms final))
    ∧ (start_ms <$> head (Main.redistribute_timing_in_group imd group min_duration_ms gap_ms)
         = Some (start_ms first)
       ∧ end_ms <$> last (Main.redistribute_timing_in_group imd group min_duration_ms gap_ms)
         = Some (end_ms final)).
Proof.
  intros imd group mind gap first final Hlen Hw Hh Hl Hd.
  unfold TR.redistribute_timing_in_group, Main.redistribute_timing_in_group.
  change (sum_Z (map TR.word_count group)) with (total_words_of group).
  change (sum_Z (map (λ seg, count_words_in_text (text seg)) group))
    with (total_words_of group).
  destruct (Nat.leb_spec (length group) 1) as [|_]; [lia|].
  destruct (Z.eqb_spec (total_words_of group) 0) as [|_]; [lia|].
  rewrite Hh, Hl.
  destruct (Z.leb_spec (end_ms final - start_ms first) 0) as [|_]; [lia|].
  split.
  - rewrite set_last_end_start. split.
    + destruct group; simplify_eq/=. done.
    + apply set_last_end_end. intros E.
      apply (f_equal length) in E. rewrite tr_loop_length in E.
      simpl in E. lia.
  - destruct (_ <=? 0); cbv beta iota zeta.
    all: match goal with |- context [Main.redistribute_loop ?a ?b ?c ?d ?e ?f ?g ?h ?i ?j] =>
           pose proof (main_loop_head a b c d e f g h i j) as Hhead;
           pose proof (main_loop_length a b c d e f g h i j) as Hlength;
           destruct (Main.redistribute_loop a b c d e f g h i j) as [|r0 out] eqn:E
         end.
    all: try (simpl in Hlength; lia).
    all: rewrite verify_no_overlaps_start, verify_no_overlaps_end,
           set_last_end_start, set_last_end_end by done.
    all: simpl; by rewrite (Hhead r0).
Qed.

(** A group whose last segment ends [10^309] ms after the start, beyond
    the largest float: the segments that [parse_srt_content] reads from a
    text whose last time has an hours field of 303 digits. *)
Definition far_end_srt : str :=
  lit "1" ++ [LF] ++ lit "00:00:00,000 --> 00:00:02,000" ++ [LF] ++ lit "Hello there"
    ++ [LF; LF]
    ++ lit "2" ++ [LF] ++ lit "00:00:02,000 --> 2" ++ replicate 302 "7"%char
    ++ lit ":46:40,000" ++ [LF] ++ lit "my friend".

Definition far_end_group : list Segment :=
  [ mkSegment 1 0 2000 (lit "Hello there");
    mkSegment 2 2000 (10 ^ 309) (lit "my friend") ].

(** C1, as the code has it. On a group of at least two segments with a
    positive number of words and a positive duration, every list that
    [redistribute_timing_in_group] returns starts at the start of the first
    segment of the group and ends at the end of its last segment. The call
    returns, no exception raised, when the duration is below [2^1000] ms
    and, in [main.py], the time left once the gaps are set aside is below
    [2^1000] ms in absolute value; [None] is the [OverflowError] of
    [int(duration * proportion)] on a duration too large for a float. *)
Theorem redistribute_timing_in_group_boundaries :
  ∀ (group : list Segment) (min_duration_ms gap_ms : Z) (first final : Segment),
    (2 ≤ length group)%nat →
    0 < total_words_of group →
    head group = Some first → last group = Some final →
    0 < end_ms final - start_ms first →
    (∀ redistributed,
       TRFloat.redistribute_timing_in_group group min_duration_ms = Some redistributed →
       start_ms <$> head redistributed = Some (start_ms first)
       ∧ end_ms <$> last redistributed = Some (end_ms final))
    ∧ (∀ redistributed,
         MainFloat.redistribute_timing_in_group group min_duration_ms gap_ms
           = Some redistributed →
         start_ms <$> head redistributed = Some (start_ms first)
         ∧ end_ms <$> last redistributed = Some (end_ms final))
    ∧ (end_ms final - start_ms first < 2 ^ 1000 →
       is_Some (TRFloat.redistribute_timing_in_group group min_duration_ms))
    ∧ (end_ms final - start_ms first < 2 ^ 1000 →
       Z.abs (MainFloat.content_duration (length group)
                (end_ms final - start_ms first) gap_ms).2 < 2 ^ 1000 →
       is_Some (MainFloat.redistribute_timing_in_group group min_duration_ms gap_ms)).
Proof.
  intros group mind gap first final Hlen Hw Hh Hl Hd.
  pose proof (redistribute_boundaries_value PyFloat.imd_value group mind gap
                first final Hlen Hw Hh Hl Hd) as [Htr Hmain].
  split; [|split; [|split]].
  - intros out ->%tr_float_value. exact Htr.
  - intros out ->%main_float_value. exact Hmain.
  - intros Hlt. unfold TRFloat.redistribute_timing_in_group.
    change (sum_Z (map TR.word_count group)) with (total_words_of group).
    destruct (Nat.leb_spec (length group) 1) as [|_]; [lia|].
    destruct (Z.eqb_spec (total_words_of group) 0) as [|_]; [lia|].
    rewrite Hh, Hl.
    destruct (Z.leb_spec (end_ms final - start_ms first) 0) as [|_]; [lia|].
    cbv zeta.
    destruct (tr_float_loop_defined (length group) (total_words_of group)
                (end_ms final - start_ms first) (end_ms final) mind 0
                (start_ms first) group) as [l ->]; [|done].
    intros s Hs. pose proof (word_count_bounds group s Hs).
    apply imd_defined; [lia|done|lia].
  - intros Hlt Hcontent. unfold MainFloat.redistribute_timing_in_group.
    change (sum_Z (map (λ seg, count_words_in_text (text seg)) group))
      with (total_words_of group).
    destruct (Nat.leb_spec (length group) 1) as [|_]; [lia|].
    destruct (Z.eqb_spec (total_words_of group) 0) as [|_]; [lia|].
    rewrite Hh, Hl.
    destruct (Z.leb_spec (end_ms final - start_ms first) 0) as [|_]; [lia|].
    cbv zeta.
    destruct (MainFloat.content_duration _ _ _) as [gap' content].
    cbn [snd] in Hcontent.
    destruct (truediv_defined (end_ms final - start_ms first) 1000) as [x ->];
      [lia|done|].
    destruct (truediv_defined content 1000) as [y ->]; [done|done|].
    cbn [mbind option_bind].
    destruct (main_float_loop_defined (length group) (total_words_of group)
                content (end_ms final) mind gap' 0 (start_ms first) group)
      as [l ->].
    { intros s Hs. pose proof (word_count_bounds group s Hs).
      apply imd_defined; [done|done|lia]. }
    cbn [mbind option_bind]. by destruct l.
Qed.

Lemma redistribute_timing_in_group_boundaries_witness :
  ((∀ redistributed,
      TRFloat.redistribute_timing_in_group sample_group 1200 = Some redistributed →
      start_ms <$> head redistributed = Some 0
      ∧ end_ms <$> last redistributed = Some 9000)
   ∧ (∀ redistributed,
        MainFloat.redistribute_timing_in_group sample_group 1200 30 = Some redistributed →
        start_ms <$> head redistributed = Some 0
        ∧ end_ms <$> last redistributed = Some 9000)
   ∧ (9000 < 2 ^ 1000 →
      is_Some (TRFloat.redistribute_timing_in_group sample_group 1200))
   ∧ (9000 < 2 ^ 1000 → Z.abs 8940 < 2 ^ 1000 →
      is_Some (MainFloat.redistribute_timing_in_group sample_group 1200 30)))
  ∧ TRFloat.redistribute_timing_in_group sample_group 1200
    = Some [ mkSegment 1 0 2250 (lit "Hello there");
             mkSegment 2 2250 6750 (lit "how are <i>you</i> today");
             mkSegment 3 6750 9000 (lit "my friend") ]
  ∧ MainFloat.redistribute_timing_in_group sample_group 1200 30
    = Some [ mkSegment 1 0 2235 (lit "Hello there");
             mkSegment 2 2265 6735 (lit "how are <i>you</i> today");
             mkSegment 3 6765 9000 (lit "my friend") ].
Proof.
  split; [|by vm_compute].
  apply (redistribute_timing_in_group_boundaries sample_group 1200 30
           (mkSegment 1 0 2000 (lit "Hello there"))
           (mkSegment 3 5200 9000 (lit "my friend"))).
  - simpl. lia.
  - reflexivity.
  - reflexivity.
  - reflexivity.
  - simpl. lia.
Defined.

(** C1 as stated fails: the group read from [far_end_srt] has two segments,
    four words and a positive duration, and on it both functions raise
    [OverflowError], the duration being too large for a float. *)
Lemma redistribute_timing_in_group_overflow :
  TR.parse_srt_content far_end_srt = far_end_group
  ∧ length far_end_group = 2%nat
  ∧ total_words_of far_end_group = 4
  ∧ (end_ms <$> last far_end_group) = Some (10 ^ 309)
  ∧ (start_ms <$> head far_end_group) = Some 0
  ∧ TRFloat.redistribute_timing_in_group far_end_group 1200 = None
  ∧ MainFloat.redistribute_timing_in_group far_end_group 1200 30 = None.
Proof. by vm_compute. Qed.

(** C2, as the code has it. On a group of at least two segments with a
    positive number of words and a positive duration, and with a gap
    parameter that is not negative, no two neighbours of the list returned
    by [redistribute_timing_in_group] overlap. *)
Theorem redistribute_timing_in_group_no_overlap :
  ∀ (imd : Z → Z → Z → Z) (group : list Segment) (min_duration_ms gap_ms : Z)
    (first final : Segment),
    (2 ≤ length group)%nat →
    0 < total_words_of group →
    head group = Some first → last group = Some final →
    0 < end_ms final - start_ms first →
    0 ≤ gap_ms →
    all_adjacent no_overlap (TR.redistribute_timing_in_group imd group min_duration_ms)
    ∧ all_adjacent no_overlap
        (Main.redistribute_timing_in_group imd group min_duration_ms gap_ms).
Proof.
  intros imd group mind gap first final Hlen Hw Hh Hl Hd Hgap.
  unfold TR.redistribute_timing_in_group, Main.redistribute_timing_in_group.
  change (sum_Z (map TR.word_count group)) with (total_words_of group).
  change (sum_Z (map (λ seg, count_words_in_text (text seg)) group))
    with (total_words_of group).
  destruct (Nat.leb_spec (length group) 1) as [|_]; [lia|].
  destruct (Z.eqb_spec (total_words_of group) 0) as [|_]; [lia|].
  rewrite Hh, Hl.
  destruct (Z.leb_spec (end_ms final - start_ms first) 0) as [|_]; [lia|].
  split.
  - apply set_last_end_adjacent, tr_loop_adjacent.
  - destruct (_ <=? 0); simpl.
    + case_match; [apply all_adjacent_nil|].
      apply verify_no_overlaps_adjacent. lia.
    + case_match; [apply all_adjacent_nil|].
      by apply verify_no_overlaps_adjacent.
Qed.

Lemma redistribute_timing_in_group_no_overlap_witness :
  all_adjacent no_overlap (TR.redistribute_timing_in_group exact_imd sample_group 1200)
  ∧ all_adjacent no_overlap
      (Main.redistribute_timing_in_group exact_imd sample_group 1200 30).
Proof.
  apply (redistribute_timing_in_group_no_overlap exact_imd sample_group 1200 30
           (mkSegment 1 0 2000 (lit "Hello there"))
           (mkSegment 3 5200 9000 (lit "my friend"))).
  - simpl. lia.
  - reflexivity.
  - reflexivity.
  - reflexivity.
  - simpl. lia.
  - lia.
Defined.

(** C2 as stated fails: a group of two overlapping segments without any
    word is returned as it is, overlap included. *)
Lemma redistribute_timing_in_group_overlap_kept :
  (2 ≤ length wordless_group)%nat
  ∧ ¬ all_adjacent no_overlap
        (Main.redistribute_timing_in_group exact_imd wordless_group 1200 30)
  ∧ ¬ all_adjacent no_overlap
        (TR.redistribute_timing_in_group exact_imd wordless_group 1200).
Proof.
  split; [simpl; lia|].
  split; intros H;
    specialize (H 0%nat (mkSegment 1 0 2000 (lit "<i></i>"))
                  (mkSegment 2 1500 3000 (lit "<i></i>")) eq_refl eq_refl);
    unfold no_overlap in H; simpl in H; lia.
Qed.

(** ** The timestamp codec *)

(** C5, as the code has it, for every setting [max_str_digits] of the
    interpreter's limit on the digits of a literal (4300 unless set
    otherwise). [parse_timestamp] returns 0 on every parse error: a text
    that does not split in two at the comma, a time part that does not split
    in three at the colons, a field that [int()] does not read, which
    includes a field of digits longer than the limit. On a text
    [HH:MM:SS,mmm] made of digits, each field within the limit,
    [timing_redistributor.py] returns
    [(hours*3600 + minutes*60 + seconds)*1000 + milliseconds] whatever the
    values of the fields, and [main.py] returns that number only when
    minutes and seconds are at most 59 and milliseconds at most 999, and 0
    otherwise. *)
Theorem parse_timestamp_soft_failure :
  ∀ max_str_digits : nat,
    (∀ s : str,
       (length (split (lit ",") s) ≠ 2%nat →
          TR.parse_timestamp_limited max_str_digits s = 0
          ∧ Main.parse_timestamp_limited max_str_digits s = 0)
       ∧ (∀ time_part ms_part,
            split (lit ",") s = [time_part; ms_part] →
            length (split (lit ":") time_part) ≠ 3%nat →
            TR.parse_timestamp_limited max_str_digits s = 0
            ∧ Main.parse_timestamp_limited max_str_digits s = 0)
       ∧ (∀ time_part ms_part h m sec,
            split (lit ",") s = [time_part; ms_part] →
            split (lit ":") time_part = [h; m; sec] →
            py_int_limited max_str_digits h = None
              ∨ py_int_limited max_str_digits m = None
              ∨ py_int_limited max_str_digits sec = None
              ∨ py_int_limited max_str_digits ms_part = None →
            TR.parse_timestamp_limited max_str_digits s = 0
            ∧ Main.parse_timestamp_limited max_str_digits s = 0))
    ∧ (∀ hs ms ss mss : str,
         is_field hs → is_field ms → is_field ss → is_field mss →
         within_limit max_str_digits hs → within_limit max_str_digits ms →
         within_limit max_str_digits ss → within_limit max_str_digits mss →
         TR.parse_timestamp_limited max_str_digits (timestamp_text hs ms ss mss)
           = total_ms_of (dval 0 hs) (dval 0 ms) (dval 0 ss) (dval 0 mss)
         ∧ Main.parse_timestamp_limited max_str_digits (timestamp_text hs ms ss mss)
           = if (dval 0 ms <=? 59) && (dval 0 ss <=? 59) && (dval 0 mss <=? 999)
             then total_ms_of (dval 0 hs) (dval 0 ms) (dval 0 ss) (dval 0 mss)
             else 0)
    ∧ (∀ hs ms ss mss : str,
         is_field hs → is_field ms → is_field ss → is_field mss →
         ¬ (within_limit max_str_digits hs ∧ within_limit max_str_digits ms
            ∧ within_limit max_str_digits ss ∧ within_limit max_str_digits mss) →
         TR.parse_timestamp_limited max_str_digits (timestamp_text hs ms ss mss) = 0
         ∧ Main.parse_timestamp_limited max_str_digits (timestamp_text hs ms ss mss) = 0).
Proof.
  intros max_str_digits. split; [|split].
  - intros s. split; [|split].
    + unfold TR.parse_timestamp_limited, TR.parse_timestamp_body_limited,
        Main.parse_timestamp_limited, Main.parse_timestamp_body_limited.
      intros H. by destruct (split (lit ",") s) as [|? [|? [|? ?]]].
    + unfold TR.parse_timestamp_limited, TR.parse_timestamp_body_limited,
        Main.parse_timestamp_limited, Main.parse_timestamp_body_limited.
      intros tp msp -> H. by destruct (split (lit ":") tp) as [|? [|? [|? [|? ?]]]].
    + intros tp msp h m sec. apply parse_timestamp_limited_errors.
  - intros hs ms ss mss Hh Hm Hs Hms Wh Wm Ws Wms.
    destruct (parse_timestamp_limited_fields max_str_digits hs ms ss mss)
      as [-> ->]; try done.
    split.
    + by apply tr_parse_timestamp_fields.
    + by apply main_parse_timestamp_fields.
  - intros hs ms ss mss Hh Hm Hs Hms Hw.
    destruct (split_timestamp_text hs ms ss mss) as [E1 E2]; try done.
    apply (parse_timestamp_limited_errors max_str_digits _ _ _ _ _ _ E1 E2).
    destruct Hh as [Hh ?], Hm as [Hm ?], Hs as [Hs ?], Hms as [Hms ?].
    destruct (decide (within_limit max_str_digits hs)) as [Wh|Wh];
      [|left; by apply py_int_limited_beyond].
    destruct (decide (within_limit max_str_digits ms)) as [Wm|Wm];
      [|right; left; by apply py_int_limited_beyond].
    destruct (decide (within_limit max_str_digits ss)) as [Ws|Ws];
      [|right; right; left; by apply py_int_limited_beyond].
    right; right; right. apply py_int_limited_beyond; [done|]. intros Wms.
    by apply Hw.
Qed.

Lemma parse_timestamp_soft_failure_witness :
  TR.parse_timestamp_limited default_max_str_digits
      (timestamp_text (lit "00") (lit "75") (lit "07") (lit "250"))
    = 4507250
  ∧ Main.parse_timestamp_limited default_max_str_digits
      (timestamp_text (lit "00") (lit "75") (lit "07") (lit "250"))
    = 0.
Proof.
  apply (proj1 (proj2 (parse_timestamp_soft_failure default_max_str_digits))
           (lit "00") (lit "75") (lit "07") (lit "250"));
    try (split; [repeat constructor; by eexists|done]);
    right; left; vm_compute; lia.
Defined.

(** C5 as stated fails on [main.py]: with 75 minutes the text is of the
    right shape, and the function returns 0 instead of the number of
    milliseconds. *)
Lemma parse_timestamp_out_of_range :
  Main.parse_timestamp_limited default_max_str_digits (lit "00:75:00,000") = 0
  ∧ total_ms_of 0 75 0 0 = 4500000
  ∧ TR.parse_timestamp_limited default_max_str_digits (lit "00:75:00,000") = 4500000.
Proof. by vm_compute. Qed.

(** Two parse errors of [int()]: a field that starts with the separator
    U+001C, which [str.strip] would remove and [int()] does not skip, and,
    under the default limit, an hours field of 4301 digits, which is read
    once the limit is lifted. *)
Lemma parse_timestamp_unread_fields :
  TR.parse_timestamp (lit "00:" ++ [ascii_of_N 28] ++ lit "01:00,000") = 0
  ∧ Main.parse_timestamp (lit "00:" ++ [ascii_of_N 28] ++ lit "01:00,000") = 0
  ∧ TR.parse_timestamp (lit "00: 01:00,000") = 60000
  ∧ TR.parse_timestamp_limited default_max_str_digits
      (timestamp_text (replicate 4301 "1"%char) (lit "00") (lit "00") (lit "000")) = 0
  ∧ TR.parse_timestamp_limited 0
      (timestamp_text (replicate 4301 "1"%char) (lit "00") (lit "00") (lit "000")) ≠ 0.
Proof. by vm_compute. Qed.

(** ** The timing stage of the splitter *)

Section SplitTiming.
Variable imd : Z → Z → Z → Z.
Variables (segment : Main.Cue) (first_part second_part start_time end_time : str).
Hypothesis Htimes :
  split (lit " --> ") (Main.timestamp segment) = [start_time; end_time].

Let total_duration : Z :=
  Main.parse_timestamp end_time - Main.parse_timestamp start_time.

Lemma emit_split_below :
  total_duration < Main.required_total_duration →
  Main.emit_split imd segment first_part second_part = Some [segment].
Proof using Htimes.
  intros H. unfold Main.emit_split. rewrite Htimes.
  fold total_duration. destruct (Z.ltb_spec total_duration Main.required_total_duration);
    [done|lia].
Qed.

Lemma emit_split_above :
  Main.required_total_duration ≤ total_duration →
  ∃ first_end_time second_start_time,
    Main.emit_split imd segment first_part second_part
    = Some [ Main.mkCue (Main.num segment)
               (start_time ++ lit " --> " ++ Main.format_timestamp first_end_time)
               first_part;
             Main.mkCue (Main.add_half (Main.num segment))
               (Main.format_timestamp second_start_time ++ lit " --> " ++ end_time)
               second_part ]
    ∧ Main.parse_timestamp start_time + Main.min_segment_duration ≤ first_end_time
    ∧ second_start_time = first_end_time + Main.split_gap_ms
    ∧ second_start_time + Main.min_segment_duration ≤ Main.parse_timestamp end_time.
Proof using Htimes.
  intros H. unfold Main.emit_split. rewrite Htimes. fold total_duration.
  unfold Main.required_total_duration, Main.min_segment_duration,
    Main.split_gap_ms in *.
  assert (Main.parse_timestamp end_time
          = Main.parse_timestamp start_time + total_duration) as Hend
    by (unfold total_duration; lia).
  generalize dependent total_duration. clear total_duration. intros total H Hend.
  rewrite Hend.
  set (fw := Z.of_nat (length (words first_part))).
  set (sw := Z.of_nat (length (words second_part))).
  set (ideal := imd (total - 30) fw (fw + sw)).
  pose proof (Z.div_mod (total - 30) 2).
  pose proof (Z.mod_pos_bound (total - 30) 2).
  repeat match goal with
         | |- context [?a <? ?b] => destruct (Z.ltb_spec a b)
         | |- context [?a >? ?b] => destruct (Z.gtb_spec a b)
         | |- context [?a <=? ?b] => destruct (Z.leb_spec a b)
         | |- context [?a >=? ?b] => destruct (Z.geb_spec a b)
         | |- context [?a =? ?b] => destruct (Z.eqb_spec a b)
         end; simpl; try lia;
    eexists _, _; (split; [reflexivity|]); lia.
Qed.

End SplitTiming.

(** A segment of 450 ms and one of four seconds. *)
Definition short_cue : Main.Cue :=
  Main.mkCue (Main.Whole 1) (lit "00:00:01,000 --> 00:00:01,450")
    (lit "Hello there. How are you today my friend?").
Definition long_cue : Main.Cue :=
  Main.mkCue (Main.Whole 1) (lit "00:00:00,000 --> 00:00:04,000")
    (lit "Hello there. How are you today my friend?").

(** C3. Once a split point has been found, [split_advanced_segments] keeps
    the segment as it is whenever its duration is below the safety floor,
    be it [2*min_segment_duration + gap] (430 ms) or the 500 ms the code
    compares with; a segment replaced by two children lasts at least that
    long. *)
Theorem split_advanced_segments_safety_floor :
  ∀ (imd : Z → Z → Z → Z) (segment : Main.Cue)
    (first_part second_part start_time end_time : str),
    split (lit " --> ") (Main.timestamp segment) = [start_time; end_time] →
    let total_duration :=
      Main.parse_timestamp end_time - Main.parse_timestamp start_time in
    (total_duration < 2 * Main.min_segment_duration + Main.split_gap_ms →
       Main.emit_split imd segment first_part second_part = Some [segment])
    ∧ (total_duration < 500 →
         Main.emit_split imd segment first_part second_part = Some [segment])
    ∧ (∀ child1 child2,
         Main.emit_split imd segment first_part second_part = Some [child1; child2] →
         500 ≤ total_duration
         ∧ 2 * Main.min_segment_duration + Main.split_gap_ms ≤ total_duration).
Proof.
  intros imd segment fp sp st et Ht total.
  pose proof (emit_split_below imd segment fp sp st et Ht) as Hb.
  unfold Main.required_total_duration, Main.min_segment_duration,
    Main.split_gap_ms in *. simpl in Hb. fold total in Hb.
  split; [intros; apply Hb; lia|]. split; [intros; apply Hb; lia|].
  intros c1 c2 E. destruct (Z.lt_ge_cases total 500) as [Hlt|Hge]; [|lia].
  rewrite Hb in E by done. done.
Qed.

Lemma split_advanced_segments_safety_floor_witness :
  Main.emit_split exact_imd short_cue (lit "Hello there.")
    (lit "How are you today my friend?") = Some [short_cue].
Proof.
  apply (proj1 (proj2 (split_advanced_segments_safety_floor exact_imd short_cue
           (lit "Hello there.") (lit "How are you today my friend?")
           (lit "00:00:01,000") (lit "00:00:01,450") eq_refl))).
  by vm_compute.
Defined.

(** The four-second segment of the specification is replaced by two
    children 30 ms apart. *)
Example split_advanced_segments_scenario :
  Main.emit_split exact_imd long_cue (lit "Hello there.")
    (lit "How are you today my friend?")
  = Some [ Main.mkCue (Main.Whole 1) (lit "00:00:00,000 --> 00:00:00,992")
             (lit "Hello there.");
           Main.mkCue (Main.PlusHalf 1) (lit "00:00:01,022 --> 00:00:04,000")
             (lit "How are you today my friend?") ].
Proof. by vm_compute. Qed.

(** ** Validation of a translated response *)

Section Validation.

(** The value under [k] when the response is a dictionary that has the key. *)
Definition response_lookup (translated_data : Main.pyval) (k : str)
  : option Main.pyval :=
  match translated_data with
  | Main.PDict d => d !! k
  | _ => None
  end.

Definition is_dict (translated_data : Main.pyval) : Prop :=
  ∃ d, translated_data = Main.PDict d.

(** The keys of the original segments are segment indices: none of them is
    one of the two keys the response keeps for itself. *)
Definition index_keys (original_segments : gmap str Main.pyval) : Prop :=
  ∀ k, k ∈ Main.reserved_keys → k ∉ dom original_segments.

Lemma first_non_string_None (expected_nums : gset str) (d : gmap str Main.pyval) :
  Main.first_non_string expected_nums d = None
  ↔ ∀ k v, k ∈ expected_nums → d !! k = Some v → Main.is_str v = true.
Proof.
  unfold Main.first_non_string.
  setoid_rewrite <- (elem_of_elements expected_nums).
  induction (elements expected_nums) as [|num l IH]; simpl.
  - split; [|done]. intros _ k v Hk. by apply elem_of_nil in Hk.
  - destruct (d !! num) as [v0|] eqn:E.
    + destruct (Main.is_str v0) eqn:Es.
      * rewrite IH. split.
        { intros H k v [->|Hk]%elem_of_cons Hv; [by simplify_eq|by apply (H k)]. }
        { intros H k v Hk. apply H. by right. }
      * split; [done|]. intros H. specialize (H num v0). rewrite Es in H.
        discriminate H; [by left|done].
    + rewrite IH. split.
      * intros H k v [->|Hk]%elem_of_cons Hv; [by simplify_eq|by apply (H k)].
      * intros H k v Hk. apply H. by right.
Qed.

Lemma first_non_string_Some (expected_nums : gset str) (d : gmap str Main.pyval)
    num ty :
  Main.first_non_string expected_nums d = Some (num, ty) →
  num ∈ expected_nums ∧ ∃ v, d !! num = Some v ∧ Main.is_str v = false.
Proof.
  unfold Main.first_non_string.
  setoid_rewrite <- (elem_of_elements expected_nums).
  induction (elements expected_nums) as [|k l IH]; simpl; [done|].
  destruct (d !! k) as [v0|] eqn:E.
  - destruct (Main.is_str v0) eqn:Es.
    + intros H. destruct (IH H) as [? ?]. split; [by right|done].
    + intros [= <- <-]. split; [by left|]. by exists v0.
  - intros H. destruct (IH H) as [? ?]. split; [by right|done].
Qed.

Lemma missing_segments_eq (original_segments d : gmap str Main.pyval) :
  index_keys original_segments →
  dom original_segments ∖ filter (λ k, k ∉ Main.reserved_keys) (dom d)
  = dom original_segments ∖ dom d.
Proof.
  intros Hk. apply set_eq. intros k.
  rewrite !elem_of_difference, elem_of_filter. split.
  - intros [Hin Hn]. split; [done|]. intros Hd. apply Hn. split; [|done].
    intros Hr. by apply (Hk k).
  - intros [Hin Hn]. split; [done|]. by intros [_ ?].
Qed.

End Validation.

(** The originals and the response of the scenario of the specification:
    the response lacks the key ["2"]. *)
Definition scenario_original : gmap str Main.pyval :=
  {[ lit "1" := Main.PStr (lit "Hello"); lit "2" := Main.PStr (lit "World") ]}.
Definition scenario_response : Main.pyval :=
  Main.PDict {[ lit "success" := Main.PBool true; lit "1" := Main.PStr (lit "Bonjour") ]}.

(** C6. When the keys of the original segments are segment indices,
    [validate_translation_structure] fails exactly when the response is not
    a dictionary, or its ['success'] is falsy, or an index of the original is
    absent from the response, or an index of the original maps to a value
    that is not a string. When the response is a dictionary marked
    successful and indices are missing, the message names exactly the
    missing indices; when the validation does not fail, the message is that
    of success. *)
Theorem validate_translation_structure_spec :
  ∀ (original_segments : gmap str Main.pyval) (translated_data : Main.pyval),
    index_keys original_segments →
    (fst (Main.validate_translation_structure original_segments translated_data) = false
     ↔ ¬ is_dict translated_data
       ∨ Main.truthy (default Main.PNone
                        (response_lookup translated_data (lit "success"))) = false
       ∨ (∃ k, k ∈ dom original_segments ∧ response_lookup translated_data k = None)
       ∨ (∃ k v, k ∈ dom original_segments
                 ∧ response_lookup translated_data k = Some v
                 ∧ Main.is_str v = false))
    ∧ (∀ d, translated_data = Main.PDict d →
            Main.truthy (default Main.PNone (d !! lit "success")) = true →
            dom original_segments ∖ dom d ≠ ∅ →
            Main.validate_translation_structure original_segments translated_data
            = (false, Main.MissingSegments (dom original_segments ∖ dom d)))
    ∧ (fst (Main.validate_translation_structure original_segments translated_data) = true →
       Main.validate_translation_structure original_segments translated_data
       = (true, Main.ValidationPassed)).
Proof.
  intros orig tr Hkeys.
  assert (∀ d : gmap str Main.pyval, dom orig ⊆ filter (λ k, k ∉ Main.reserved_keys) (dom d)
               ↔ dom orig ∖ dom d = ∅) as Hsub.
  { intros d. rewrite <- (missing_segments_eq orig d Hkeys). split.
    - intros H. apply set_eq. intros k. rewrite elem_of_difference. split.
      + intros [Hk Hn]. destruct Hn. by apply H.
      + by intros ?%not_elem_of_empty.
    - intros H k Hk.
      destruct (decide (k ∈ filter (λ k, k ∉ Main.reserved_keys) (dom d)))
        as [|Hn]; [done|].
      assert (k ∈ dom orig ∖ filter (λ k, k ∉ Main.reserved_keys) (dom d)) as Hd
        by (by apply elem_of_difference).
      rewrite H in Hd. by apply not_elem_of_empty in Hd. }
  unfold Main.validate_translation_structure.
  destruct tr as [| | | | | |d].
  1-6: split; [split; [intros _; left; by intros [? ?]|done]|].
  1-6: split; [intros d [=]|done].
  unfold response_lookup.
  destruct (Main.truthy (default Main.PNone (d !! lit "success"))) eqn:Et;
    cbn [negb fst].
  2:{ split; [split; [by right; left|done]|].
      split; [intros d' [= <-] Ht; congruence|done]. }
  destruct (decide (dom orig ⊆ filter (λ k, k ∉ Main.reserved_keys) (dom d)))
    as [Hin|Hnin].
  - rewrite bool_decide_true by done.
    destruct (Main.first_non_string (dom orig) d) as [[num ty]|] eqn:Ef.
    + split; [|split; [|done]].
      * split; [intros _|done]. right; right; right.
        destruct (first_non_string_Some _ _ _ _ Ef) as (? & v & ? & ?).
        by exists num, v.
      * intros d' [= <-] _ Hne. by apply Hsub in Hin.
    + split; [|split; [|done]].
      * split; [done|]. intros [Hd|[Hs|[(k & Hk & Hl)|(k & v & Hk & Hl & Hv)]]].
        { destruct Hd. by exists d. }
        { congruence. }
        { apply Hin, elem_of_filter in Hk as [_ Hk].
          apply elem_of_dom in Hk as [? ?]. congruence. }
        { rewrite first_non_string_None in Ef. rewrite (Ef k v) in Hv; done. }
      * intros d' [= <-] _ Hne. by apply Hsub in Hin.
  - rewrite bool_decide_false by done. split; [|split; [|done]].
    + split; [intros _|done]. right; right; left.
      assert (dom orig ∖ dom d ≠ ∅) as Hne by (intros E; by apply Hnin, Hsub).
      apply set_choose_L in Hne as [k [Hk Hn]%elem_of_difference].
      exists k. split; [done|]. by apply not_elem_of_dom.
    + intros d' [= <-] _ _. by rewrite missing_segments_eq.
Qed.

Lemma scenario_index_keys : index_keys scenario_original.
Proof.
  intros k Hk Hd. unfold scenario_original in Hd.
  rewrite dom_insert_L, dom_singleton_L in Hd.
  apply elem_of_union in Hd as [Hd|Hd]; apply elem_of_singleton in Hd; subst k;
    repeat (apply elem_of_cons in Hk as [Hk|Hk]; [by vm_compute in Hk|]);
    by apply elem_of_nil in Hk.
Defined.

Lemma validate_translation_structure_spec_witness :
  index_keys scenario_original
  ∧ Main.validate_translation_structure scenario_original scenario_response
    = (false, Main.MissingSegments {[ lit "2" ]}).
Proof.
  split; [exact scenario_index_keys|].
  pose proof (proj1 (proj2 (validate_translation_structure_spec
    scenario_original scenario_response scenario_index_keys))) as H.
  rewrite (H _ eq_refl); [by vm_compute|by vm_compute|by vm_compute].
Defined.

(** ** The text redistribution pass *)

Section WordFacts.

(** A word: not empty, without white space. *)
Definition is_word (w : str) : Prop := w ≠ [] ∧ Forall non_space w.

Lemma words_go_spec s :
  Forall is_word (words_go false s)
  ∧ ∃ w ws, words_go true s = w :: ws ∧ Forall non_space w ∧ Forall is_word ws.
Proof.
  induction s as [|c s [IH1 (w & ws & E & Hw & Hws)]]; simpl.
  - split; [done|]. by exists [], [].
  - destruct (isspace c) eqn:Ec.
    + split; [done|]. by exists [], (words_go false s).
    + rewrite E. split.
      * constructor; [|done]. split; [done|]. by constructor.
      * exists (c :: w), ws. split; [done|]. split; [by constructor|done].
Qed.

Lemma words_are_words s : Forall is_word (words s).
Proof. apply words_go_spec. Qed.

Lemma word_clean w : is_word w → clean w.
Proof.
  intros [_ Hw]. rewrite Forall_forall in Hw. split; intros c Hc; apply Hw.
  - destruct w; simplify_eq/=. by left.
  - apply last_Some in Hc as [l ->]. apply elem_of_app. right. by left.
Qed.

Lemma join_app sep (a b : list str) :
  a ≠ [] → b ≠ [] → join sep (a ++ b) = join sep a ++ sep ++ join sep b.
Proof.
  intros Ha Hb. induction a as [|x a IH]; [done|].
  destruct a as [|y a].
  - simpl. by destruct b.
  - change ((x :: y :: a) ++ b) with (x :: (y :: a) ++ b).
    rewrite !join_cons by done. rewrite IH by done. by rewrite <- !app_assoc.
Qed.

Lemma join_words_clean ws :
  Forall is_word ws → ws ≠ [] → clean (join [SP] ws) ∧ join [SP] ws ≠ [].
Proof.
  induction 1 as [|w ws Hw Hws IH]; intros Hne; [done|].
  destruct ws as [|w' ws].
  - simpl. split; [by apply word_clean|apply Hw].
  - rewrite join_cons by done. destruct IH as [[_ Hl] Hj]; [done|].
    destruct Hw as [Hw1 Hw2]. destruct w as [|c w]; [done|].
    split; [|done]. split.
    + intros ? [= <-]. by apply Forall_inv in Hw2.
    + intros d Hd. apply Hl. rewrite !last_app in Hd.
      destruct (last (join [SP] (w' :: ws))) eqn:E; [done|].
      by apply last_None in E.
Qed.

Lemma strip_join_words ws :
  Forall is_word ws → strip (join [SP] ws) = join [SP] ws.
Proof.
  intros Hws. destruct ws as [|w ws]; [done|].
  apply strip_clean_id. by apply join_words_clean.
Qed.

Lemma slice_length {A} i j (l : list A) :
  (j ≤ length l)%nat → length (slice i j l) = (j - i)%nat.
Proof. intros H. unfold slice. rewrite length_drop, length_take. lia. Qed.

Lemma slice_drop {A} i j (l : list A) :
  (i ≤ j)%nat → (j ≤ length l)%nat → slice i j l ++ drop j l = drop i l.
Proof.
  intros Hi Hj. unfold slice. rewrite <- (take_drop j l) at 3.
  rewrite drop_app_le; [done|]. rewrite length_take. lia.
Qed.

Lemma slice_all {A} i (l : list A) : slice i (length l) l = drop i l.
Proof. unfold slice. by rewrite firstn_all. Qed.

End WordFacts.

(** The index in the original words at which segment [i] starts: 0 for the
    first segment, then the [expected_words_end] of the segment before. *)
Definition words_start (imd : Z → Z → Z → Z) (total_words total_segments i : nat)
  : nat :=
  match i with
  | O => O
  | S j => Main.expected_words_end imd total_words total_segments j
  end.

Section TextLoop.
Variable imd : Z → Z → Z → Z.
Variable original_words : list str.
Variable total_segments : nat.
Hypothesis Hwords : Forall is_word original_words.

Local Abbreviation cut := (words_start imd (length original_words) total_segments).

Hypothesis Hinc : ∀ i, (i < total_segments)%nat → (cut i < cut (S i))%nat.
Hypothesis Hle : ∀ i, (i ≤ total_segments)%nat → (cut i ≤ length original_words)%nat.

(** The segment the loop appends for the processed segment [seg] of index [i]. *)
Definition assigned (i : nat) (seg : Main.Stamped) : Main.Cue :=
  Main.mkCue (Main.Whole (Main.s_num seg)) (Main.s_timestamp seg)
    (join [SP] (slice (cut i) (cut (S i)) original_words)).

Lemma slice_words i j : Forall is_word (slice i j original_words).
Proof using Hwords. unfold slice. by apply Forall_drop, Forall_take. Qed.

Lemma assign_loop_spec rest i out :
  (i + length rest)%nat = total_segments →
  Main.assign_loop imd original_words total_segments i (cut i) out rest
  = (cut total_segments, out ++ imap (λ j, assigned (i + j)) rest).
Proof using Hwords Hinc Hle.
  revert i out. induction rest as [|seg rest IH]; intros i out Hn.
  - simpl in *. rewrite app_nil_r. by replace i with total_segments by lia.
  - simpl in Hn. cbn [Main.assign_loop].
    change (Main.expected_words_end imd (length original_words) total_segments i)
      with (cut (S i)).
    pose proof (Hinc i ltac:(lia)) as Hlt.
    pose proof (Hle (S i) ltac:(lia)) as HleS.
    destruct (Nat.ltb_spec (length original_words) (cut (S i))) as [|_]; [lia|].
    rewrite strip_join_words by apply slice_words.
    assert (slice (cut i) (cut (S i)) original_words ≠ []) as Hne.
    { intros E. apply (f_equal length) in E. rewrite slice_length in E by done.
      cbn [length] in E. lia. }
    destruct (join_words_clean _ (slice_words (cut i) (cut (S i))) Hne) as [_ Hj].
    rewrite (bool_decide_false _ Hj), (bool_decide_true _ Hne).
    cbn [andb]. rewrite (bool_decide_true _ Hj).
    rewrite IH by lia. f_equal. rewrite <- app_assoc. f_equal.
    rewrite imap_cons. simpl. rewrite Nat.add_0_r. f_equal.
    apply imap_ext. intros j x _. simpl. f_equal. lia.
Qed.

Lemma redistribute_words_spec processed_segments :
  length processed_segments = total_segments → (0 < total_segments)%nat →
  Main.redistribute_words imd original_words processed_segments
  = imap (λ i seg,
            Main.mkCue (Main.Whole (Main.s_num seg)) (Main.s_timestamp seg)
              (join [SP]
                 (slice (cut i)
                    (if bool_decide (S i = total_segments)
                     then length original_words else cut (S i))
                    original_words)))
         processed_segments.
Proof using Hwords Hinc Hle.
  intros Hlen Hpos. unfold Main.redistribute_words. rewrite Hlen.
  pose proof (assign_loop_spec processed_segments 0 [] ltac:(simpl; lia)) as E.
  change (cut 0) with 0%nat in E. rewrite E. clear E. simpl "++".
  pose proof (Hle total_segments ltac:(lia)) as Hn.
  destruct (Nat.ltb_spec (cut total_segments) (length original_words)) as [Hlt|Hge].
  - match goal with |- context [imap ?f processed_segments] =>
      change (imap f processed_segments) with (imap assigned processed_segments)
    end.
    destruct (imap assigned processed_segments) as [|c0 l] eqn:El.
    { apply (f_equal length) in El. rewrite length_imap in El. simpl in El. lia. }
    rewrite <- El. apply list_eq. intros k.
    rewrite list_lookup_alter, !list_lookup_imap, length_imap, Hlen.
    destruct (processed_segments !! k) as [seg|] eqn:Ek; simpl.
    2:{ case_decide; [|done]. subst k. apply lookup_ge_None in Ek. lia. }
    apply lookup_lt_Some in Ek as Hk. case_decide as Hd.
    + subst k. rewrite Ek. unfold assigned, Main.append_text.
      cbn [fmap option_fmap option_map Main.num Main.timestamp Main.cue_text].
      rewrite bool_decide_true by lia.
      pose proof (Hinc (total_segments - 1)%nat ltac:(lia)) as Hc.
      replace (S (total_segments - 1)) with total_segments in * by lia.
      do 2 f_equal.
      change (SP :: join [SP] (drop (cut total_segments) original_words))
        with ([SP] ++ join [SP] (drop (cut total_segments) original_words)).
      rewrite <- join_app.
      * rewrite slice_drop by lia. by rewrite slice_all.
      * intros E. apply (f_equal length) in E. rewrite slice_length in E by done.
        cbn [length] in E. lia.
      * intros E. apply (f_equal length) in E. rewrite length_drop in E.
        cbn [length] in E. lia.
    + unfold assigned. cbn [fmap option_fmap option_map].
      by rewrite bool_decide_false by lia.
  - match goal with |- context [imap ?f processed_segments] =>
      change (imap f processed_segments) with (imap assigned processed_segments)
    end.
    apply imap_ext. intros k seg Hk. unfold assigned.
    case_bool_decide as Hd; [|done].
    assert (cut (S k) = length original_words) as -> by (rewrite Hd; lia).
    done.
Qed.

End TextLoop.

(** With the exact quotient, segment [i] starts at word [i * W / n]. *)
Lemma exact_words_start (W n i : nat) :
  (0 < n)%nat →
  Z.of_nat (words_start exact_imd W n i) = Z.of_nat i * Z.of_nat W / Z.of_nat n.
Proof.
  intros Hn. destruct i as [|j]; [done|].
  unfold words_start, Main.expected_words_end, exact_imd.
  rewrite Z.quot_div_nonneg by lia.
  rewrite Z2Nat.id by (apply Z.div_pos; lia). f_equal. lia.
Qed.

Lemma exact_words_start_increasing (W n : nat) :
  (0 < n)%nat → (n ≤ W)%nat →
  (∀ i, (i < n)%nat →
        (words_start exact_imd W n i < words_start exact_imd W n (S i))%nat)
  ∧ words_start exact_imd W n n = W.
Proof.
  intros Hn HW. split.
  - intros i Hi.
    pose proof (exact_words_start W n i Hn) as E1.
    pose proof (exact_words_start W n (S i) Hn) as E2.
    assert (Z.of_nat i * Z.of_nat W / Z.of_nat n + 1
            ≤ Z.of_nat (S i) * Z.of_nat W / Z.of_nat n) as H; [|lia].
    rewrite <- (Z.div_add _ 1) by lia. apply Z.div_le_mono; lia.
  - pose proof (exact_words_start W n n Hn) as E.
    rewrite Z.mul_comm, Z.div_mul in E by lia. lia.
Qed.

(** The number of words the specification's formula gives to segment [i]:
    [round((i+1)*W/n) - round(i*W/n)], with [round] the nearest integer and
    ties going to the even one. *)
Definition py_round (a b : Z) : Z :=
  let q := a / b in
  let r := a mod b in
  if 2 * r <? b then q
  else if b <? 2 * r then q + 1
  else if Z.even q then q else q + 1.

Definition claimed_word_count (W n i : Z) : Z :=
  py_round ((i + 1) * W) n - py_round (i * W) n.

(** A text given line by line. *)
Definition srt_text (lines : list string) : str := join [LF] (lit <$> lines).

Definition three_words_original : str :=
  srt_text ["1"; "00:00:00,000 --> 00:00:02,000"; "one two three"]%string.
Definition two_blocks_processed : str :=
  srt_text ["1"; "00:00:00,000 --> 00:00:01,000"; "uno"; "";
            "2"; "00:00:01,000 --> 00:00:02,000"; "dos tres"]%string.
Definition two_stamps : list Main.Stamped :=
  [ Main.mkStamped 1 (lit "00:00:00,000 --> 00:00:01,000");
    Main.mkStamped 2 (lit "00:00:01,000 --> 00:00:02,000") ].

(** *** The cut points on floats *)

Section FloatTextLoop.
Variable original_words : list str.
Variable total_segments : nat.
Variable words_per_segment : PyFloat.float.
Hypothesis Hwps :
  PyFloat.truediv (Z.of_nat (length original_words)) (Z.of_nat total_segments)
  = Some words_per_segment.

Lemma float_expected_words_end i :
  MainFloat.expected_words_end words_per_segment i
  = Z.to_nat <$> PyFloat.imd (Z.of_nat i + 1) (Z.of_nat (length original_words))
                   (Z.of_nat total_segments).
Proof using Hwps.
  unfold MainFloat.expected_words_end, PyFloat.imd. rewrite Hwps.
  cbn [mbind option_bind]. by destruct (PyFloat.of_int _).
Qed.

(** Whatever the loop on floats returns is what the loop above returns
    when [imd] is the floating-point computation. *)
Lemma float_assign_loop rest i word_index out r :
  MainFloat.assign_loop original_words words_per_segment i word_index out rest = Some r →
  r = Main.assign_loop PyFloat.imd_value original_words total_segments i word_index
        out rest.
Proof using Hwps.
  revert i word_index out. induction rest as [|seg rest IH]; intros i word_index out;
    cbn [MainFloat.assign_loop Main.assign_loop]; [by intros [= <-]|].
  rewrite float_expected_words_end. unfold Main.expected_words_end.
  destruct (PyFloat.imd _ _ _) as [z|] eqn:E; cbn [fmap option_fmap option_map
    mbind option_bind]; [|done].
  rewrite (imd_value_eq _ _ _ _ E). cbv zeta.
  destruct (if bool_decide _ && _ then _ else _) as [segment_text word_index'].
  apply IH.
Qed.

Lemma float_assign_loop_defined rest i word_index out :
  (∀ j, (i ≤ j < i + length rest)%nat →
        is_Some (PyFloat.imd (Z.of_nat j + 1) (Z.of_nat (length original_words))
                   (Z.of_nat total_segments))) →
  is_Some (MainFloat.assign_loop original_words words_per_segment i word_index out rest).
Proof using Hwps.
  revert i word_index out. induction rest as [|seg rest IH]; intros i word_index out Hd;
    cbn [MainFloat.assign_loop]; [done|].
  rewrite float_expected_words_end.
  destruct (Hd i) as [z ->]; [simpl; lia|].
  cbn [fmap option_fmap option_map mbind option_bind]. cbv zeta.
  destruct (if bool_decide _ && _ then _ else _) as [segment_text word_index'].
  apply IH. intros j Hj. apply Hd. simpl. lia.
Qed.

End FloatTextLoop.

Lemma float_redistribute_words original_words processed_segments out :
  MainFloat.redistribute_words original_words processed_segments = Some out →
  out = Main.redistribute_words PyFloat.imd_value original_words processed_segments.
Proof.
  unfold MainFloat.redistribute_words, Main.redistribute_words.
  destruct (PyFloat.truediv _ _) as [wps|] eqn:Ew; cbn [mbind option_bind]; [|done].
  destruct (MainFloat.assign_loop _ _ _ _ _ _) as [[word_index l]|] eqn:E;
    cbn [mbind option_bind]; [|done].
  rewrite <- (float_assign_loop _ _ _ Ew _ _ _ _ _ E).
  destruct (_ <? _)%nat; [|by intros [= <-]].
  by destruct l; intros [= <-].
Qed.

Lemma float_redistribute_words_defined original_words processed_segments :
  (∀ j, (j < length processed_segments)%nat →
        is_Some (PyFloat.imd (Z.of_nat j + 1) (Z.of_nat (length original_words))
                   (Z.of_nat (length processed_segments)))) →
  (0 < length processed_segments)%nat →
  MainFloat.redistribute_words original_words processed_segments
  = Some (Main.redistribute_words PyFloat.imd_value original_words processed_segments).
Proof.
  intros Hd Hn.
  destruct (MainFloat.redistribute_words original_words processed_segments)
    as [out|] eqn:E; [by rewrite (float_redistribute_words _ _ _ E)|].
  exfalso. revert E. unfold MainFloat.redistribute_words.
  destruct (Hd 0%nat Hn) as [z Hz]. unfold PyFloat.imd in Hz.
  destruct (PyFloat.truediv _ _) as [wps|] eqn:Ew; [|done].
  cbn [mbind option_bind].
  destruct (float_assign_loop_defined original_words (length processed_segments)
              wps Ew processed_segments 0 0 []) as [[word_index l] ->].
  { intros j Hj. apply Hd. lia. }
  cbn [mbind option_bind]. destruct (_ <? _)%nat; [|done]. by destruct l.
Qed.

(** The index in the original words at which segment [i] starts, from the
    ends [e] of the segments: 0 for the first segment, then the end of the
    segment before. *)
Definition start_of (e : nat → nat) (i : nat) : nat :=
  match i with
  | O => O
  | S j => e j
  end.

(** The cut points are those of the floating-point product, not of the
    exact one: with 30 words and 22 segments the eleventh segment ends at
    word 14, where [11 * 30 / 22] is 15. *)
Lemma expected_words_end_inexact :
  PyFloat.imd 11 30 22 = Some 14 ∧ exact_imd 11 30 22 = 15
  ∧ PyFloat.imd 10 30 22 = Some 13 ∧ PyFloat.imd 12 30 22 = Some 16.
Proof. by vm_compute. Qed.

(** C4, as the code has it. Write [W] for the number of original words,
    [n] for the number of processed segments and [e i] for the value of
    [int((i + 1) * (W / n))] as the code computes it on floats: the
    quotient rounded to a float, the product rounded again, then truncated
    and not rounded to the nearest integer. When these cut points increase
    strictly from [0 < e 0] and end within the words, segment [i] receives
    the [e i - e (i-1)] consecutive words that start at word [e (i-1)] ([0]
    for the first segment), and the last segment receives in addition every
    word left after [e (n-1)]. *)
Theorem redistribute_original_text_words :
  ∀ (full_original_text : str) (processed_segments : list Main.Stamped)
    (e : nat → nat),
    let original_words := words full_original_text in
    let W := length original_words in
    let n := length processed_segments in
    (0 < n)%nat →
    (∀ i, (i < n)%nat →
          PyFloat.imd (Z.of_nat i + 1) (Z.of_nat W) (Z.of_nat n)
          = Some (Z.of_nat (e i))) →
    (∀ i, (i < n)%nat → (start_of e i < e i)%nat) →
    (e (n - 1)%nat ≤ W)%nat →
    MainFloat.redistribute_words original_words processed_segments
    = Some (imap (λ i seg,
                    Main.mkCue (Main.Whole (Main.s_num seg)) (Main.s_timestamp seg)
                      (join [SP]
                         (slice (start_of e i)
                            (if bool_decide (S i = n) then W else e i)
                            original_words)))
                 processed_segments)
    ∧ ∀ i, (S i < n)%nat →
           length (slice (start_of e i) (e i) original_words)
           = (e i - start_of e i)%nat.
Proof.
  intros t segs e ws W n Hn He Hinc Hend.
  assert (∀ i, (i ≤ n)%nat → words_start PyFloat.imd_value W n i = start_of e i) as Hcut.
  { intros [|j] Hj; [done|]. unfold words_start, Main.expected_words_end, start_of.
    rewrite (imd_value_eq _ _ _ _ (He j ltac:(lia))). lia. }
  assert (∀ i, (i < n)%nat →
            (words_start PyFloat.imd_value W n i
             < words_start PyFloat.imd_value W n (S i))%nat) as Hinc'.
  { intros i Hi. rewrite !Hcut by lia. apply (Hinc i Hi). }
  assert (∀ i, (i ≤ n)%nat → (words_start PyFloat.imd_value W n i ≤ W)%nat) as Hle.
  { intros i Hi. assert (∀ k, (i + k ≤ n)%nat →
      (words_start PyFloat.imd_value W n i
       ≤ words_start PyFloat.imd_value W n (i + k))%nat) as Hmono.
    { induction k as [|k IH]; intros Hk; [by rewrite Nat.add_0_r|].
      specialize (IH ltac:(lia)). specialize (Hinc' (i + k)%nat ltac:(lia)).
      replace (i + S k)%nat with (S (i + k)) by lia. lia. }
    specialize (Hmono (n - i)%nat ltac:(lia)).
    replace (i + (n - i))%nat with n in Hmono by lia.
    rewrite (Hcut n) in Hmono by lia. unfold start_of in Hmono.
    destruct n as [|m]; [lia|]. replace (S m - 1)%nat with m in Hend by lia. lia. }
  split.
  - rewrite float_redistribute_words_defined; [|by intros j Hj; rewrite He|done].
    f_equal.
    rewrite (redistribute_words_spec PyFloat.imd_value ws n (words_are_words t)
               Hinc' Hle segs eq_refl Hn).
    apply imap_ext. intros i seg Hi. apply lookup_lt_Some in Hi.
    cbv beta. unfold W, n, ws in *. rewrite (Hcut i) by lia.
    case_bool_decide; [done|]. rewrite (Hcut (S i)) by lia. done.
  - intros i Hi. rewrite slice_length; [done|].
    specialize (Hle (S i) ltac:(lia)). rewrite (Hcut (S i)) in Hle by lia. done.
Qed.

(** Thirty words and twenty-two segments: the cut points on floats are
    1, 2, 4, 5, 6, 8, 9, 10, 12, 13, 14, 16, ..., 28, 29, so that the
    eleventh segment receives one word and the last one the word left after
    the twenty-ninth. *)
Definition thirty_words : str :=
  lit "a b c d e f g h i j k l m n o p q r s t u v w x y z aa bb cc dd".
Definition twenty_two_stamps : list Main.Stamped :=
  (λ k, Main.mkStamped (Z.of_nat k) (lit "00:00:00,000 --> 00:00:01,000")) <$> seq 1 22.
Definition thirty_by_twenty_two (i : nat) : nat :=
  nth i [1; 2; 4; 5; 6; 8; 9; 10; 12; 13; 14; 16; 17; 19; 20; 21; 23; 24; 25; 27;
         28; 29]%nat 0%nat.

Lemma redistribute_original_text_words_witness :
  MainFloat.redistribute_words (words (lit "one two three")) two_stamps
  = Some [ Main.mkCue (Main.Whole 1) (lit "00:00:00,000 --> 00:00:01,000") (lit "one");
           Main.mkCue (Main.Whole 2) (lit "00:00:01,000 --> 00:00:02,000")
             (lit "two three") ]
  ∧ (λ out : list Main.Cue, (λ c, length (words (Main.cue_text c))) <$> out)
      <$> MainFloat.redistribute_words (words thirty_words) twenty_two_stamps
    = Some [1; 1; 2; 1; 1; 2; 1; 1; 2; 1; 1; 2; 1; 2; 1; 1; 2; 1; 1; 2; 1; 2]%nat.
Proof.
  split.
  - rewrite (proj1 (redistribute_original_text_words (lit "one two three") two_stamps
                      (λ i, match i with O => 1 | _ => 3 end)%nat
                      ltac:(simpl; lia)
                      ltac:(intros [|[|i]] Hi; [reflexivity|reflexivity|simpl in Hi; lia])
                      ltac:(intros [|[|i]] Hi; simpl in *; lia)
                      ltac:(vm_compute; lia))).
    reflexivity.
  - rewrite (proj1 (redistribute_original_text_words thirty_words twenty_two_stamps
                      thirty_by_twenty_two
                      ltac:(simpl; lia)
                      ltac:(intros i Hi; do 22 (destruct i as [|i]; [reflexivity|]);
                            simpl in Hi; lia)
                      ltac:(intros i Hi;
                            do 22 (destruct i as [|i];
                                   [cbv [start_of thirty_by_twenty_two nth]; lia|]);
                            simpl in Hi; lia)
                      ltac:(vm_compute; lia))).
    reflexivity.
Defined.

(** C4 as stated fails: with three words and two segments the first segment
    receives one word, where the rounding of the specification gives two. *)
Lemma redistribute_original_text_truncates :
  MainFloat.redistribute_original_text three_words_original two_blocks_processed
  = Some (srt_text ["1"; "00:00:00,000 --> 00:00:01,000"; "one"; "";
                    "2"; "00:00:01,000 --> 00:00:02,000"; "two three"; ""]%string)
  ∧ (λ out : list Main.Cue, (λ c, length (words (Main.cue_text c))) <$> out)
      <$> MainFloat.redistribute_words (words (lit "one two three")) two_stamps
    = Some [1; 2]%nat
  ∧ claimed_word_count 3 2 <$> [0; 1] = [2; 1].
Proof. by vm_compute. Qed.

(** ** Parsing and rendering *)

Section ParseFacts.
Variable pts : str → Z.
Hypothesis pts_nonneg : ∀ s, 0 ≤ pts s.

(** What the parser guarantees of a segment and what the renderer needs:
    times that are not negative and a text that is not empty, neither
    starts nor ends with white space and holds no blank line. *)
Definition well_formed_segment (seg : Segment) : Prop :=
  0 ≤ start_ms seg ∧ 0 ≤ end_ms seg ∧ text seg ≠ []
  ∧ clean (text seg) ∧ ¬ contains [LF; LF] (text seg).

Lemma parse_step_app segments block :
  parse_step pts segments block = segments ++ parse_step pts [] block.
Proof.
  unfold parse_step. repeat case_match; by rewrite ?app_nil_r.
Qed.

Lemma parse_blocks_fold segments blocks :
  foldl (parse_step pts) segments blocks
  = segments ++ concat (parse_step pts [] <$> blocks).
Proof.
  revert segments. induction blocks as [|b blocks IH]; intros segments; simpl.
  - by rewrite app_nil_r.
  - rewrite IH, (parse_step_app segments b). by rewrite <- app_assoc.
Qed.

Lemma is_space_LF : is_space LF.
Proof. done. Qed.

Lemma clean_last_not_LF s : clean s → last s ≠ Some LF.
Proof. intros [_ Hl] E. by specialize (Hl _ E). Qed.

Lemma clean_head_not_LF s : clean s → head s ≠ Some LF.
Proof. intros [Hh _] E. by specialize (Hh _ E). Qed.

(** The text of a parsed block is not empty, is clean and has no blank
    line when the block has none. *)
Lemma parse_step_well_formed block :
  ¬ contains [LF; LF] block →
  Forall well_formed_segment (parse_step pts [] block).
Proof using pts_nonneg.
  intros Hblock. unfold parse_step.
  case_bool_decide as Hne; [done|].
  destruct (Nat.leb_spec 3 (length (split [LF] (strip block)))) as [Hlen|]; [|done].
  destruct (parse_block pts (split [LF] (strip block))) as [seg|] eqn:Ep; [|done].
  constructor; [|done].
  pose proof (join_split [LF] (strip block) ltac:(done)) as Hjoin.
  unfold parse_block in Ep.
  destruct (split [LF] (strip block)) as [|l0 [|l1 rest]]; [done..|].
  destruct (py_int (strip l0)) as [n|]; [|done]. cbn [mbind option_bind] in Ep.
  destruct (split (lit " --> ") (strip l1)) as [|s0 [|s1 [|? ?]]]; try done.
  simplify_eq. unfold well_formed_segment. cbn [start_ms end_ms text].
  split; [apply pts_nonneg|]. split; [apply pts_nonneg|].
  pose proof (strip_is_clean block) as [_ Hlast].
  assert (strip block = (l0 ++ [LF] ++ l1 ++ [LF]) ++ join [LF] rest) as HB.
  { rewrite <- Hjoin. destruct rest as [|r rest]; [simpl in Hlen; lia|].
    rewrite !join_cons by done. by rewrite <- !app_assoc. }
  assert (join [LF] rest ≠ []) as HJ.
  { intros E. rewrite E, app_nil_r in HB. specialize (Hlast LF).
    rewrite HB, !app_assoc, last_snoc in Hlast. by specialize (Hlast eq_refl). }
  split; [|split; [apply strip_is_clean|]].
  - destruct (last (join [LF] rest)) as [d|] eqn:Ed; [|by apply last_None in Ed].
    apply (strip_nonempty _ d).
    + apply last_Some in Ed as [l ->]. apply elem_of_app. right. by left.
    + apply Hlast. rewrite HB, last_app, Ed. done.
  - intros Hc. apply Hblock.
    destruct (strip_decomp (join [LF] rest)) as (l & r & El & _ & _).
    destruct (strip_decomp block) as (l' & r' & El' & _ & _).
    rewrite El'. apply contains_app. rewrite HB.
    rewrite <- (app_nil_r (join [LF] rest)). apply contains_app.
    rewrite El. by apply contains_app.
Qed.

Lemma parse_blocks_well_formed srt_content :
  Forall well_formed_segment (parse_blocks pts srt_content).
Proof using pts_nonneg.
  unfold parse_blocks. rewrite parse_blocks_fold. simpl.
  pose proof (split_pieces [LF; LF] (strip srt_content) ltac:(done)) as Hp.
  induction Hp as [|b blocks Hb _ IH]; simpl; [done|].
  apply Forall_app. split; [by apply parse_step_well_formed|done].
Qed.

End ParseFacts.

Section RenderFacts.

(** The second line of a rendered block. *)
Definition time_line (seg : Segment) : str :=
  TR.format_timestamp (start_ms seg) ++ lit " --> " ++ TR.format_timestamp (end_ms seg).

(** A rendered block without the blank line that ends it. *)
Definition block_text (seg : Segment) : str :=
  py_str (number seg) ++ [LF] ++ time_line seg ++ [LF] ++ text seg.

(** A formatted timestamp: four fields of digits. *)
Definition is_stamp (s : str) : Prop :=
  ∃ hs ms ss mss, s = timestamp_text hs ms ss mss
                  ∧ is_field hs ∧ is_field ms ∧ is_field ss ∧ is_field mss.

Definition stamp_char (c : ascii) : Prop :=
  is_digit c ∨ c = ":"%char ∨ c = ","%char.

Lemma stamp_char_facts c : stamp_char c → non_space c ∧ c ≠ SP ∧ c ≠ LF.
Proof.
  intros [Hd|[->| ->]]; [|done..].
  split; [by apply digit_non_space|]. apply digit_not_punct in Hd. tauto.
Qed.

Lemma stamp_chars s : is_stamp s → Forall stamp_char s ∧ s ≠ [].
Proof.
  intros (hs & ms & ss & mss & -> & [Hh Hh'] & [Hm _] & [Hs _] & [Hms _]).
  unfold timestamp_text. split; [|by destruct hs].
  assert (∀ l, Forall is_digit l → Forall stamp_char l) as Hd.
  { intros l Hl. eapply Forall_impl; [exact Hl|]. intros c Hc. by left. }
  assert (Forall stamp_char (lit ":")) as Hcolon
    by (constructor; [by right; left|constructor]).
  assert (Forall stamp_char (lit ",")) as Hcomma
    by (constructor; [by right; right|constructor]).
  repeat (apply Forall_app; split); auto.
Qed.

Lemma stamp_lacks s c : is_stamp s → c = SP ∨ c = LF → c ∉ s.
Proof.
  intros [Hs _]%stamp_chars Hc Hin. rewrite Forall_forall in Hs.
  apply Hs, stamp_char_facts in Hin as (_ & ? & ?). by destruct Hc.
Qed.

Lemma stamp_clean s : is_stamp s → clean s.
Proof.
  intros [Hs _]%stamp_chars. rewrite Forall_forall in Hs.
  split; intros c Hc; apply stamp_char_facts, Hs.
  - destruct s; simplify_eq/=. by left.
  - apply last_Some in Hc as [l ->]. apply elem_of_app. right. by left.
Qed.

Lemma format_timestamp_stamp t : is_stamp (TR.format_timestamp t).
Proof.
  unfold TR.format_timestamp.
  assert (0 ≤ Z.max 0 t) as Ht by lia. revert Ht. generalize (Z.max 0 t). intros u Hu.
  eexists _, _, _, _. split; [reflexivity|].
  repeat split; try apply format_0d_spec; Z.div_mod_to_equations; lia.
Qed.

Lemma parse_format_timestamp t :
  0 ≤ t → TR.parse_timestamp (TR.format_timestamp t) = t.
Proof.
  intros Ht. unfold TR.format_timestamp. rewrite Z.max_r by done.
  change (?a ++ lit ":" ++ ?b ++ lit ":" ++ ?c ++ lit "," ++ ?d)
    with (timestamp_text a b c d).
  assert (∀ w x, 0 ≤ x → is_field (format_0d w x) ∧ dval 0 (format_0d w x) = x) as Hf.
  { intros w x Hx. destruct (format_0d_spec w x Hx) as (? & ? & ?). by repeat split. }
  destruct (Hf 2%nat (t / (1000 * 60 * 60))) as [F1 V1];
    [Z.div_mod_to_equations; lia|].
  destruct (Hf 2%nat (t `mod` (1000 * 60 * 60) / (1000 * 60))) as [F2 V2];
    [Z.div_mod_to_equations; lia|].
  destruct (Hf 2%nat (t `mod` (1000 * 60) / 1000)) as [F3 V3];
    [Z.div_mod_to_equations; lia|].
  destruct (Hf 3%nat (t `mod` 1000)) as [F4 V4];
    [Z.div_mod_to_equations; lia|].
  rewrite tr_parse_timestamp_fields by done. rewrite V1, V2, V3, V4.
  unfold total_ms_of. Z.div_mod_to_equations. lia.
Qed.

Lemma tr_parse_timestamp_nonneg s : 0 ≤ TR.parse_timestamp s.
Proof.
  unfold TR.parse_timestamp, TR.parse_timestamp_body.
  destruct (split (lit ",") s) as [|tp [|msp [|? ?]]]; try done.
  destruct (split (lit ":") tp) as [|h [|m [|sec [|? ?]]]]; try done.
  destruct (py_int h); [|done]. destruct (py_int m); [|done].
  destruct (py_int sec); [|done]. destruct (py_int msp); [|done].
  simpl. lia.
Qed.

End RenderFacts.

Section RoundTrip.

Lemma clean_app a m b : clean a → a ≠ [] → clean b → b ≠ [] → clean (a ++ m ++ b).
Proof.
  intros [Ha _] Hane [_ Hb] Hbne. split; intros c Hc.
  - apply Ha. destruct a; [done|]. by simplify_eq/=.
  - apply Hb. rewrite !last_app in Hc.
    destruct (last b) eqn:E; [done|]. by apply last_None in E.
Qed.

Lemma no_blank_line_app a b :
  LF ∉ a → ¬ contains [LF; LF] b → head b ≠ Some LF →
  ¬ contains [LF; LF] (a ++ [LF] ++ b).
Proof.
  intros Ha Hb Hh (l & r & E). revert l E.
  induction a as [|c a IH]; intros l E.
  - destruct l as [|d l]; simpl in E.
    + injection E as E. subst b. by apply Hh.
    + injection E as _ E. apply Hb. by exists l, r.
  - destruct l as [|d l]; simpl in E.
    + injection E as E _. apply Ha. rewrite E. by left.
    + injection E as _ E. apply (IH ltac:(intros ?; apply Ha; by right) l). done.
Qed.

Lemma time_line_facts seg :
  clean (time_line seg) ∧ time_line seg ≠ [] ∧ (LF ∉ time_line seg)
  ∧ split (lit " --> ") (time_line seg)
    = [TR.format_timestamp (start_ms seg); TR.format_timestamp (end_ms seg)].
Proof.
  unfold time_line.
  pose proof (format_timestamp_stamp (start_ms seg)) as Hs.
  pose proof (format_timestamp_stamp (end_ms seg)) as He.
  destruct (stamp_chars _ Hs) as [_ Hsne]. destruct (stamp_chars _ He) as [_ Hene].
  split; [|split; [|split]].
  - apply clean_app; auto using stamp_clean.
  - by destruct (TR.format_timestamp (start_ms seg)).
  - rewrite !not_elem_of_app. split; [apply stamp_lacks; auto|].
    split; [|apply stamp_lacks; auto]. by vm_compute; intros H; repeat
      (apply elem_of_cons in H as [H|H]; [discriminate H|]); apply elem_of_nil in H.
  - rewrite split_piece; [|done|apply no_start_first, stamp_lacks; auto].
    f_equal. apply split_single, no_start_first, stamp_lacks; auto.
Qed.

Section Block.
Variable seg : Segment.
Hypothesis Hwf : well_formed_segment seg.

Lemma block_clean : clean (block_text seg) ∧ block_text seg ≠ [].
Proof using Hwf.
  destruct Hwf as (_ & _ & Hne & Hc & _).
  destruct (numeral_clean _ (py_str_numeral (number seg))) as (Hn & Hnne & _).
  destruct (time_line_facts seg) as (Ht & Htne & _).
  unfold block_text. split.
  - apply clean_app; [done..| |by destruct (time_line seg)].
    by apply clean_app.
  - by destruct (py_str (number seg)).
Qed.

Lemma block_no_blank_line :
  ¬ contains [LF; LF] (block_text seg) ∧ last (block_text seg) ≠ Some LF.
Proof using Hwf.
  split; [|apply clean_last_not_LF, block_clean].
  destruct Hwf as (_ & _ & Hne & Hc & Hb).
  destruct (numeral_clean _ (py_str_numeral (number seg))) as (_ & _ & Hn).
  destruct (time_line_facts seg) as (Ht & Htne & Htl & _).
  unfold block_text. apply no_blank_line_app; [done| |].
  - apply no_blank_line_app; [done..|]. by apply clean_head_not_LF.
  - rewrite head_app. destruct (head (time_line seg)) eqn:E.
    + rewrite <- E. by apply clean_head_not_LF.
    + by destruct (time_line seg).
Qed.

Lemma block_lines :
  split [LF] (block_text seg)
  = py_str (number seg) :: time_line seg :: split [LF] (text seg).
Proof.
  destruct (numeral_clean _ (py_str_numeral (number seg))) as (_ & _ & Hn).
  destruct (time_line_facts seg) as (_ & _ & Htl & _).
  unfold block_text.
  rewrite split_piece; [|done|by apply no_start_first].
  rewrite split_piece; [|done|by apply no_start_first]. done.
Qed.

Lemma parse_step_block : parse_step TR.parse_timestamp [] (block_text seg) = [seg].
Proof using Hwf.
  destruct block_clean as [Hc Hne].
  destruct Hwf as (Hs & He & Htne & Htc & _).
  destruct (time_line_facts seg) as (Hlc & _ & _ & Harrow).
  unfold parse_step. rewrite (strip_clean_id _ Hc), bool_decide_false by done.
  rewrite block_lines.
  pose proof (split_not_nil [LF] (text seg)) as Hsp.
  destruct (Nat.leb_spec 3 (length (py_str (number seg) :: time_line seg
                                      :: split [LF] (text seg)))) as [_|Hlen].
  2:{ destruct (split [LF] (text seg)); [done|]. simpl in Hlen. lia. }
  unfold parse_block.
  rewrite (strip_clean_id (py_str _))
    by apply numeral_clean, py_str_numeral.
  rewrite py_int_py_str. cbn [mbind option_bind].
  rewrite (strip_clean_id _ Hlc), Harrow.
  rewrite !(strip_clean_id (TR.format_timestamp _))
    by apply stamp_clean, format_timestamp_stamp.
  rewrite !parse_format_timestamp by done.
  rewrite join_split by done. rewrite (strip_clean_id _ Htc).
  by destruct seg.
Qed.

End Block.

Lemma srt_lines_concat segments :
  TR.srt_lines segments
  = concat ((λ seg, [py_str (number seg); time_line seg; text seg; []]) <$> segments).
Proof.
  unfold TR.srt_lines.
  enough (∀ acc, foldl (λ acc segment,
             acc ++ [py_str (number segment);
                     TR.format_timestamp (start_ms segment) ++ lit " --> "
                       ++ TR.format_timestamp (end_ms segment);
                     text segment; []]) acc segments
           = acc ++ concat ((λ seg, [py_str (number seg); time_line seg; text seg; []])
                              <$> segments)) as H by apply (H []).
  induction segments as [|seg segments IH]; intros acc; simpl.
  - by rewrite app_nil_r.
  - rewrite IH. by rewrite <- app_assoc.
Qed.

Lemma join_srt_lines segments :
  segments ≠ [] →
  join [LF] (TR.srt_lines segments) = join [LF; LF] (block_text <$> segments) ++ [LF].
Proof.
  intros Hne. rewrite srt_lines_concat.
  induction segments as [|seg segments IH]; [done|].
  rewrite !fmap_cons. cbn [concat].
  destruct segments as [|seg' segments].
  - simpl. unfold block_text. rewrite <- !app_assoc. done.
  - rewrite join_app by done. rewrite IH by done.
    rewrite (join_cons [LF; LF]) by done.
    simpl join at 1. unfold block_text.
    repeat (rewrite <- app_assoc; cbn [app]). done.
Qed.

Lemma join_not_nil sep x (l : list str) : x ≠ [] → join sep (x :: l) ≠ [].
Proof. intros Hx. destruct l; simpl; by destruct x. Qed.

Lemma blocks_clean segments :
  Forall well_formed_segment segments → segments ≠ [] →
  clean (join [LF; LF] (block_text <$> segments)).
Proof.
  induction 1 as [|seg segments Hseg Hsegs IH]; intros _; [done|].
  destruct segments as [|seg' segments].
  - simpl. by apply block_clean.
  - rewrite fmap_cons, join_cons by done.
    destruct (block_clean seg Hseg) as [Hc Hne].
    apply clean_app; [done..|by apply IH|].
    rewrite fmap_cons. apply join_not_nil.
    by apply (block_clean seg' (Forall_inv Hsegs)).
Qed.

Lemma split_blocks segments :
  Forall well_formed_segment segments → segments ≠ [] →
  split [LF; LF] (join [LF; LF] (block_text <$> segments)) = block_text <$> segments.
Proof.
  induction 1 as [|seg segments Hseg Hsegs IH]; intros Hne; [done|].
  destruct (block_no_blank_line seg Hseg) as [Hnb Hlast].
  destruct segments as [|seg' segments].
  - change (block_text <$> [seg]) with [block_text seg]. cbn [join].
    apply split_single. intros l t Hl Ht. rewrite Hl in Hnb.
    rewrite app_nil_r. destruct (startswith [LF; LF] t) eqn:E; [|done].
    apply startswith_prefix in E as [r ->]. destruct Hnb. by exists l, r.
  - rewrite fmap_cons, join_cons by done.
    rewrite split_piece; [|done|by apply no_start_blank_line].
    f_equal. by apply IH.
Qed.

Lemma parse_render segments :
  Forall well_formed_segment segments →
  TR.parse_srt_content (TR.render_srt segments) = segments.
Proof.
  intros Hwf. destruct (decide (segments = [])) as [->|Hne]; [done|].
  unfold TR.render_srt, TR.parse_srt_content, parse_blocks.
  rewrite join_srt_lines by done.
  pose proof (blocks_clean segments Hwf Hne) as Hc.
  rewrite strip_app_spaces by (done || by repeat constructor).
  rewrite (strip_clean_id _ Hc), split_blocks by done.
  rewrite parse_blocks_fold. simpl.
  induction Hwf as [|seg segments Hseg Hsegs IH]; [done|].
  rewrite fmap_cons, fmap_cons. cbn [concat].
  rewrite parse_step_block by done.
  destruct (decide (segments = [])) as [->|Hne']; [done|].
  simpl. f_equal. apply IH; [done|]. by apply blocks_clean.
Qed.

End RoundTrip.

(** C9. Parsing followed by rendering is an idempotent normalisation: for
    every text [T], rendering the segments parsed from the rendering of the
    segments parsed from [T] gives that rendering again. The parser is
    [parse_srt_content]; the renderer writes, for each segment, its number,
    the line of its two formatted times, its text and an empty line. *)
Theorem parse_render_idempotent :
  ∀ T : str,
    TR.render_srt (TR.parse_srt_content (TR.render_srt (TR.parse_srt_content T)))
    = TR.render_srt (TR.parse_srt_content T).
Proof.
  intros T. rewrite parse_render; [done|].
  apply parse_blocks_well_formed, tr_parse_timestamp_nonneg.
Qed.

(** ** The scenarios of the specification *)

(** Three segments with gaps of 100 ms and 900 ms at a threshold of 500 ms:
    the first two form a group, the third a group of its own. *)
Example grouping_scenario :
  TR.group_continuous_subtitles
    [ mkSegment 1 0 1000 (lit "Hello there");
      mkSegment 2 1100 2000 (lit "how are you today");
      mkSegment 3 2900 4000 (lit "my friend") ] 500
  = [ [ mkSegment 1 0 1000 (lit "Hello there");
        mkSegment 2 1100 2000 (lit "how are you today") ];
      [ mkSegment 3 2900 4000 (lit "my friend") ] ].
Proof. reflexivity. Qed.

(** A block without the arrow is skipped and its neighbours are parsed. *)
Example malformed_block_scenario :
  TR.parse_srt_content
    (srt_text ["1"; "00:00:00,000 --> 00:00:01,000"; "one"; "";
               "2"; "00:00:01,000 00:00:02,000"; "two"; "";
               "3"; "00:00:02,000 --> 00:00:03,500"; "three"; "lines"]%string)
  = [ mkSegment 1 0 1000 (lit "one");
      mkSegment 3 2000 3500 (srt_text ["three"; "lines"]%string) ].
Proof. by vm_compute. Qed.

Example render_scenario :
  TR.render_srt [ mkSegment 1 0 1000 (lit "one"); mkSegment 3 2000 3500 (lit "three") ]
  = srt_text ["1"; "00:00:00,000 --> 00:00:01,000"; "one"; "";
              "3"; "00:00:02,000 --> 00:00:03,500"; "three"]%string.
Proof. by vm_compute. Qed.

Example python_strings :
  split (lit "--") (lit "a---b--") = [lit "a"; lit "-b"; lit ""]
  ∧ words (lit "  ab  c d ") = [lit "ab"; lit "c"; lit "d"]
  ∧ remove_tags (lit "<>a<i>b</i><c") = lit "<>ab<c"
  ∧ py_int <$> [lit " 12 "; lit "-007"; lit "1_0"; lit "_1"; lit "1__0"; lit "+"]
    = [Some 12; Some (-7); Some 10; None; None; None]
  ∧ format_0d 3 <$> [0; 7; 1234567] = [lit "000"; lit "007"; lit "1234567"].
Proof. by vm_compute. Qed.

(** * Further properties of the engine *)

(** ** The timestamp codec, both ways *)

Lemma main_parse_timestamp_nonneg s : 0 ≤ Main.parse_timestamp s.
Proof.
  unfold Main.parse_timestamp, Main.parse_timestamp_body.
  destruct (split (lit ",") s) as [|tp [|msp [|? ?]]]; try done.
  destruct (split (lit ":") tp) as [|h [|m [|sec [|? ?]]]]; try done.
  destruct (py_int h); [|done]. destruct (py_int m); [|done].
  destruct (py_int sec); [|done]. destruct (py_int msp); [|done].
  simpl. case_match; simpl; lia.
Qed.

Lemma field_format_0d w x : 0 ≤ x → is_field (format_0d w x) ∧ dval 0 (format_0d w x) = x.
Proof. intros Hx. destruct (format_0d_spec w x Hx) as (? & ? & ?). by repeat split. Qed.

(** X1. In [timing_redistributor.py], parsing a formatted time gives the
    time back, and a negative time is formatted as zero. *)
Theorem tr_timestamp_round_trip :
  ∀ total_ms : Z, TR.parse_timestamp (TR.format_timestamp total_ms) = Z.max 0 total_ms.
Proof.
  intros t. rewrite <- (parse_format_timestamp (Z.max 0 t)) by lia.
  unfold TR.format_timestamp. by rewrite Z.max_r with (m := Z.max 0 t) by lia.
Qed.

(** The hours, minutes, seconds and milliseconds of a time. *)
Lemma clock_fields u :
  0 ≤ u →
  0 ≤ u / 1000 / 3600
  ∧ 0 ≤ (u / 1000) mod 3600 / 60 ≤ 59
  ∧ 0 ≤ (u / 1000) mod 60 ≤ 59
  ∧ 0 ≤ u mod 1000 ≤ 999
  ∧ u / 1000 / 3600 = u / 3600000
  ∧ ((u / 1000) mod 3600 / 60 * 60 + (u / 1000) mod 60) * 1000 + u mod 1000
    = u mod 3600000.
Proof. intros Hu. Z.div_mod_to_equations. lia. Qed.

(** What [parse_timestamp] of [main.py] reads in a formatted time. *)
Lemma main_parse_format_timestamp t :
  Main.parse_timestamp (Main.format_timestamp t)
  = if t <? 0 then 0 else Z.min 99 (t / 3600000) * 3600000 + t mod 3600000.
Proof.
  unfold Main.format_timestamp.
  set (u := if t <? 0 then 0 else t).
  assert (0 ≤ u) as Hu by (unfold u; destruct (Z.ltb_spec t 0); lia).
  destruct (clock_fields u Hu) as (Hh & Hm & Hs & Hms & Eh & Eu).
  cbv zeta.
  set (h := u / 1000 / 3600) in *.
  set (m := (u / 1000) mod 3600 / 60) in *.
  set (sec := (u / 1000) mod 60) in *.
  set (ms := u mod 1000) in *.
  replace (Z.max 0 (Z.min 99 h)) with (Z.min 99 h) by lia.
  replace (Z.max 0 (Z.min 59 m)) with m by lia.
  replace (Z.max 0 (Z.min 59 sec)) with sec by lia.
  replace (Z.max 0 (Z.min 999 ms)) with ms by lia.
  change (?a ++ lit ":" ++ ?b ++ lit ":" ++ ?c ++ lit "," ++ ?d)
    with (timestamp_text a b c d).
  destruct (field_format_0d 2 (Z.min 99 h)) as [F1 V1]; [lia|].
  destruct (field_format_0d 2 m) as [F2 V2]; [lia|].
  destruct (field_format_0d 2 sec) as [F3 V3]; [lia|].
  destruct (field_format_0d 3 ms) as [F4 V4]; [lia|].
  rewrite main_parse_timestamp_fields by done. rewrite V1, V2, V3, V4.
  rewrite (proj2 (Z.leb_le m 59)), (proj2 (Z.leb_le sec 59)),
    (proj2 (Z.leb_le ms 999)) by lia.
  cbn [andb]. unfold total_ms_of.
  transitivity (Z.min 99 (u / 3600000) * 3600000 + u mod 3600000).
  - rewrite <- Eh, <- Eu. fold h. lia.
  - unfold u. by destruct (Z.ltb_spec t 0).
Qed.

Lemma main_parse_format_timestamp_id t :
  0 ≤ t < 360000000 → Main.parse_timestamp (Main.format_timestamp t) = t.
Proof.
  intros Ht. rewrite main_parse_format_timestamp.
  destruct (Z.ltb_spec t 0); [lia|].
  pose proof (Z.div_mod t 3600000 ltac:(lia)) as Hd.
  assert (t / 3600000 < 100) by (apply Z.div_lt_upper_bound; lia).
  lia.
Qed.

(** X2. In [main.py], parsing a formatted time gives the time back up to
    99:59:59,999; from one hundred hours on the hours are clamped to 99 and
    the minutes, seconds and milliseconds are kept; a negative time is
    formatted as zero. *)
Theorem main_timestamp_round_trip :
  ∀ total_ms : Z,
    Main.parse_timestamp (Main.format_timestamp total_ms)
    = (if total_ms <? 0 then 0
       else Z.min 99 (total_ms / 3600000) * 3600000 + total_ms mod 3600000)
    ∧ (0 ≤ total_ms < 360000000 →
       Main.parse_timestamp (Main.format_timestamp total_ms) = total_ms).
Proof.
  intros t. split.
  - apply main_parse_format_timestamp.
  - apply main_parse_format_timestamp_id.
Qed.

(** X3. The two [parse_timestamp] never return a negative number, and the
    one of [main.py] returns either what the one of
    [timing_redistributor.py] returns or 0. *)
Theorem parse_timestamp_agreement :
  ∀ timestamp_str : str,
    0 ≤ TR.parse_timestamp timestamp_str
    ∧ 0 ≤ Main.parse_timestamp timestamp_str
    ∧ (Main.parse_timestamp timestamp_str = TR.parse_timestamp timestamp_str
       ∨ Main.parse_timestamp timestamp_str = 0).
Proof.
  intros s. split; [apply tr_parse_timestamp_nonneg|].
  split; [apply main_parse_timestamp_nonneg|].
  unfold Main.parse_timestamp, Main.parse_timestamp_body,
    TR.parse_timestamp, TR.parse_timestamp_body.
  destruct (split (lit ",") s) as [|tp [|msp [|? ?]]]; auto.
  destruct (split (lit ":") tp) as [|h [|m [|sec [|? ?]]]]; auto.
  destruct (py_int h); [|auto]. destruct (py_int m); [|auto].
  destruct (py_int sec); [|auto]. destruct (py_int msp); [|auto].
  simpl. case_match; auto.
Qed.

(** ** The parser and the renderer *)

(** X4. Every segment [parse_srt_content] returns, and every segment the
    parsing loop of [group_continuous_subtitles_for_timing] builds, has
    times that are not negative and a text that is not empty, neither starts
    nor ends with white space and holds no blank line. *)
Theorem parse_srt_content_well_formed :
  ∀ srt_content : str,
    Forall well_formed_segment (TR.parse_srt_content srt_content)
    ∧ Forall well_formed_segment (parse_blocks Main.parse_timestamp srt_content).
Proof.
  intros T. split.
  - apply parse_blocks_well_formed, tr_parse_timestamp_nonneg.
  - apply parse_blocks_well_formed, main_parse_timestamp_nonneg.
Qed.

(** X5. On segments of that kind the renderer loses nothing: parsing the
    rendered text gives the segments back, numbers, times and texts. *)
Theorem render_then_parse :
  ∀ segments : list Segment,
    Forall well_formed_segment segments →
    TR.parse_srt_content (TR.render_srt segments) = segments.
Proof. apply parse_render. Qed.

(** Checks by computation, for the samples. *)
Fixpoint containsb (sep s : str) : bool :=
  startswith sep s || match s with [] => false | _ :: s' => containsb sep s' end.

Definition cleanb (s : str) : bool :=
  from_option (λ c, negb (isspace c)) true (head s)
  && from_option (λ c, negb (isspace c)) true (last s).

Definition well_formed_segmentb (seg : Segment) : bool :=
  (0 <=? start_ms seg) && (0 <=? end_ms seg)
  && negb (bool_decide (text seg = [])) && cleanb (text seg)
  && negb (containsb [LF; LF] (text seg)).

Lemma containsb_spec sep s : contains sep s → containsb sep s = true.
Proof.
  intros (l & r & ->). induction l as [|c l IH].
  - simpl "++". destruct (sep ++ r) eqn:E; simpl; rewrite <- E, startswith_app; done.
  - cbn [app containsb]. rewrite IH. apply orb_true_r.
Qed.

Lemma well_formed_segmentb_spec seg :
  well_formed_segmentb seg = true → well_formed_segment seg.
Proof.
  unfold well_formed_segmentb, cleanb, well_formed_segment.
  rewrite !andb_true_iff. intros ((((H1 & H2) & H3) & (H4 & H5)) & H6).
  repeat split.
  - by apply Z.leb_le.
  - by apply Z.leb_le.
  - intros E. rewrite E in H3. done.
  - intros c Hc. rewrite Hc in H4. simpl in H4. unfold non_space.
    by destruct (isspace c).
  - intros c Hc. rewrite Hc in H5. simpl in H5. unfold non_space.
    by destruct (isspace c).
  - intros Hc. apply containsb_spec in Hc. by rewrite Hc in H6.
Qed.

Lemma sample_group_well_formed : Forall well_formed_segment sample_group.
Proof. repeat constructor; by apply well_formed_segmentb_spec. Defined.

Lemma render_then_parse_witness :
  TR.parse_srt_content (TR.render_srt sample_group) = sample_group.
Proof. apply (render_then_parse sample_group sample_group_well_formed). Defined.

(** ** The continuity grouper, further *)

Section GroupingMore.
Variable max_gap_ms : Z.

Lemma all_adjacent_middle {A} (R : A → A → Prop) l a b r :
  all_adjacent R (l ++ a :: b :: r) → R a b.
Proof.
  intros H. apply (H (length l)).
  - by rewrite list_lookup_middle.
  - replace (S (length l)) with (length (l ++ [a])) by (rewrite length_app; simpl; lia).
    change (l ++ a :: b :: r) with (l ++ [a] ++ b :: r).
    by rewrite app_assoc, list_lookup_middle.
Qed.

Lemma group_loop_single_run groups current_group prev rest :
  last current_group = Some prev →
  all_adjacent (continues max_gap_ms) (current_group ++ rest) →
  group_loop max_gap_ms groups current_group prev rest
  = groups ++ [current_group ++ rest].
Proof.
  revert current_group prev.
  induction rest as [|curr rest IH]; intros cur prev Hl Hc; simpl.
  - rewrite app_nil_r. by destruct cur.
  - apply last_Some in Hl as [cur' ->].
    rewrite <- app_assoc in Hc. pose proof (all_adjacent_middle _ _ _ _ _ Hc) as Hgap.
    unfold continues in Hgap.
    destruct (Z.leb_spec (start_ms curr - end_ms prev) max_gap_ms); [|lia].
    rewrite IH.
    + by rewrite <- !app_assoc.
    + by rewrite last_snoc.
    + by rewrite <- !app_assoc.
Qed.

(** The number of gaps of [prev :: rest] that exceed the threshold. *)
Fixpoint count_breaks (mg : Z) (prev : Segment) (rest : list Segment) : nat :=
  match rest with
  | [] => 0
  | curr :: rest' =>
      (if start_ms curr - end_ms prev <=? mg then 0 else 1) + count_breaks mg curr rest'
  end.

Lemma group_loop_length groups current_group prev rest :
  current_group ≠ [] →
  length (group_loop max_gap_ms groups current_group prev rest)
  = (length groups + 1 + count_breaks max_gap_ms prev rest)%nat.
Proof.
  revert groups current_group prev.
  induction rest as [|curr rest IH]; intros groups cur prev Hc; simpl.
  - destruct cur; [done|]. rewrite length_app. simpl. lia.
  - destruct (_ <=? _).
    + rewrite IH by (by destruct cur). lia.
    + rewrite IH by done. rewrite length_app. simpl. lia.
Qed.

End GroupingMore.

Lemma count_breaks_bound mg prev rest : (count_breaks mg prev rest ≤ length rest)%nat.
Proof.
  revert prev. induction rest as [|c rest IH]; intros prev; simpl; [done|].
  specialize (IH c). destruct (_ <=? _); lia.
Qed.

Lemma count_breaks_mono mg mg' prev rest :
  mg ≤ mg' → (count_breaks mg' prev rest ≤ count_breaks mg prev rest)%nat.
Proof.
  intros H. revert prev. induction rest as [|c rest IH]; intros prev; simpl; [done|].
  specialize (IH c).
  destruct (Z.leb_spec (start_ms c - end_ms prev) mg),
    (Z.leb_spec (start_ms c - end_ms prev) mg'); lia.
Qed.

(** X6. Every group [group_continuous_subtitles] returns is stable: grouped
    again on its own with the same threshold, it comes back as the one
    group. *)
Theorem group_continuous_subtitles_stable :
  ∀ (segments : list Segment) (max_gap_ms : Z),
    Forall (λ g, TR.group_continuous_subtitles g max_gap_ms = [g])
      (TR.group_continuous_subtitles segments max_gap_ms).
Proof.
  intros segments mg. unfold TR.group_continuous_subtitles.
  assert (Forall (λ g, g ≠ [] ∧ all_adjacent (continues mg) g)
            (group_segments segments mg)) as H.
  { apply Forall_and. destruct segments as [|s0 rest]; [by split|]. split.
    - by apply group_loop_nonempty.
    - apply group_loop_runs; first [done | apply all_adjacent_singleton]. }
  eapply Forall_impl; [exact H|]. intros [|s0 g] [Hne Hc]; [done|].
  simpl. by rewrite group_loop_single_run.
Qed.

(** X7. There are at most as many groups as segments, and a larger
    threshold never gives more groups. *)
Theorem group_continuous_subtitles_monotone :
  ∀ (segments : list Segment) (max_gap_ms max_gap_ms' : Z),
    max_gap_ms ≤ max_gap_ms' →
    (length (TR.group_continuous_subtitles segments max_gap_ms') ≤
       length (TR.group_continuous_subtitles segments max_gap_ms))%nat
    ∧ (length (TR.group_continuous_subtitles segments max_gap_ms) ≤ length segments)%nat.
Proof.
  intros [|s0 rest] mg mg' H; [done|].
  unfold TR.group_continuous_subtitles. simpl.
  rewrite !group_loop_length by done. simpl.
  pose proof (count_breaks_mono mg mg' s0 rest H).
  pose proof (count_breaks_bound mg s0 rest). lia.
Qed.

Lemma group_continuous_subtitles_monotone_witness :
  (length (TR.group_continuous_subtitles sample_group 150) ≤
     length (TR.group_continuous_subtitles sample_group 100))%nat
  ∧ (length (TR.group_continuous_subtitles sample_group 100) ≤ length sample_group)%nat.
Proof. apply (group_continuous_subtitles_monotone sample_group 100 150). lia. Defined.

(** ** The timing redistributor, further *)

(** What redistribution must leave alone. *)
Definition label (seg : Segment) : Z * str := (number seg, text seg).

(** The next segment starts [gap] after the previous one ends. *)
Definition follows (gap : Z) (prev next : Segment) : Prop :=
  start_ms next = end_ms prev + gap.

Section RedistributionMore.
Variable imd : Z → Z → Z → Z.

Lemma label_insert (l : list Segment) i x y :
  l !! i = Some y → label x = label y → label <$> <[i:=x]> l = label <$> l.
Proof.
  intros Hy Hx. rewrite list_fmap_insert. apply list_insert_id.
  by rewrite list_lookup_fmap, Hy, Hx.
Qed.

Lemma label_alter (f : Segment → Segment) (l : list Segment) i :
  (∀ s, label (f s) = label s) → label <$> alter f i l = label <$> l.
Proof.
  intros Hf. apply list_eq. intros j.
  rewrite !list_lookup_fmap, list_lookup_alter.
  destruct (decide (i = j)) as [->|]; [|done].
  destruct (l !! j); simpl; [|done]. by rewrite Hf.
Qed.

Lemma tr_loop_label n tw td ge mind i cur segs :
  label <$> TR.redistribute_loop imd n tw td ge mind i cur segs = label <$> segs.
Proof.
  revert i cur. induction segs as [|s segs IH]; intros i cur; [done|].
  cbn [TR.redistribute_loop]. rewrite !fmap_cons, IH. done.
Qed.

Lemma main_loop_label n tw cd ge mind gap i cur segs :
  label <$> Main.redistribute_loop imd n tw cd ge mind gap i cur segs = label <$> segs.
Proof.
  revert i cur. induction segs as [|s segs IH]; intros i cur; [done|].
  cbn [Main.redistribute_loop]. rewrite !fmap_cons, IH. done.
Qed.

Lemma fix_overlap_at_label mind gap (l : list Segment) i :
  label <$> Main.fix_overlap_at mind gap l i = label <$> l.
Proof.
  unfold Main.fix_overlap_at.
  destruct (l !! i) as [c|] eqn:Ec; [|done].
  destruct (l !! S i) as [x|] eqn:Ex; [|done].
  repeat case_match; try done.
  - rewrite (label_insert _ _ _ x), (label_insert _ _ _ c); try done.
    by rewrite list_lookup_insert_ne by lia.
  - by rewrite (label_insert _ _ _ c).
  - by rewrite (label_insert _ _ _ c).
Qed.

Lemma verify_no_overlaps_label mind gap (l : list Segment) :
  label <$> Main.verify_no_overlaps mind gap l = label <$> l.
Proof.
  unfold Main.verify_no_overlaps.
  apply (foldl_invariant (λ l', label <$> l' = label <$> l)); [done|].
  intros a b <-. apply fix_overlap_at_label.
Qed.

(** The loop of [timing_redistributor.py] stays within the group and
    leaves no gap. *)
Lemma tr_loop_within n tw td lo hi mind i cur segs :
  0 ≤ mind → lo ≤ cur ≤ hi →
  Forall (λ s, lo ≤ start_ms s ∧ start_ms s ≤ end_ms s ∧ end_ms s ≤ hi)
    (TR.redistribute_loop imd n tw td hi mind i cur segs).
Proof.
  intros Hm. revert i cur. induction segs as [|s segs IH]; intros i cur Hc; [done|].
  cbn [TR.redistribute_loop].
  set (e := if bool_decide (i = (n - 1)%nat) then hi
            else if cur + Z.max (imd td (TR.word_count s) tw) mind >? hi then hi
                 else cur + Z.max (imd td (TR.word_count s) tw) mind).
  assert (cur ≤ e ≤ hi) as He.
  { unfold e. case_bool_decide; [lia|].
    destruct (Z.gtb_spec (cur + Z.max (imd td (TR.word_count s) tw) mind) hi); lia. }
  constructor; [simpl; lia|]. apply IH. lia.
Qed.

Lemma tr_loop_follows n tw td ge mind i cur segs :
  all_adjacent (follows 0) (TR.redistribute_loop imd n tw td ge mind i cur segs).
Proof.
  revert i cur. induction segs as [|s segs IH]; intros i cur.
  - apply all_adjacent_nil.
  - cbn [TR.redistribute_loop]. apply all_adjacent_cons; split; [|apply IH].
    intros b Hb. apply tr_loop_head in Hb. unfold follows. simpl. lia.
Qed.

Lemma set_last_end_follows gap v (l : list Segment) :
  all_adjacent (follows gap) l →
  all_adjacent (follows gap) (alter (λ s, with_end s v) (length l - 1)%nat l).
Proof.
  intros H i x y Hx Hy.
  assert (S i < length l)%nat as Hlt.
  { apply lookup_lt_Some in Hy. by rewrite length_alter in Hy. }
  rewrite list_lookup_alter_ne in Hx by lia.
  rewrite list_lookup_alter in Hy.
  destruct (decide ((length l - 1)%nat = S i)) as [E1|].
  - rewrite E1 in Hy. destruct (l !! S i) as [y0|] eqn:E; simplify_eq/=.
    unfold follows. simpl. by apply (H i x y0).
  - by apply (H i x y).
Qed.

(** The loop of [main.py] puts the gap between neighbours and gives each
    segment at least the minimum duration. *)
Lemma main_loop_follows n tw cd ge mind gap i cur segs :
  all_adjacent (follows gap)
    (Main.redistribute_loop imd n tw cd ge mind gap i cur segs).
Proof.
  revert i cur. induction segs as [|s segs IH]; intros i cur.
  - apply all_adjacent_nil.
  - cbn [Main.redistribute_loop]. apply all_adjacent_cons; split; [|apply IH].
    intros b Hb. apply main_loop_head in Hb. unfold follows. by rewrite Hb.
Qed.

Lemma main_loop_min n tw cd ge mind gap i cur segs :
  Forall (λ s, mind ≤ end_ms s - start_ms s)
    (Main.redistribute_loop imd n tw cd ge mind gap i cur segs).
Proof.
  revert i cur. induction segs as [|s segs IH]; intros i cur; [done|].
  cbn [Main.redistribute_loop]. constructor; [simpl; lia|]. apply IH.
Qed.

(** Every segment of [l] but the last lasts at least [mind]. *)
Definition inner_min (mind : Z) (l : list Segment) : Prop :=
  ∀ i s, (S i < length l)%nat → l !! i = Some s → mind ≤ end_ms s - start_ms s.

Lemma with_end_same s : with_end s (end_ms s) = s.
Proof. by destruct s. Qed.

Lemma verify_no_overlaps_id mind gap (l : list Segment) :
  0 ≤ gap → all_adjacent (follows gap) l → inner_min mind l →
  Main.verify_no_overlaps mind gap l = l.
Proof.
  intros Hgap Hf Hm. unfold Main.verify_no_overlaps.
  apply (foldl_invariant (λ l', l' = l)); [done|].
  intros a i ->. unfold Main.fix_overlap_at.
  destruct (l !! i) as [c|] eqn:Ec; [|done].
  destruct (l !! S i) as [x|] eqn:Ex; [|done].
  pose proof (Hf i c x Ec Ex) as Hcx. unfold follows in Hcx.
  pose proof (Hm i c ltac:(by apply lookup_lt_Some in Ex) Ec) as Hmin.
  destruct (Z.geb_spec (end_ms c) (start_ms x)); [|done].
  assert (gap = 0) as -> by lia.
  replace (start_ms x - 0) with (end_ms c) by lia. rewrite with_end_same.
  destruct (Z.ltb_spec (end_ms c - start_ms c) mind); [lia|].
  by apply list_insert_id.
Qed.

End RedistributionMore.

(** X8. Redistribution changes times only: whatever the group, the list
    [redistribute_timing_in_group] returns has the numbers and the texts of
    the group, in the same order. *)
Theorem redistribute_timing_in_group_keeps_labels :
  ∀ (imd : Z → Z → Z → Z) (group : list Segment) (min_duration_ms gap_ms : Z),
    label <$> TR.redistribute_timing_in_group imd group min_duration_ms
      = label <$> group
    ∧ label <$> Main.redistribute_timing_in_group imd group min_duration_ms gap_ms
      = label <$> group.
Proof.
  intros imd group mind gap.
  unfold TR.redistribute_timing_in_group, Main.redistribute_timing_in_group.
  destruct (length group <=? 1)%nat; [done|].
  split.
  - destruct (_ =? 0); [done|].
    destruct (head group), (last group); try done.
    destruct (_ <=? 0); [done|].
    by rewrite label_alter, tr_loop_label.
  - destruct (_ =? 0); [done|].
    destruct (head group), (last group); try done.
    destruct (_ <=? 0); [done|].
    destruct (_ <=? 0); cbv beta iota zeta.
    all: match goal with
         | |- context [Main.redistribute_loop ?a ?b ?c ?d ?e ?f ?g ?h ?i ?j] =>
             pose proof (main_loop_label a b c d e f g h i j) as Hl;
             destruct (Main.redistribute_loop a b c d e f g h i j) as [|r0 out]
         end; [done|].
    all: by rewrite verify_no_overlaps_label, label_alter.
Qed.

(** X9. In [timing_redistributor.py], with a minimum duration that is not
    negative, the segments returned for a group with words and a positive
    duration lie within the group, none ends before it starts, and each
    starts exactly where the one before ends. *)
Theorem tr_redistribute_timing_in_group_within :
  ∀ (imd : Z → Z → Z → Z) (group : list Segment) (min_duration_ms : Z)
    (first final : Segment),
    (2 ≤ length group)%nat → 0 < total_words_of group →
    head group = Some first → last group = Some final →
    0 < end_ms final - start_ms first → 0 ≤ min_duration_ms →
    Forall (λ s, start_ms first ≤ start_ms s ∧ start_ms s ≤ end_ms s
                 ∧ end_ms s ≤ end_ms final)
      (TR.redistribute_timing_in_group imd group min_duration_ms)
    ∧ all_adjacent (follows 0)
        (TR.redistribute_timing_in_group imd group min_duration_ms).
Proof.
  intros imd group mind first final Hlen Hw Hh Hl Hd Hm.
  unfold TR.redistribute_timing_in_group.
  change (sum_Z (map TR.word_count group)) with (total_words_of group).
  destruct (Nat.leb_spec (length group) 1) as [|_]; [lia|].
  destruct (Z.eqb_spec (total_words_of group) 0) as [|_]; [lia|].
  rewrite Hh, Hl.
  destruct (Z.leb_spec (end_ms final - start_ms first) 0) as [|_]; [lia|].
  split.
  - apply Forall_alter.
    + apply tr_loop_within; lia.
    + intros s _ (? & ? & ?). simpl. lia.
  - apply set_last_end_follows, tr_loop_follows.
Qed.

Lemma tr_redistribute_timing_in_group_within_witness :
  Forall (λ s, 0 ≤ start_ms s ∧ start_ms s ≤ end_ms s ∧ end_ms s ≤ 9000)
    (TR.redistribute_timing_in_group exact_imd sample_group 1200)
  ∧ all_adjacent (follows 0)
      (TR.redistribute_timing_in_group exact_imd sample_group 1200).
Proof.
  apply (tr_redistribute_timing_in_group_within exact_imd sample_group 1200
           (mkSegment 1 0 2000 (lit "Hello there"))
           (mkSegment 3 5200 9000 (lit "my friend")));
    [simpl; lia | vm_compute; reflexivity | reflexivity | reflexivity
    | simpl; lia | lia].
Defined.

(** X10. In [main.py], with a gap that is not negative, the segments
    returned for a group with words and a positive duration are spaced by
    exactly the gap in force - the gap asked for or, when the gaps alone
    would fill the group, the larger of 10 ms and the group's duration
    divided by four times the number of segments - and every segment but
    the last lasts at least the minimum duration. *)
Theorem main_redistribute_timing_in_group_spacing :
  ∀ (imd : Z → Z → Z → Z) (group : list Segment) (min_duration_ms gap_ms : Z)
    (first final : Segment),
    (2 ≤ length group)%nat → 0 < total_words_of group →
    head group = Some first → last group = Some final →
    0 < end_ms final - start_ms first → 0 ≤ gap_ms →
    let total_available_ms := end_ms final - start_ms first in
    let num_gaps := Z.of_nat (length group) - 1 in
    let gap_in_force :=
      if total_available_ms - num_gaps * gap_ms <=? 0
      then Z.max 10 (total_available_ms / (Z.of_nat (length group) * 4))
      else gap_ms in
    all_adjacent (follows gap_in_force)
      (Main.redistribute_timing_in_group imd group min_duration_ms gap_ms)
    ∧ inner_min min_duration_ms
        (Main.redistribute_timing_in_group imd group min_duration_ms gap_ms).
Proof.
  intros imd group mind gap first final Hlen Hw Hh Hl Hd Hgap.
  cbv zeta.
  unfold Main.redistribute_timing_in_group.
  change (sum_Z (map (λ seg, count_words_in_text (text seg)) group))
    with (total_words_of group).
  destruct (Nat.leb_spec (length group) 1) as [|_]; [lia|].
  destruct (Z.eqb_spec (total_words_of group) 0) as [|_]; [lia|].
  rewrite Hh, Hl. cbv zeta.
  destruct (Z.leb_spec (end_ms final - start_ms first) 0) as [|_]; [lia|].
  assert (∀ g cd, 0 ≤ g →
            let out := Main.redistribute_loop imd (length group) (total_words_of group)
                         cd (end_ms final) mind g 0 (start_ms first) group in
            let res := match out with
                       | [] => out
                       | _ :: _ =>
                           Main.verify_no_overlaps mind g
                             (alter (λ s, with_end s (end_ms final))
                                (length out - 1)%nat out)
                       end in
            all_adjacent (follows g) res ∧ inner_min mind res) as H.
  { intros g cd Hg out res.
    assert (all_adjacent (follows g)
              (alter (λ s, with_end s (end_ms final)) (length out - 1)%nat out)) as Hf.
    { apply set_last_end_follows, main_loop_follows. }
    assert (inner_min mind
              (alter (λ s, with_end s (end_ms final)) (length out - 1)%nat out)) as Hi.
    { intros i s Hlt Hs. rewrite length_alter in Hlt.
      rewrite list_lookup_alter_ne in Hs by lia.
      pose proof (main_loop_min imd (length group) (total_words_of group) cd
                    (end_ms final) mind g 0%nat (start_ms first) group) as Hall.
      by apply (proj1 (Forall_lookup _ _) Hall i s). }
    unfold res. destruct out as [|r0 out'] eqn:E.
    - split; [apply all_adjacent_nil | intros i s Hi']. simpl in Hi'. lia.
    - rewrite verify_no_overlaps_id by done. by split. }
  destruct (Z.leb_spec (end_ms final - start_ms first
                        - (Z.of_nat (length group) - 1) * gap) 0).
  - apply H. lia.
  - by apply H.
Qed.

Lemma main_redistribute_timing_in_group_spacing_witness :
  all_adjacent (follows 30)
    (Main.redistribute_timing_in_group exact_imd sample_group 1200 30)
  ∧ inner_min 1200
      (Main.redistribute_timing_in_group exact_imd sample_group 1200 30).
Proof.
  apply (main_redistribute_timing_in_group_spacing exact_imd sample_group 1200 30
           (mkSegment 1 0 2000 (lit "Hello there"))
           (mkSegment 3 5200 9000 (lit "my friend")));
    [simpl; lia | vm_compute; reflexivity | reflexivity | reflexivity
    | simpl; lia | lia].
Defined.

(** ** The whole pass of [timing_redistributor.py] *)

Definition number_le (a b : Segment) : Prop := number a ≤ number b.

Section PassFacts.
Import Redistributor.

Lemma insert_by_number_perm x l : insert_by_number x l ≡ₚ x :: l.
Proof.
  induction l as [|y l IH]; [done|]. simpl.
  destruct (number x <=? number y); [done|].
  rewrite IH. apply Permutation_swap.
Qed.

Lemma sort_by_number_perm l : sort_by_number l ≡ₚ l.
Proof.
  induction l as [|x l IH]; [done|]. simpl.
  by rewrite insert_by_number_perm, IH.
Qed.

Lemma insert_by_number_sorted x l :
  all_adjacent number_le l → all_adjacent number_le (insert_by_number x l).
Proof.
  induction l as [|y l IH]; intros Hl; simpl.
  - apply all_adjacent_singleton.
  - destruct (Z.leb_spec (number x) (number y)).
    + apply all_adjacent_cons. split; [|done]. by intros b [= <-].
    + apply all_adjacent_cons in Hl as [Hy Hl].
      apply all_adjacent_cons. split; [|by apply IH].
      intros b Hb. destruct l as [|z l]; simpl in Hb.
      * injection Hb as <-. unfold number_le. lia.
      * destruct (number x <=? number z); injection Hb as <-.
        -- unfold number_le. lia.
        -- by apply Hy.
Qed.

Lemma sort_by_number_sorted l : all_adjacent number_le (sort_by_number l).
Proof.
  induction l as [|x l IH]; simpl.
  - apply all_adjacent_nil.
  - by apply insert_by_number_sorted.
Qed.

(** A list already in the order of its numbers is left as it is. *)
Lemma insert_by_number_head x l :
  (∀ y, head l = Some y → number x ≤ number y) → insert_by_number x l = x :: l.
Proof.
  destruct l as [|y l]; [done|]. intros H. simpl.
  destruct (Z.leb_spec (number x) (number y)); [done|].
  specialize (H y eq_refl). lia.
Qed.

Lemma sort_by_number_id l : all_adjacent number_le l → sort_by_number l = l.
Proof.
  induction l as [|x l IH]; [done|]. intros [Hx Hl]%all_adjacent_cons.
  simpl. rewrite IH by done. by apply insert_by_number_head.
Qed.

Variable imd : Z → Z → Z → Z.

Lemma redistribute_groups_concat groups mind :
  redistribute_groups imd groups mind
  = concat ((λ g, if (1 <? length g)%nat
                  then TR.redistribute_timing_in_group imd g mind else g) <$> groups).
Proof.
  unfold redistribute_groups.
  rewrite <- (app_nil_l (concat _)). generalize (@nil Segment).
  induction groups as [|g groups IH]; intros acc; simpl.
  - by rewrite app_nil_r.
  - rewrite app_assoc, <- IH. by destruct (1 <? length g)%nat.
Qed.

Lemma tr_redistribute_label group mind :
  label <$> TR.redistribute_timing_in_group imd group mind = label <$> group.
Proof.
  unfold TR.redistribute_timing_in_group.
  destruct (length group <=? 1)%nat; [done|].
  destruct (_ =? 0); [done|].
  destruct (head group), (last group); try done.
  destruct (_ <=? 0); [done|].
  by rewrite label_alter, tr_loop_label.
Qed.

Lemma tr_redistribute_well_formed group mind :
  0 ≤ mind → Forall well_formed_segment group →
  Forall well_formed_segment (TR.redistribute_timing_in_group imd group mind).
Proof.
  intros Hm Hwf.
  pose proof (tr_redistribute_label group mind) as Hlab.
  revert Hlab. unfold TR.redistribute_timing_in_group.
  destruct (length group <=? 1)%nat; [done|].
  destruct (_ =? 0); [done|].
  destruct (head group) as [first|] eqn:Hh; [|done].
  destruct (last group) as [final|] eqn:Hl; [|done].
  destruct (Z.leb_spec (end_ms final - start_ms first) 0) as [|Hd]; [done|].
  cbv zeta. intros Hlab.
  assert (0 ≤ start_ms first) as H0.
  { destruct group as [|s g]; simplify_eq/=. by apply Forall_inv in Hwf as (? & _). }
  match type of Hlab with
  | label <$> ?l = _ =>
      assert (Forall (λ s, start_ms first ≤ start_ms s ∧ start_ms s ≤ end_ms s
                           ∧ end_ms s ≤ end_ms final) l) as Hin
  end.
  { apply Forall_alter.
    - apply tr_loop_within; lia.
    - intros s _ (? & ? & ?). simpl. lia. }
  apply Forall_lookup. intros i s Hs.
  pose proof (proj1 (Forall_lookup _ _) Hin i s Hs) as (? & ? & ?).
  assert ((label <$> group) !! i = Some (label s)) as Hg.
  { rewrite <- Hlab, list_lookup_fmap. by rewrite Hs. }
  rewrite list_lookup_fmap in Hg.
  destruct (group !! i) as [s'|] eqn:Es'; [|done].
  injection Hg as Hn Ht.
  pose proof (proj1 (Forall_lookup _ _) Hwf i s' Es') as (_ & _ & ? & ? & ?).
  unfold well_formed_segment. rewrite <- Ht. split; [lia|]. split; [lia|]. done.
Qed.

Lemma group_segments_concat segments mg : concat (group_segments segments mg) = segments.
Proof. destruct segments as [|s0 rest]; [done|]. simpl. by rewrite group_loop_concat. Qed.

Lemma number_le_fmap (l l' : list Segment) :
  number <$> l = number <$> l' →
  all_adjacent number_le l → all_adjacent number_le l'.
Proof.
  intros E H i x y Hx Hy.
  assert (∀ j z, l' !! j = Some z → ∃ z0, l !! j = Some z0 ∧ number z0 = number z) as Hlk.
  { intros j z Hz. assert ((number <$> l) !! j = Some (number z)) as Hj
      by (by rewrite E, list_lookup_fmap, Hz).
    rewrite list_lookup_fmap in Hj. destruct (l !! j) as [z0|]; [|done].
    exists z0. by injection Hj as ->. }
  destruct (Hlk _ _ Hx) as (x0 & Hx0 & Ex), (Hlk _ _ Hy) as (y0 & Hy0 & Ey).
  unfold number_le. rewrite <- Ex, <- Ey. by apply (H i).
Qed.

Lemma label_number (l l' : list Segment) :
  label <$> l = label <$> l' → number <$> l = number <$> l'.
Proof.
  intros E. apply (f_equal (fmap fst)) in E.
  by rewrite <- !list_fmap_compose in E.
Qed.

Lemma redistribute_groups_label groups mind :
  label <$> redistribute_groups imd groups mind = label <$> concat groups.
Proof.
  rewrite redistribute_groups_concat.
  induction groups as [|g groups IH]; [done|].
  rewrite fmap_cons. cbn [concat]. rewrite !fmap_app, IH. f_equal.
  destruct (1 <? length g)%nat; [|done]. apply tr_redistribute_label.
Qed.

Lemma redistribute_groups_well_formed groups mind :
  0 ≤ mind → Forall well_formed_segment (concat groups) →
  Forall well_formed_segment (redistribute_groups imd groups mind).
Proof.
  intros Hm. rewrite redistribute_groups_concat.
  induction groups as [|g groups IH]; [done|].
  rewrite fmap_cons. cbn [concat]. rewrite !Forall_app. intros [Hg Hgs].
  split; [|by apply IH].
  destruct (1 <? length g)%nat; [|done]. by apply tr_redistribute_well_formed.
Qed.

Lemma tr_parse_well_formed srt_content :
  Forall well_formed_segment (TR.parse_srt_content srt_content).
Proof. apply parse_blocks_well_formed, tr_parse_timestamp_nonneg. Qed.

End PassFacts.

(** X11. What [redistribute_srt_timing] writes reads back, for a minimum
    duration that is not negative, as segments in the order of their
    numbers that carry the numbers and texts of the segments of the input,
    each as often as there. *)
Theorem redistribute_srt_timing_keeps_cues :
  ∀ (imd : Z → Z → Z → Z) (srt_content : str) (max_gap_ms min_duration_ms : Z),
    0 ≤ min_duration_ms →
    let result :=
      Redistributor.redistribute_srt_timing imd srt_content max_gap_ms min_duration_ms in
    label <$> TR.parse_srt_content result ≡ₚ label <$> TR.parse_srt_content srt_content
    ∧ all_adjacent number_le (TR.parse_srt_content result).
Proof.
  intros imd T mg mind Hm. cbv zeta. unfold Redistributor.redistribute_srt_timing.
  pose proof (tr_parse_well_formed T) as Hwf.
  destruct (TR.parse_srt_content T) as [|s0 rest] eqn:E.
  - rewrite E. split; [done|apply all_adjacent_nil].
  - rewrite <- E in *. unfold TR.group_continuous_subtitles.
    set (all := Redistributor.redistribute_groups imd _ mind).
    assert (Forall well_formed_segment (Redistributor.sort_by_number all)) as Hs.
    { rewrite sort_by_number_perm.
      apply redistribute_groups_well_formed; [done|].
      by rewrite group_segments_concat. }
    rewrite parse_render by done. split; [|apply sort_by_number_sorted].
    rewrite sort_by_number_perm. unfold all.
    by rewrite redistribute_groups_label, group_segments_concat.
Qed.

(** The sample group as a file. *)
Definition sample_srt : str :=
  srt_text ["1"; "00:00:00,000 --> 00:00:02,000"; "Hello there"; "";
            "2"; "00:00:02,100 --> 00:00:05,000"; "how are <i>you</i> today"; "";
            "3"; "00:00:05,200 --> 00:00:09,000"; "my friend"]%string.

Lemma sample_srt_parsed : TR.parse_srt_content sample_srt = sample_group.
Proof. by vm_compute. Qed.

Lemma sample_srt_ordered : all_adjacent number_le (TR.parse_srt_content sample_srt).
Proof.
  rewrite sample_srt_parsed.
  intros [|[|[|i]]] x y Hx Hy; simplify_eq/=; unfold number_le; simpl; lia.
Qed.

Lemma redistribute_srt_timing_keeps_cues_witness :
  label <$> TR.parse_srt_content
              (Redistributor.redistribute_srt_timing exact_imd sample_srt 500 1200)
    ≡ₚ label <$> TR.parse_srt_content sample_srt
  ∧ all_adjacent number_le
      (TR.parse_srt_content
         (Redistributor.redistribute_srt_timing exact_imd sample_srt 500 1200)).
Proof. apply (redistribute_srt_timing_keeps_cues exact_imd sample_srt 500 1200). lia. Defined.

(** X12. When the segments of the input come in the order of their
    numbers, what [redistribute_srt_timing] writes reads back as the
    redistributed groups themselves, one after the other. *)
Theorem redistribute_srt_timing_reads_back :
  ∀ (imd : Z → Z → Z → Z) (srt_content : str) (max_gap_ms min_duration_ms : Z),
    0 ≤ min_duration_ms →
    all_adjacent number_le (TR.parse_srt_content srt_content) →
    TR.parse_srt_content
      (Redistributor.redistribute_srt_timing imd srt_content max_gap_ms min_duration_ms)
    = Redistributor.redistribute_groups imd
        (TR.group_continuous_subtitles (TR.parse_srt_content srt_content) max_gap_ms)
        min_duration_ms.
Proof.
  intros imd T mg mind Hm Hord. unfold Redistributor.redistribute_srt_timing.
  pose proof (tr_parse_well_formed T) as Hwf.
  destruct (TR.parse_srt_content T) as [|s0 rest] eqn:E.
  - by rewrite E.
  - rewrite <- E in *. unfold TR.group_continuous_subtitles.
    set (all := Redistributor.redistribute_groups imd _ mind).
    assert (label <$> all = label <$> TR.parse_srt_content T) as Hlab.
    { unfold all. by rewrite redistribute_groups_label, group_segments_concat. }
    rewrite sort_by_number_id.
    + apply parse_render, redistribute_groups_well_formed; [done|].
      by rewrite group_segments_concat.
    + eapply number_le_fmap; [|exact Hord]. symmetry. by apply label_number.
Qed.


Lemma redistribute_srt_timing_reads_back_witness :
  TR.parse_srt_content (Redistributor.redistribute_srt_timing exact_imd sample_srt 500 1200)
  = Redistributor.redistribute_groups exact_imd
      (TR.group_continuous_subtitles (TR.parse_srt_content sample_srt) 500) 1200.
Proof.
  apply (redistribute_srt_timing_reads_back exact_imd sample_srt 500 1200);
    [lia | apply sample_srt_ordered].
Defined.

(** ** The redistribution of the original text, further *)

Definition cue_words (c : Main.Cue) : list str := words (Main.cue_text c).

(** The words of the cues, one cue after the other. *)
Definition all_words (cues : list Main.Cue) : list str := concat (cue_words <$> cues).

(** What identifies a processed segment: its number and its time line. *)
Definition stamp_of (c : Main.Cue) : Main.pynum * str := (Main.num c, Main.timestamp c).
Definition stamp_of_segment (s : Main.Stamped) : Main.pynum * str :=
  (Main.Whole (Main.s_num s), Main.s_timestamp s).

(** A cue whose text is words separated by single spaces. *)
Definition spaced_text (c : Main.Cue) : Prop :=
  ∃ wl, wl ≠ [] ∧ Forall is_word wl ∧ Main.cue_text c = join [SP] wl.

Section TextMore.

Lemma words_go_true_app w s h t :
  Forall non_space w → words_go true s = h :: t →
  words_go true (w ++ s) = (w ++ h) :: t.
Proof.
  intros Hw E. induction Hw as [|c w Hc Hw IH]; [done|].
  cbn [app words_go]. unfold non_space in Hc. by rewrite Hc, IH.
Qed.

Lemma words_word_app w s : is_word w → words (w ++ SP :: s) = w :: words s.
Proof.
  intros [Hne Hw]. destruct w as [|c w]; [done|].
  apply Forall_cons in Hw as [Hc Hw]. unfold words, non_space in *.
  cbn [app words_go]. rewrite Hc.
  rewrite (words_go_true_app w (SP :: s) [] (words_go false s)) by done.
  by rewrite app_nil_r.
Qed.

Lemma words_word w : is_word w → words w = [w].
Proof.
  intros [Hne Hw]. destruct w as [|c w]; [done|].
  apply Forall_cons in Hw as [Hc Hw]. unfold words, non_space in *.
  cbn [words_go]. rewrite Hc. rewrite <- (app_nil_r w) at 1.
  rewrite (words_go_true_app w [] [] []) by done. by rewrite app_nil_r.
Qed.

(** Splitting at white space what was joined with spaces gives the words
    back. *)
Lemma words_join ws : Forall is_word ws → words (join [SP] ws) = ws.
Proof.
  induction 1 as [|w ws Hw Hws IH]; [done|].
  destruct ws as [|w' ws]; [by apply words_word|].
  rewrite join_cons by done. cbn [app]. by rewrite words_word_app, IH.
Qed.

Lemma all_words_app a b : all_words (a ++ b) = all_words a ++ all_words b.
Proof. unfold all_words. by rewrite fmap_app, concat_app. Qed.

Variable imd : Z → Z → Z → Z.
Variable original_words : list str.
Hypothesis Hwords : Forall is_word original_words.

Lemma assign_loop_words total_segments rest i word_index out :
  ∃ word_index' added,
    Main.assign_loop imd original_words total_segments i word_index out rest
      = (word_index', out ++ added)
    ∧ take word_index' original_words = take word_index original_words ++ all_words added
    ∧ Forall spaced_text added
    ∧ stamp_of <$> added `sublist_of` stamp_of_segment <$> rest
    ∧ (rest ≠ [] → (word_index < length original_words)%nat → added ≠ []).
Proof using Hwords.
  revert i word_index out.
  induction rest as [|seg rest IH]; intros i wi out.
  - exists wi, []. cbn [Main.assign_loop]. rewrite !app_nil_r. by repeat split.
  - cbn [Main.assign_loop].
    set (e := Main.expected_words_end imd (length original_words) total_segments i).
    set (sw := if (length original_words <? e)%nat
               then drop wi original_words else slice wi e original_words).
    assert (Forall is_word sw) as Hsw.
    { unfold sw, slice. destruct (_ <? _)%nat; by repeat first [apply Forall_drop | apply Forall_take]. }
    destruct (decide (sw = [])) as [Esw|Nsw].
    + rewrite Esw. change (strip (join [SP] [])) with (@nil ascii).
      rewrite bool_decide_eq_true_2 by done. cbn [andb].
      destruct (Nat.ltb_spec wi (length original_words)) as [Hlt|Hge]; cbv beta iota.
      * destruct (lookup_lt_is_Some_2 original_words wi Hlt) as [w Ew].
        rewrite Ew. cbn [default]. unfold id.
        assert (is_word w) as Hw by (by eapply Forall_lookup_1 in Ew).
        rewrite bool_decide_eq_true_2 by apply Hw.
        destruct (IH (S i) (S wi)
                    (out ++ [Main.mkCue (Main.Whole (Main.s_num seg)) (Main.s_timestamp seg) w]))
          as (wi' & added & -> & Ht & Hsp & Hsub & _).
        exists wi', (Main.mkCue (Main.Whole (Main.s_num seg)) (Main.s_timestamp seg) w :: added).
        split; [by rewrite <- app_assoc|]. split.
        { rewrite Ht, (take_S_r _ _ w) by done.
          change (all_words (?c :: added)) with (cue_words c ++ all_words added).
          unfold cue_words. cbn [Main.cue_text]. rewrite words_word by done.
          by rewrite <- app_assoc. }
        split.
        { constructor; [|done]. exists [w]. split; [done|]. split; [by constructor|done]. }
        split; [by apply sublist_skip|done].
      * rewrite bool_decide_eq_false_2 by (by intros H; apply H).
        cbv beta iota.
        rewrite bool_decide_eq_false_2 by (by intros H; apply H).
        destruct (IH (S i) wi out) as (wi' & added & -> & Ht & Hsp & Hsub & _).
        exists wi', added. split; [done|]. split; [done|]. split; [done|].
        split; [by apply sublist_cons|]. intros _ ?. lia.
    + destruct (join_words_clean sw Hsw Nsw) as [_ Hj].
      rewrite strip_join_words by done.
      rewrite bool_decide_eq_false_2 by done. cbn [andb].
      rewrite bool_decide_eq_true_2 by done. cbv beta iota.
      rewrite bool_decide_eq_true_2 by done.
      destruct (IH (S i) e
                  (out ++ [Main.mkCue (Main.Whole (Main.s_num seg)) (Main.s_timestamp seg)
                             (join [SP] sw)]))
        as (wi' & added & -> & Ht & Hsp & Hsub & _).
      exists wi', (Main.mkCue (Main.Whole (Main.s_num seg)) (Main.s_timestamp seg)
                     (join [SP] sw) :: added).
      split; [by rewrite <- app_assoc|]. split.
      { rewrite Ht.
        change (all_words (?c :: added)) with (cue_words c ++ all_words added).
        unfold cue_words. cbn [Main.cue_text]. rewrite words_join by done.
        rewrite app_assoc. f_equal. unfold sw in *.
        destruct (Nat.ltb_spec (length original_words) e) as [Hlt|Hge].
        - rewrite take_ge by lia. by rewrite take_drop.
        - unfold slice in *.
          assert (wi < length (take e original_words))%nat as Hwi.
          { destruct (decide (wi < length (take e original_words))%nat); [done|].
            rewrite drop_ge in Nsw by lia. done. }
          rewrite length_take in Hwi.
          rewrite <- (take_drop wi (take e original_words)) at 1.
          rewrite take_take. by replace (wi `min` e)%nat with wi by lia. }
      split.
      { constructor; [|done]. by exists sw. }
      split; [by apply sublist_skip|done].
Qed.

End TextMore.

Lemma all_words_singleton c : all_words [c] = words (Main.cue_text c).
Proof. unfold all_words, cue_words. cbn. apply app_nil_r. Qed.

Lemma redistribute_words_facts (imd : Z → Z → Z → Z) (original_words : list str)
    (processed_segments : list Main.Stamped) :
  Forall is_word original_words →
  let cues := Main.redistribute_words imd original_words processed_segments in
  all_words cues = original_words
  ∧ Forall (λ c, Main.cue_text c ≠ []) cues
  ∧ (processed_segments ≠ [] →
     stamp_of <$> cues `sublist_of` stamp_of_segment <$> processed_segments).
Proof.
  intros Hwords. cbv zeta. unfold Main.redistribute_words.
  destruct (assign_loop_words imd original_words Hwords (length processed_segments)
              processed_segments 0 0 [])
    as (wi & added & -> & Ht & Hsp & Hsub & Hadd).
  change (take 0 original_words) with (@nil str) in Ht.
  cbn [app] in Ht. cbv beta iota. cbn [app].
  assert (Forall (λ c, Main.cue_text c ≠ []) added) as Hne.
  { eapply Forall_impl; [exact Hsp|]. intros c (wl & Hwl & Hw & ->).
    by apply join_words_clean. }
  destruct (Nat.ltb_spec wi (length original_words)) as [Hlt|Hge].
  - assert (drop wi original_words ≠ []) as Hdrop.
    { intros E. apply (f_equal length) in E. rewrite length_drop in E.
      cbn [length] in E. lia. }
    assert (Forall is_word (drop wi original_words)) as Hdw by (by apply Forall_drop).
    destruct added as [|c0 l] eqn:Eadd.
    + cbn [app]. split; [|split].
      * rewrite all_words_singleton. cbn [Main.cue_text].
        rewrite words_join by done.
        rewrite <- (take_drop wi original_words) at 2. by rewrite Ht.
      * constructor; [|done]. by apply join_words_clean.
      * intros Hp. destruct (Hadd Hp); [lia|done].
    + assert (∃ init c, c0 :: l = init ++ [c]) as (init & c & E).
      { destruct (last (c0 :: l)) eqn:El.
        - apply last_Some in El as [init ->]. eauto.
        - by apply last_None in El. }
      rewrite E in *. clear Eadd E c0 l Hadd.
      rewrite length_app. cbn [length].
      replace (length init + 1 - 1)%nat with (length init + 0)%nat by lia.
      rewrite alter_app_r. cbn [alter list_alter].
      apply Forall_app in Hsp as [Hsp1 Hsp2], Hne as [Hne1 _].
      apply Forall_inv in Hsp2 as (wl & Hwl & Hw & Hc).
      assert (Main.cue_text (Main.append_text (SP :: join [SP] (drop wi original_words)) c)
              = join [SP] (wl ++ drop wi original_words)) as Hc'.
      { unfold Main.append_text. cbn [Main.cue_text]. rewrite Hc. by rewrite join_app. }
      assert (Forall is_word (wl ++ drop wi original_words)) as Hall
        by (by apply Forall_app).
      split; [|split].
      * rewrite all_words_app, all_words_singleton, Hc', words_join by done.
        rewrite all_words_app, all_words_singleton, Hc, words_join in Ht by done.
        rewrite app_assoc, <- Ht. apply take_drop.
      * apply Forall_app. split; [done|]. constructor; [|done].
        rewrite Hc'. apply join_words_clean; [done|]. by destruct wl.
      * intros _. by rewrite fmap_app in *.
  - split; [|split; [done|by intros _]].
    rewrite <- Ht. by apply take_ge.
Qed.

(** X13. The redistribution of the original text loses no word and invents
    none: whatever the processed segments and the floating-point cut
    points, the words of the cues it builds, read one cue after the other,
    are the words of the original text in their order. *)
Theorem redistribute_original_text_keeps_words :
  ∀ (imd : Z → Z → Z → Z) (full_original_text : str)
    (processed_segments : list Main.Stamped),
    all_words (Main.redistribute_words imd (words full_original_text) processed_segments)
    = words full_original_text.
Proof.
  intros imd T segs.
  apply (redistribute_words_facts imd (words T) segs (words_are_words T)).
Qed.

(** X14. No cue built by the redistribution is empty, and the cues carry
    numbers and time lines of processed segments, each at most once and in
    their order: a processed segment may be left out, none is invented. *)
Theorem redistribute_original_text_stamps :
  ∀ (imd : Z → Z → Z → Z) (full_original_text : str)
    (processed_segments : list Main.Stamped),
    processed_segments ≠ [] →
    let cues :=
      Main.redistribute_words imd (words full_original_text) processed_segments in
    Forall (λ c, Main.cue_text c ≠ []) cues
    ∧ stamp_of <$> cues `sublist_of` stamp_of_segment <$> processed_segments.
Proof.
  intros imd T segs Hne.
  destruct (redistribute_words_facts imd (words T) segs (words_are_words T))
    as (_ & H1 & H2).
  split; [done|by apply H2].
Qed.

Lemma redistribute_original_text_stamps_witness :
  Forall (λ c, Main.cue_text c ≠ [])
    (Main.redistribute_words exact_imd (words (lit "one two three")) two_stamps)
  ∧ stamp_of <$> Main.redistribute_words exact_imd (words (lit "one two three")) two_stamps
      `sublist_of` stamp_of_segment <$> two_stamps.
Proof.
  apply (redistribute_original_text_stamps exact_imd (lit "one two three") two_stamps).
  done.
Defined.

(** ** The translated texts put back on the original time lines *)

(** The entry [reconstruct_with_timestamps] writes for the key [k]. *)
Definition rebuilt_entry (original_segments translated_texts : gmap str Main.pyval)
    (k : str) : option Main.pyval :=
  segment ← original_segments !! k;
  s ← translated_texts !! k;
  t ← Reconstruct.timestamp_of segment;
  Some (Main.PDict {[ lit "t" := t; lit "s" := s ]}).

(** An entry of the originals that is translated and has no time line. *)
Definition lacks_timestamp (original_segments translated_texts : gmap str Main.pyval)
    (k : str) : Prop :=
  (k ∉ Main.reserved_keys) ∧ is_Some (translated_texts !! k)
  ∧ ∃ segment, original_segments !! k = Some segment
               ∧ Reconstruct.timestamp_of segment = None.

Section ReconstructFacts.
Import Main Reconstruct.

Lemma reserved_keys_spec k :
  k ∈ reserved_keys ↔ k = lit "success" ∨ k = lit "comment".
Proof.
  unfold reserved_keys. rewrite !elem_of_cons, elem_of_nil. tauto.
Qed.

Lemma new_result_lookup k :
  new_result !! k
  = if decide (k = lit "success") then Some (PBool true)
    else if decide (k = lit "comment") then Some (PStr []) else None.
Proof.
  unfold new_result. destruct (decide (k = lit "success")) as [->|H1].
  - by rewrite lookup_insert_eq.
  - rewrite lookup_insert_ne by done.
    destruct (decide (k = lit "comment")) as [->|H2].
    + by rewrite lookup_singleton_eq.
    + by rewrite lookup_singleton_ne.
Qed.

Variable translated_texts : gmap str pyval.

Lemma reconstruct_spec (original_segments : gmap str pyval) :
  match reconstruct_with_timestamps original_segments translated_texts with
  | Some result =>
      (∀ k, ¬ lacks_timestamp original_segments translated_texts k)
      ∧ ∀ k, result !! k
             = if decide (k ∈ reserved_keys) then new_result !! k
               else rebuilt_entry original_segments translated_texts k
  | None => ∃ k, lacks_timestamp original_segments translated_texts k
  end.
Proof.
  unfold reconstruct_with_timestamps.
  apply (map_fold_weak_ind
           (λ acc m, match acc with
                     | Some result =>
                         (∀ k, ¬ lacks_timestamp m translated_texts k)
                         ∧ ∀ k, result !! k
                                = if decide (k ∈ reserved_keys) then new_result !! k
                                  else rebuilt_entry m translated_texts k
                     | None => ∃ k, lacks_timestamp m translated_texts k
                     end)).
  - split.
    + intros k (_ & _ & seg & H & _). by rewrite lookup_empty in H.
    + intros k. destruct (decide (k ∈ reserved_keys)) as [|Hk]; [done|].
      unfold rebuilt_entry. rewrite lookup_empty. cbn.
      rewrite new_result_lookup. rewrite reserved_keys_spec in Hk.
      repeat case_decide; tauto.
  - intros i x m acc Hi IH. destruct acc as [result|]; cbn.
    2:{ destruct IH as (k & Hr & Ht & seg & Hs & Hn). exists k.
        split; [done|]. split; [done|]. exists seg. split; [|done].
        rewrite lookup_insert_ne; [done|]. intros ->. congruence. }
    destruct IH as [Hno Hres].
    assert (∀ k, k ≠ i →
              rebuilt_entry (<[i:=x]> m) translated_texts k
              = rebuilt_entry m translated_texts k) as Hother.
    { intros k Hk. unfold rebuilt_entry. by rewrite lookup_insert_ne. }
    assert (∀ k, k ≠ i → ¬ lacks_timestamp (<[i:=x]> m) translated_texts k) as Hno'.
    { intros k Hk (Hr & Ht & seg & Hs & Hn). apply (Hno k).
      split; [done|]. split; [done|]. exists seg.
      by rewrite lookup_insert_ne in Hs. }
    destruct (translated_texts !! i) as [s|] eqn:Es.
    + case_bool_decide as Hr.
      * destruct (timestamp_of x) as [t|] eqn:Et; cbn.
        -- split.
           ++ intros k. destruct (decide (k = i)) as [->|Hk]; [|by apply Hno'].
              intros (_ & _ & seg & Hs & Hn). rewrite lookup_insert_eq in Hs. congruence.
           ++ intros k. destruct (decide (k = i)) as [->|Hk].
              ** rewrite lookup_insert_eq. rewrite decide_False by done.
                 unfold rebuilt_entry. rewrite lookup_insert_eq. cbn.
                 rewrite Es. cbn. by rewrite Et.
              ** rewrite lookup_insert_ne by done. rewrite Hres, Hother by done. done.
        -- exists i. split; [done|]. split; [by rewrite Es|].
           exists x. by rewrite lookup_insert_eq.
      * split.
        -- intros k. destruct (decide (k = i)) as [->|Hk]; [|by apply Hno'].
           by intros (? & _).
        -- intros k. rewrite Hres. destruct (decide (k ∈ reserved_keys)); [done|].
           apply eq_sym, Hother. by intros ->.
    + split.
      * intros k. destruct (decide (k = i)) as [->|Hk]; [|by apply Hno'].
        intros (_ & [? ?] & _). congruence.
      * intros k. rewrite Hres. destruct (decide (k ∈ reserved_keys)); [done|].
        destruct (decide (k = i)) as [->|Hk]; [|by rewrite Hother].
        unfold rebuilt_entry. rewrite lookup_insert_eq, Hi. cbn. by rewrite Es.
Qed.

End ReconstructFacts.

Section ReconstructMore.
Import Main Reconstruct.

Lemma reconstruct_ext (original_segments tr tr' : gmap str pyval) :
  (∀ k, k ∉ reserved_keys → tr !! k = tr' !! k) →
  reconstruct_with_timestamps original_segments tr
  = reconstruct_with_timestamps original_segments tr'.
Proof.
  intros H.
  assert (∀ k, lacks_timestamp original_segments tr k
               ↔ lacks_timestamp original_segments tr' k) as Hl.
  { intros k. unfold lacks_timestamp. split; intros (Hr & Ht & Hs).
    - by rewrite <- H.
    - by rewrite H. }
  assert (∀ k, k ∉ reserved_keys →
               rebuilt_entry original_segments tr k
               = rebuilt_entry original_segments tr' k) as He.
  { intros k Hk. unfold rebuilt_entry. by rewrite H. }
  pose proof (reconstruct_spec tr original_segments) as H1.
  pose proof (reconstruct_spec tr' original_segments) as H2.
  destruct (reconstruct_with_timestamps original_segments tr) as [r1|],
    (reconstruct_with_timestamps original_segments tr') as [r2|].
  - f_equal. apply map_eq. intros k.
    rewrite (proj2 H1 k), (proj2 H2 k). case_decide; [done|by apply He].
  - destruct H2 as [k Hk]. destruct (proj1 H1 k). by apply Hl.
  - destruct H1 as [k Hk]. destruct (proj1 H2 k). by apply Hl.
  - done.
Qed.

Lemma merge_chunk_lookup (merged_texts chunk_result : gmap str pyval) k :
  merge_chunk merged_texts chunk_result !! k
  = if decide (k ∈ reserved_keys) then merged_texts !! k
    else (chunk_result ∪ merged_texts) !! k.
Proof.
  unfold merge_chunk. revert k.
  apply (map_fold_weak_ind
           (λ acc c, ∀ k, acc !! k
                          = if decide (k ∈ reserved_keys) then merged_texts !! k
                            else (c ∪ merged_texts) !! k)).
  - intros k. rewrite (left_id_L ∅ (∪)). by case_decide.
  - intros i x c acc Hi IH k. case_bool_decide as Hr.
    + destruct (decide (k = i)) as [->|Hk].
      * rewrite lookup_insert_eq, decide_False by done.
        rewrite lookup_union, lookup_insert_eq. by destruct (merged_texts !! i).
      * rewrite lookup_insert_ne by done. rewrite IH.
        by rewrite !lookup_union, lookup_insert_ne.
    + rewrite IH. case_decide as Hk; [done|].
      rewrite !lookup_union, lookup_insert_ne; [done|]. by intros ->.
Qed.

Lemma merged_texts_lookup (chunks_results : list (gmap str pyval)) acc acc' :
  (∀ k, k ∉ reserved_keys → acc !! k = acc' !! k) →
  ∀ k, k ∉ reserved_keys →
       foldl merge_chunk acc chunks_results !! k
       = foldl (λ m c, c ∪ m) acc' chunks_results !! k.
Proof.
  revert acc acc'. induction chunks_results as [|c l IH]; intros acc acc' H; [done|].
  cbn [foldl]. apply IH. intros k Hk.
  rewrite merge_chunk_lookup, decide_False by done.
  by rewrite !lookup_union, H.
Qed.

End ReconstructMore.

(** X15. [reconstruct_with_timestamps] raises exactly when some original
    segment with a translation has no ['t'] to read. Otherwise the result
    holds ['success'] (true), ['comment'] (empty) and, for every other key
    present in both the originals and the translations, and for no other,
    the time line of the original with the translated value. *)
Theorem reconstruct_with_timestamps_result :
  ∀ original_segments translated_texts : gmap str Main.pyval,
    (Reconstruct.reconstruct_with_timestamps original_segments translated_texts = None
     ↔ ∃ k, lacks_timestamp original_segments translated_texts k)
    ∧ ∀ result,
        Reconstruct.reconstruct_with_timestamps original_segments translated_texts
        = Some result →
        result !! lit "success" = Some (Main.PBool true)
        ∧ result !! lit "comment" = Some (Main.PStr [])
        ∧ ∀ k, k ∉ Main.reserved_keys →
               result !! k = rebuilt_entry original_segments translated_texts k.
Proof.
  intros orig tr. pose proof (reconstruct_spec tr orig) as H.
  destruct (Reconstruct.reconstruct_with_timestamps orig tr) as [r|].
  - destruct H as [Hno Hr]. split.
    + split; [done|]. intros [k Hk]. by destruct (Hno k).
    + intros ? [= <-]. split; [|split].
      * rewrite Hr, decide_True; [done|]. apply reserved_keys_spec. by left.
      * rewrite Hr, decide_True; [done|]. apply reserved_keys_spec. by right.
      * intros k Hk. by rewrite Hr, decide_False.
  - split; [done|]. by intros.
Qed.

(** X16. A translation that passes [validate_translation_structure] is put
    back whole: when the keys of the originals are segment indices and every
    original has a ['t'], [reconstruct_with_timestamps] returns a result
    whose keys are those of the originals with ['success'] and ['comment'],
    and every original is there with its own time line and its translated
    string. *)
Theorem reconstruct_after_validation :
  ∀ original_segments translated_texts : gmap str Main.pyval,
    index_keys original_segments →
    (∀ k segment, original_segments !! k = Some segment →
                  is_Some (Reconstruct.timestamp_of segment)) →
    fst (Main.validate_translation_structure original_segments
           (Main.PDict translated_texts)) = true →
    ∃ result,
      Reconstruct.reconstruct_with_timestamps original_segments translated_texts
      = Some result
      ∧ dom result = dom original_segments ∪ {[ lit "success"; lit "comment" ]}
      ∧ ∀ k segment, original_segments !! k = Some segment →
          ∃ t s, Reconstruct.timestamp_of segment = Some t
                 ∧ translated_texts !! k = Some (Main.PStr s)
                 ∧ result !! k
                   = Some (Main.PDict {[ lit "t" := t; lit "s" := Main.PStr s ]}).
Proof.
  intros orig tr Hkeys Hts Hval.
  assert (∀ k, k ∈ dom orig → k ∉ Main.reserved_keys) as Hnr.
  { intros k Hk Hr. by apply (Hkeys k). }
  assert (∀ k, k ∈ dom orig → ∃ s, tr !! k = Some (Main.PStr s)) as Htr.
  { revert Hval. unfold Main.validate_translation_structure.
    destruct (negb _); [done|].
    case_bool_decide as Hsub; [|done].
    destruct (Main.first_non_string (dom orig) tr) as [[? ?]|] eqn:Ef; [done|].
    intros _ k Hk. rewrite first_non_string_None in Ef.
    pose proof (Hsub k Hk) as Hk'. apply elem_of_filter in Hk' as [_ Hd].
    apply elem_of_dom in Hd as [v Hv]. specialize (Ef k v Hk Hv).
    destruct v; try done. by eexists. }
  pose proof (reconstruct_spec tr orig) as H.
  destruct (Reconstruct.reconstruct_with_timestamps orig tr) as [r|].
  2:{ destruct H as (k & _ & _ & seg & Hs & Hn).
      destruct (Hts k seg Hs) as [? ?]. congruence. }
  destruct H as [_ Hr]. exists r. split; [done|].
  assert (∀ k segment, orig !! k = Some segment →
            ∃ t s, Reconstruct.timestamp_of segment = Some t
                   ∧ tr !! k = Some (Main.PStr s)
                   ∧ r !! k = Some (Main.PDict {[ lit "t" := t; lit "s" := Main.PStr s ]}))
    as Hall.
  { intros k seg Hs.
    assert (k ∈ dom orig) as Hk by (apply elem_of_dom; eauto).
    destruct (Hts k seg Hs) as [t Ht], (Htr k Hk) as [s Hks].
    exists t, s. split; [done|]. split; [done|].
    rewrite Hr, decide_False by auto.
    unfold rebuilt_entry. rewrite Hs. cbn. rewrite Hks. cbn. by rewrite Ht. }
  split; [|done].
  apply set_eq. intros k. rewrite elem_of_union, !elem_of_dom. split.
  - intros [v Hv]. rewrite Hr in Hv. case_decide as Hk.
    + right. apply reserved_keys_spec in Hk as [->| ->]; set_solver.
    + left. unfold rebuilt_entry in Hv. destruct (orig !! k); [eauto|done].
  - intros [[seg Hs]|Hk].
    + destruct (Hall k seg Hs) as (t & s & _ & _ & ->). eauto.
    + rewrite Hr, decide_True, new_result_lookup.
      * assert (k = lit "success" ∨ k = lit "comment") as [->| ->] by set_solver.
        -- by rewrite decide_True.
        -- rewrite decide_False by done. by rewrite decide_True.
      * apply reserved_keys_spec. set_solver.
Qed.

(** X17. What [reconstruct_with_timestamps] returns never passes
    [validate_translation_structure] against the originals it was built
    from, unless there is no original at all: the entries it writes are
    dictionaries, and the validation wants strings. *)
Theorem reconstructed_result_validation :
  ∀ original_segments translated_texts result : gmap str Main.pyval,
    Reconstruct.reconstruct_with_timestamps original_segments translated_texts
    = Some result →
    (fst (Main.validate_translation_structure original_segments (Main.PDict result))
     = true
     ↔ original_segments = ∅).
Proof.
  intros orig tr r E. pose proof (reconstruct_spec tr orig) as H.
  rewrite E in H. destruct H as [_ Hr].
  unfold Main.validate_translation_structure.
  assert (r !! lit "success" = Some (Main.PBool true)) as ->.
  { rewrite Hr, decide_True; [done|]. apply reserved_keys_spec. by left. }
  cbn [default from_option id Main.truthy negb]. split.
  - case_bool_decide as Hsub; [|done].
    destruct (Main.first_non_string (dom orig) r) as [[? ?]|] eqn:Ef; [done|].
    intros _. rewrite first_non_string_None in Ef.
    destruct (map_choose_or_empty orig) as [(k & seg & Hs)|]; [|done].
    assert (k ∈ dom orig) as Hk by (apply elem_of_dom; eauto).
    pose proof (Hsub k Hk) as Hk'. apply elem_of_filter in Hk' as [Hnr Hd].
    apply elem_of_dom in Hd as [v Hv]. specialize (Ef k v Hk Hv).
    rewrite Hr, decide_False in Hv by done. unfold rebuilt_entry in Hv.
    rewrite Hs in Hv. cbn in Hv.
    destruct (tr !! k); [|done]. cbn in Hv.
    destruct (Reconstruct.timestamp_of seg); [|done]. cbn in Hv.
    by injection Hv as <-.
  - intros ->. rewrite dom_empty_L.
    rewrite bool_decide_eq_true_2 by set_solver.
    unfold Main.first_non_string. by rewrite elements_empty.
Qed.

(** X18. Merging the chunks drops nothing that the reconstruction reads:
    [merge_translated_chunks] returns what [reconstruct_with_timestamps]
    returns on the chunks laid over one another, a later chunk over the
    earlier ones; for a single chunk, what it returns on that chunk. *)
Theorem merge_translated_chunks_reconstruct :
  ∀ (chunks_results : list (gmap str Main.pyval))
    (original_segments : gmap str Main.pyval),
    Reconstruct.merge_translated_chunks chunks_results original_segments
    = Reconstruct.reconstruct_with_timestamps original_segments
        (foldl (λ merged chunk_result, chunk_result ∪ merged) ∅ chunks_results)
    ∧ ∀ chunk_result,
        Reconstruct.merge_translated_chunks [chunk_result] original_segments
        = Reconstruct.reconstruct_with_timestamps original_segments chunk_result.
Proof.
  intros chunks orig.
  assert (∀ l, Reconstruct.merge_translated_chunks l orig
               = Reconstruct.reconstruct_with_timestamps orig
                   (foldl (λ merged chunk_result, chunk_result ∪ merged) ∅ l)) as H.
  { intros l. unfold Reconstruct.merge_translated_chunks.
    apply reconstruct_ext. by apply merged_texts_lookup. }
  split; [apply H|]. intros c. rewrite H. cbn [foldl].
  by rewrite (right_id_L ∅ (∪)).
Qed.

(** Two originals with their time lines, a translation of both, and what
    is rebuilt from them. *)
Definition timed_original : gmap str Main.pyval :=
  {[ lit "1" := Main.PDict {[ lit "t" := Main.PStr (lit "00:00:00,000 --> 00:00:01,000");
                              lit "s" := Main.PStr (lit "Hello") ]};
     lit "2" := Main.PDict {[ lit "t" := Main.PStr (lit "00:00:01,000 --> 00:00:02,000");
                              lit "s" := Main.PStr (lit "World") ]} ]}.
Definition full_translation : gmap str Main.pyval :=
  {[ lit "success" := Main.PBool true; lit "comment" := Main.PStr [];
     lit "1" := Main.PStr (lit "Bonjour"); lit "2" := Main.PStr (lit "Monde") ]}.
Definition rebuilt_result : gmap str Main.pyval :=
  {[ lit "success" := Main.PBool true; lit "comment" := Main.PStr [];
     lit "1" := Main.PDict {[ lit "t" := Main.PStr (lit "00:00:00,000 --> 00:00:01,000");
                              lit "s" := Main.PStr (lit "Bonjour") ]};
     lit "2" := Main.PDict {[ lit "t" := Main.PStr (lit "00:00:01,000 --> 00:00:02,000");
                              lit "s" := Main.PStr (lit "Monde") ]} ]}.

Lemma timed_original_index_keys : index_keys timed_original.
Proof.
  intros k Hk Hd. unfold timed_original in Hd.
  rewrite dom_insert_L, dom_singleton_L in Hd.
  apply elem_of_union in Hd as [Hd|Hd]; apply elem_of_singleton in Hd; subst k;
    repeat (apply elem_of_cons in Hk as [Hk|Hk]; [by vm_compute in Hk|]);
    by apply elem_of_nil in Hk.
Qed.

Lemma timed_original_timestamps k segment :
  timed_original !! k = Some segment → is_Some (Reconstruct.timestamp_of segment).
Proof.
  unfold timed_original. intros H.
  apply lookup_insert_Some in H as [[_ <-]|[_ H]]; [by eexists|].
  apply lookup_singleton_Some in H as [_ <-]. by eexists.
Qed.

Lemma reconstruct_after_validation_witness :
  ∃ result,
    Reconstruct.reconstruct_with_timestamps timed_original full_translation = Some result
    ∧ dom result = dom timed_original ∪ {[ lit "success"; lit "comment" ]}
    ∧ ∀ k segment, timed_original !! k = Some segment →
        ∃ t s, Reconstruct.timestamp_of segment = Some t
               ∧ full_translation !! k = Some (Main.PStr s)
               ∧ result !! k
                 = Some (Main.PDict {[ lit "t" := t; lit "s" := Main.PStr s ]}).
Proof.
  apply (reconstruct_after_validation timed_original full_translation
           timed_original_index_keys timed_original_timestamps).
  by vm_compute.
Defined.

Lemma reconstructed_result_validation_witness :
  fst (Main.validate_translation_structure timed_original (Main.PDict rebuilt_result))
  = true
  ↔ timed_original = ∅.
Proof.
  apply (reconstructed_result_validation timed_original full_translation rebuilt_result).
  reflexivity.
Defined.

(** The dictionary rebuilt from the sample fails the validation. *)
Example reconstruct_scenario :
  Reconstruct.reconstruct_with_timestamps timed_original full_translation
  = Some rebuilt_result
  ∧ fst (Main.validate_translation_structure timed_original (Main.PDict rebuilt_result))
    = false.
Proof. split; [reflexivity|by vm_compute]. Qed.

(** ** Counting words *)

Section WordCount.

Lemma words_spaces_app l s : Forall is_space l → words (l ++ s) = words s.
Proof.
  unfold words. induction 1 as [|c l Hc _ IH]; [done|].
  cbn [app words_go]. unfold is_space in Hc. by rewrite Hc.
Qed.

Lemma words_go_spaces b r : Forall is_space r → words_go b r = words_go b [].
Proof.
  intros Hr.
  assert (words_go false r = []) as H0.
  { induction Hr as [|d r Hd _ IH]; [done|]. cbn [words_go].
    unfold is_space in Hd. by rewrite Hd. }
  destruct b; [|done]. destruct Hr as [|d r Hd Hr]; [done|].
  cbn [words_go] in *. unfold is_space in Hd. rewrite Hd in *. by rewrite H0.
Qed.

Lemma words_go_app_spaces b s r :
  Forall is_space r → words_go b (s ++ r) = words_go b s.
Proof.
  intros Hr. revert b. induction s as [|c s IH]; intros b.
  - by apply words_go_spaces.
  - cbn [app words_go]. by rewrite !IH.
Qed.

Lemma words_strip s : words (strip s) = words s.
Proof.
  destruct (strip_decomp s) as (l & r & Hs & Hl & Hr).
  rewrite Hs at 2. rewrite words_spaces_app by done.
  unfold words. by rewrite words_go_app_spaces.
Qed.

Lemma remove_tags_go_plain s : "<"%char ∉ s → remove_tags_go false s = s.
Proof.
  induction s as [|c s IH]; [done|]. intros Hc. cbn [remove_tags_go].
  apply not_elem_of_cons in Hc as [Hc Hs].
  destruct (Ascii.eqb_spec c "<") as [->|_]; [done|]. cbn [andb]. by rewrite IH.
Qed.

Lemma filter_words ws :
  Forall is_word ws → filter (λ w, strip w ≠ []) ws = ws.
Proof.
  induction 1 as [|w ws Hw _ IH]; [done|].
  rewrite filter_cons_True; [by rewrite IH|].
  rewrite strip_clean_id by (by apply word_clean). apply Hw.
Qed.

End WordCount.

(** X19. [count_words_in_text] (and [SubtitleSegment.word_count]) returns the
    number of words, separated by white space, of the text without its
    tags: the filter on the words that are blank once stripped removes
    nothing. White space around the text does not count, and for a text
    without ["<"] the result is the number of words of the text itself. *)
Theorem count_words_in_text_words :
  ∀ text : str,
    count_words_in_text text = Z.of_nat (length (words (remove_tags (strip text))))
    ∧ count_words_in_text (strip text) = count_words_in_text text
    ∧ ("<"%char ∉ text → count_words_in_text text = Z.of_nat (length (words text))).
Proof.
  intros t.
  assert (∀ s, count_words_in_text s = Z.of_nat (length (words (remove_tags (strip s)))))
    as H.
  { intros s. unfold count_words_in_text. cbv zeta.
    by rewrite filter_words by apply words_are_words. }
  split; [apply H|]. split.
  - by rewrite !H, strip_idemp.
  - intros Hlt. rewrite H. unfold remove_tags.
    rewrite remove_tags_go_plain, words_strip; [done|].
    destruct (strip_decomp t) as (l & r & Hs & _). intros Hin. apply Hlt.
    rewrite Hs, !elem_of_app. auto.
Qed.

(** ** The children of a split *)

(** X20. When [split_advanced_segments] has found a split for a segment
    numbered from [-2^52] to [2^52 - 1], of at least 500 ms, that ends
    within one hundred hours, it writes two children: the first keeps the
    number and the start of the segment and carries the first part, the
    second has the number plus one half, keeps the end and carries the
    second part; the two times it writes read back as they are, each child
    lasts at least 200 ms, and 30 ms separate them. On such a segment the
    floating-point operations of the code raise nothing, and the sum
    [num + 0.5] is the number plus one half exactly. *)
Theorem split_advanced_segments_children :
  ∀ (imd : Z → Z → Z → Z) (segment : Main.Cue) (z : Z)
    (first_part second_part start_time end_time : str),
    Main.num segment = Main.Whole z →
    - 2 ^ 52 ≤ z < 2 ^ 52 →
    split (lit " --> ") (Main.timestamp segment) = [start_time; end_time] →
    500 ≤ Main.parse_timestamp end_time - Main.parse_timestamp start_time →
    Main.parse_timestamp end_time ≤ 360000000 →
    (∃ first_end_time second_start_time,
       Main.emit_split imd segment first_part second_part
       = Some [ Main.mkCue (Main.Whole z)
                  (start_time ++ lit " --> " ++ Main.format_timestamp first_end_time)
                  first_part;
                Main.mkCue (Main.PlusHalf z)
                  (Main.format_timestamp second_start_time ++ lit " --> " ++ end_time)
                  second_part ]
       ∧ Main.parse_timestamp (Main.format_timestamp first_end_time) = first_end_time
       ∧ Main.parse_timestamp (Main.format_timestamp second_start_time) = second_start_time
       ∧ Main.parse_timestamp start_time + 200 ≤ first_end_time
       ∧ second_start_time = first_end_time + 30
       ∧ second_start_time + 200 ≤ Main.parse_timestamp end_time)
    ∧ (∃ y, PyFloat.add_half z = Some y ∧ PyFloat.is_ratio y (2 * z + 1) 2)
    ∧ (let first_words := Z.of_nat (length (words first_part)) in
       let total_words := first_words + Z.of_nat (length (words second_part)) in
       0 < total_words →
       is_Some (PyFloat.imd
                  (Main.parse_timestamp end_time - Main.parse_timestamp start_time - 30)
                  first_words total_words)).
Proof.
  intros imd segment z fp sp st et Hnum Hz Ht Hd Hend.
  pose proof (main_parse_timestamp_nonneg st) as Hst.
  split; [|split].
  - destruct (emit_split_above imd segment fp sp st et Ht Hd)
      as (fe & ss & E & H1 & H2 & H3).
    unfold Main.min_segment_duration, Main.split_gap_ms in *.
    exists fe, ss. rewrite Hnum in E. split; [done|].
    split; [apply main_parse_format_timestamp_id; lia|].
    split; [apply main_parse_format_timestamp_id; lia|]. done.
  - by apply add_half_exact.
  - cbv zeta. intros Hw. apply imd_defined; [|lia|done].
    assert (360000000 < 2 ^ 1000) by done. lia.
Qed.

Lemma split_advanced_segments_children_witness :
  (∃ first_end_time second_start_time,
     Main.emit_split exact_imd long_cue (lit "Hello there.")
       (lit "How are you today my friend?")
     = Some [ Main.mkCue (Main.Whole 1)
                (lit "00:00:00,000" ++ lit " --> " ++ Main.format_timestamp first_end_time)
                (lit "Hello there.");
              Main.mkCue (Main.PlusHalf 1)
                (Main.format_timestamp second_start_time ++ lit " --> "
                   ++ lit "00:00:04,000")
                (lit "How are you today my friend?") ]
     ∧ Main.parse_timestamp (Main.format_timestamp first_end_time) = first_end_time
     ∧ Main.parse_timestamp (Main.format_timestamp second_start_time) = second_start_time
     ∧ Main.parse_timestamp (lit "00:00:00,000") + 200 ≤ first_end_time
     ∧ second_start_time = first_end_time + 30
     ∧ second_start_time + 200 ≤ Main.parse_timestamp (lit "00:00:04,000"))
  ∧ (∃ y, PyFloat.add_half 1 = Some y ∧ PyFloat.is_ratio y (2 * 1 + 1) 2)
  ∧ (let first_words := Z.of_nat (length (words (lit "Hello there."))) in
     let total_words :=
       first_words + Z.of_nat (length (words (lit "How are you today my friend?"))) in
     0 < total_words →
     is_Some (PyFloat.imd
                (Main.parse_timestamp (lit "00:00:04,000")
                 - Main.parse_timestamp (lit "00:00:00,000") - 30)
                first_words total_words)).
Proof.
  apply (split_advanced_segments_children exact_imd long_cue 1 (lit "Hello there.")
           (lit "How are you today my friend?") (lit "00:00:00,000") (lit "00:00:04,000")
           eq_refl); by vm_compute.
Defined.

(** ** The search for a split point *)

(** A position at which [find_punctuation_split_point] may split: a
    punctuation mark that is not a comma between digits. *)
Definition splittable_at (text : str) (i : nat) : Prop :=
  ∃ c, text !! i = Some c ∧ c ∈ Splitter.punctuation_marks
       ∧ (c = ","%char → Splitter.is_number_comma text i = false).

Section SearchFacts.
Import Main Splitter.

Lemma punct_loop_spec text i rest :
  drop i text = rest → Forall (splittable_at text) (punct_loop text i rest).
Proof.
  revert i. induction rest as [|char rest IH]; intros i Hd; [done|].
  assert (text !! i = Some char) as Hi.
  { rewrite <- (Nat.add_0_r i), <- lookup_drop, Hd. done. }
  assert (drop (S i) text = rest) as Hd'.
  { replace (S i) with (i + 1)%nat by lia. by rewrite <- drop_drop, Hd. }
  cbn [punct_loop]. case_bool_decide as Hp; [|by apply IH].
  destruct (Ascii.eqb_spec char ",") as [->|Hc]; cbn [andb].
  - destruct (is_number_comma text i) eqn:E; [by apply IH|].
    constructor; [|by apply IH]. by exists ","%char.
  - constructor; [|by apply IH]. by exists char.
Qed.

Lemma find_elem_of {A} (f : A → bool) (l : list A) x :
  find f l = Some x → x ∈ l ∧ f x = true.
Proof.
  intros H. apply find_some in H as [H1 H2]. split; [|done].
  by apply list_elem_of_In.
Qed.

Lemma parts_at_least_mono n m parts :
  (n ≤ m)%nat → parts_at_least m parts = true → parts_at_least n parts = true.
Proof.
  unfold parts_at_least. rewrite !andb_true_iff, !Nat.leb_le. lia.
Qed.

End SearchFacts.

(** Membership in a list given by its elements. *)
Ltac in_list := repeat first [apply list_elem_of_here | apply list_elem_of_further].

(** X21. [find_punctuation_split_point] either reports a failure, with the
    position -1, or returns the index of a punctuation mark of the text
    that is not a comma with digits close on both sides; unless there is a
    single mark in the text, the two parts then have at least three
    characters each. *)
Theorem find_punctuation_split_point_sound :
  ∀ (fl : Splitter.Floats) (text : str) (char_limit : Z),
    let '(pos, strategy) := Splitter.find_punctuation_split_point fl text char_limit in
    (pos = -1
     ∧ strategy ∈ [Splitter.no_punctuation; Splitter.single_too_unbalanced;
                   Splitter.no_good_split])
    ∨ (∃ i, pos = Z.of_nat i ∧ splittable_at text i
            ∧ (strategy = Splitter.single_punctuation
               ∨ strategy ∈ [Splitter.multiple_balanced; Splitter.multiple_aggressive;
                             Splitter.multiple_last_resort]
                 ∧ Splitter.parts_at_least 3 (Splitter.parts_after text i) = true)).
Proof.
  intros fl text char_limit. unfold Splitter.find_punctuation_split_point.
  pose proof (punct_loop_spec text 0 text eq_refl) as Hp.
  destruct (Splitter.punct_loop text 0 text) as [|p0 [|p1 l]] eqn:E.
  - left. split; [done|]. in_list.
  - destruct (_ || _).
    + right. exists p0. split; [done|]. split; [by apply Forall_inv in Hp|by left].
    + left. split; [done|]. in_list.
  - rewrite <- E in *. clear E p0 p1 l. cbv zeta.
    rewrite Forall_forall in Hp.
    set (strategy1 := find _ (reverse _)).
    set (best_pos := match strategy1 with Some pos => Z.of_nat pos | None => -1 end).
    destruct (Z.gtb_spec best_pos 0) as [Hpos|Hpos].
    { unfold best_pos in *. destruct strategy1 as [pos|] eqn:E1; [|lia].
      apply find_elem_of in E1 as [Hin Hlen]. rewrite elem_of_reverse in Hin.
      right. exists pos. split; [done|]. split; [by apply Hp|]. right.
      split; [in_list|]. eapply parts_at_least_mono; [|exact Hlen].
      destruct (Splitter.exceeds_1_5 _ _ _); lia. }
    clear strategy1 best_pos Hpos.
    set (strategy2 := if Splitter.exceeds_1_5 _ _ _ then find _ (reverse _) else None).
    destruct strategy2 as [pos|] eqn:E2.
    { unfold strategy2 in E2. destruct (Splitter.exceeds_1_5 _ _ _); [|done].
      apply find_elem_of in E2 as [Hin Hok]. rewrite elem_of_reverse in Hin.
      apply andb_true_iff in Hok as [_ Hlen].
      right. exists pos. split; [done|]. split; [by apply Hp|]. right.
      split; [in_list|done]. }
    destruct (last (Splitter.punct_loop text 0 text)) as [pos|] eqn:E3.
    2:{ left. split; [done|]. in_list. }
    destruct (Splitter.parts_at_least 3 _) eqn:Hlen.
    + right. exists pos. split; [done|]. split.
      * apply Hp. apply last_Some in E3 as [l' ->]. apply elem_of_app. right. by left.
      * right. split; [in_list|done].
    + left. split; [done|]. in_list.
Qed.

(** The characters of a text that are not white space. *)
Definition visible (s : str) : str := List.filter (λ c, negb (isspace c)) s.

Section SplitSegmentFacts.
Import Main Splitter.

Lemma visible_app a b : visible (a ++ b) = visible a ++ visible b.
Proof. apply List.filter_app. Qed.

Lemma visible_spaces s : Forall is_space s → visible s = [].
Proof.
  induction 1 as [|c s Hc _ IH]; [done|]. unfold visible in *. cbn [List.filter].
  unfold is_space in Hc. by rewrite Hc.
Qed.

Lemma visible_strip s : visible (strip s) = visible s.
Proof.
  destruct (strip_decomp s) as (l & r & Hs & Hl & Hr).
  rewrite Hs at 2. rewrite !visible_app, (visible_spaces l), (visible_spaces r) by done.
  by rewrite app_nil_r.
Qed.

Lemma visible_parts k text :
  visible (strip (take k text)) ++ visible (strip (drop k text)) = visible text.
Proof. by rewrite !visible_strip, <- visible_app, take_drop. Qed.

Lemma words_go_length b s :
  (length (words_go b s) ≤ length s + if b then 1 else 0)%nat.
Proof.
  revert b. induction s as [|c s IH]; intros b; cbn [words_go length].
  - destruct b; simpl; lia.
  - destruct (isspace c).
    + specialize (IH false). cbv beta iota in IH. destruct b; cbn [length]; lia.
    + specialize (IH true). cbv beta iota in IH.
      destruct (words_go true s), b; cbn [length] in *; lia.
Qed.

(** A clean text of two characters or more, cut anywhere inside, has no
    blank part. *)
Lemma clean_parts_nonempty k text :
  clean text → (0 < k < length text)%nat →
  strip (take k text) ≠ [] ∧ strip (drop k text) ≠ [].
Proof.
  intros [Hh Hl] Hk. split.
  - destruct text as [|c text]; [simpl in Hk; lia|].
    apply (strip_nonempty _ c); [|by apply Hh].
    destruct k; [lia|]. by left.
  - destruct (last text) as [d|] eqn:El.
    2:{ apply last_None in El. subst. simpl in Hk. lia. }
    apply (strip_nonempty _ d); [|by apply Hl].
    apply last_Some in El as [l' ->]. rewrite length_app in Hk. cbn [length] in Hk.
    rewrite drop_app_le by lia. apply elem_of_app. right. by left.
Qed.

Lemma parts_at_least_nonempty n parts :
  (1 ≤ n)%nat → parts_at_least n parts = true → parts.1 ≠ [] ∧ parts.2 ≠ [].
Proof.
  unfold parts_at_least. rewrite andb_true_iff, !Nat.leb_le.
  intros Hn [H1 H2]. split; intros E; rewrite E in *; cbn [length] in *; lia.
Qed.

Lemma words_go_cons_length c s :
  length (match words_go true s with
          | w :: ws => (c :: w) :: ws
          | [] => [[c]]
          end) = length (words_go true s).
Proof.
  destruct (words_go_spec s) as [_ (w & ws & -> & _)]. done.
Qed.

Lemma words_go_true_false s :
  (length (words_go false s) ≤ length (words_go true s) ≤ S (length (words_go false s)))%nat.
Proof.
  destruct s as [|c s]; cbn [words_go length]; [lia|].
  destruct (isspace c); cbn [length]; lia.
Qed.

(** Cutting a text in two never loses a word, and makes at most one more. *)
Lemma words_go_cut b a s :
  (length (words_go b (a ++ s)) ≤ length (words_go b a) + length (words_go false s)
   ≤ S (length (words_go b (a ++ s))))%nat.
Proof.
  revert b. induction a as [|c a IH]; intros b.
  - cbn [app]. pose proof (words_go_true_false s). destruct b; cbn [words_go length]; lia.
  - cbn [app words_go]. destruct (isspace c).
    + specialize (IH false). destruct b; cbn [length]; lia.
    + rewrite !words_go_cons_length. apply IH.
Qed.

Lemma words_parts k text :
  (length (words text)
   ≤ length (words (strip (take k text))) + length (words (strip (drop k text)))
   ≤ S (length (words text)))%nat.
Proof.
  pose proof (words_go_cut false (take k text) (drop k text)) as H.
  rewrite take_drop in H. rewrite !words_strip. exact H.
Qed.

Variable fl : Floats.

Lemma find_split_parts text char_limit first_part second_part :
  clean text → (2 ≤ length text)%nat →
  find_split fl text char_limit = Some (first_part, second_part) →
  first_part ≠ [] ∧ second_part ≠ []
  ∧ ∃ k, first_part = strip (take k text) ∧ second_part = strip (drop k text).
Proof.
  intros Hc Hlen. unfold find_split.
  destruct (find_punctuation_split_point fl text char_limit) as [split_pos strategy].
  cbv zeta.
  set (by_punctuation := if split_pos >? 0 then _ else None).
  destruct by_punctuation as [parts|] eqn:E1.
  { unfold by_punctuation in E1. destruct (split_pos >? 0); [|done].
    destruct (parts_at_least _ _) eqn:Hp; [|done].
    injection E1 as <-. intros [= <- <-].
    apply parts_at_least_nonempty in Hp as [? ?];
      [|destruct (exceeds_1_5 _ _ _); lia].
    split; [done|]. split; [done|]. by eexists. }
  clear by_punctuation E1.
  set (best_space_pos := if space_near_middle fl text =? -1 then _ else _).
  set (by_word_boundary := if best_space_pos >? 0 then _ else None).
  destruct by_word_boundary as [parts|] eqn:E2.
  { unfold by_word_boundary in E2. destruct (best_space_pos >? 0); [|done].
    destruct (parts_at_least _ _) eqn:Hp; [|done].
    injection E2 as <-. intros [= <- <-].
    apply parts_at_least_nonempty in Hp as [? ?]; [|lia].
    split; [done|]. split; [done|]. by eexists. }
  destruct (exceeds_1_8 _ _ _); [|done]. intros [= <- <-].
  assert (0 < length text / 2 < length text)%nat as Hk.
  { split.
    - apply Nat.div_str_pos. lia.
    - apply Nat.div_lt; lia. }
  destruct (clean_parts_nonempty _ text Hc Hk). split; [done|]. split; [done|].
  by eexists.
Qed.

Lemma should_process_words text char_limit :
  should_process fl text char_limit = true → (2 ≤ length text)%nat.
Proof.
  unfold should_process, words. pose proof (words_go_length false text) as H.
  cbv beta iota in H. rewrite orb_true_iff, !andb_true_iff, !Nat.leb_le.
  intros [[_ ?]|[_ ?]]; lia.
Qed.

Lemma emit_split_shape imd segment first_part second_part start_time end_time :
  split (lit " --> ") (timestamp segment) = [start_time; end_time] →
  emit_split imd segment first_part second_part = Some [segment]
  ∨ ∃ t1 t2, emit_split imd segment first_part second_part
             = Some [mkCue (num segment) t1 first_part;
                     mkCue (add_half (num segment)) t2 second_part].
Proof.
  intros Ht.
  destruct (Z.lt_ge_cases
              (parse_timestamp end_time - parse_timestamp start_time)
              required_total_duration) as [Hlt|Hge].
  - left. by apply (emit_split_below imd segment _ _ start_time end_time).
  - right.
    destruct (emit_split_above imd segment first_part second_part start_time end_time
                Ht Hge) as (fe & ss & -> & _).
    by eexists _, _.
Qed.

End SplitSegmentFacts.

(** X22. One segment through the splitter, numbered from [-2^52] to
    [2^52 - 1]. Whatever the loop appends for it is the segment as it is,
    or two children: the first with its number, the second with its number
    plus one half, which is what the floating-point sum [num + 0.5] gives
    exactly for such a number, both with a text that is not empty and has no
    white space at its ends; the characters of the two texts other than
    white space are, in order, those of the text of the segment, and the
    two texts have together as many words as the text of the segment, or
    one more. *)
Theorem split_segment_conserves :
  ∀ (fl : Splitter.Floats) (imd : Z → Z → Z → Z) (char_limit : Z) (segment : Main.Cue)
    (z : Z) (new_segments : list Main.Cue),
    Main.num segment = Main.Whole z →
    - 2 ^ 52 ≤ z < 2 ^ 52 →
    Splitter.split_segment fl imd char_limit segment = Some new_segments →
    new_segments = [segment]
    ∨ ∃ child1 child2,
        new_segments = [child1; child2]
        ∧ Main.num child1 = Main.Whole z
        ∧ Main.num child2 = Main.PlusHalf z
        ∧ (∃ y, PyFloat.add_half z = Some y ∧ PyFloat.is_ratio y (2 * z + 1) 2)
        ∧ Main.cue_text child1 ≠ [] ∧ Main.cue_text child2 ≠ []
        ∧ clean (Main.cue_text child1) ∧ clean (Main.cue_text child2)
        ∧ visible (Main.cue_text child1) ++ visible (Main.cue_text child2)
          = visible (Main.cue_text segment)
        ∧ (length (words (Main.cue_text segment))
           ≤ length (words (Main.cue_text child1))
             + length (words (Main.cue_text child2))
           ≤ S (length (words (Main.cue_text segment))))%nat.
Proof.
  intros fl imd char_limit segment z new_segments Hnum Hz.
  unfold Splitter.split_segment.
  destruct (Splitter.should_process _ _ _) eqn:Hsp; [|intros [= <-]; by left].
  apply should_process_words in Hsp.
  destruct (split (lit " --> ") (Main.timestamp segment))
    as [|start_time [|end_time [|? ?]]] eqn:Ht; try done.
  destruct (Splitter.find_split _ _ _) as [[first_part second_part]|] eqn:Ef;
    [|intros [= <-]; by left].
  apply find_split_parts in Ef as (Hf & Hs & k & Ef & Es);
    [|apply strip_is_clean|done].
  destruct (emit_split_shape imd segment first_part second_part _ _ Ht)
    as [->|(t1 & t2 & ->)]; intros [= <-]; [by left|].
  right. eexists _, _. split; [done|]. cbn [Main.num Main.cue_text].
  rewrite Hnum. split; [done|]. split; [done|].
  split; [by apply add_half_exact|].
  repeat (split; [done|]).
  split; [rewrite Ef; apply strip_is_clean|].
  split; [rewrite Es; apply strip_is_clean|].
  split; [by rewrite Ef, Es, visible_parts, visible_strip|].
  rewrite Ef, Es, <- (words_strip (Main.cue_text segment)). apply words_parts.
Qed.

Lemma split_segment_conserves_witness :
  [ Main.mkCue (Main.Whole 1) (lit "00:00:00,000 --> 00:00:00,992") (lit "Hello there.");
    Main.mkCue (Main.PlusHalf 1) (lit "00:00:01,022 --> 00:00:04,000")
      (lit "How are you today my friend?") ]
  = [long_cue]
  ∨ ∃ child1 child2,
      [ Main.mkCue (Main.Whole 1) (lit "00:00:00,000 --> 00:00:00,992")
          (lit "Hello there.");
        Main.mkCue (Main.PlusHalf 1) (lit "00:00:01,022 --> 00:00:04,000")
          (lit "How are you today my friend?") ]
      = [child1; child2]
      ∧ Main.num child1 = Main.Whole 1
      ∧ Main.num child2 = Main.PlusHalf 1
      ∧ (∃ y, PyFloat.add_half 1 = Some y ∧ PyFloat.is_ratio y (2 * 1 + 1) 2)
      ∧ Main.cue_text child1 ≠ [] ∧ Main.cue_text child2 ≠ []
      ∧ clean (Main.cue_text child1) ∧ clean (Main.cue_text child2)
      ∧ visible (Main.cue_text child1) ++ visible (Main.cue_text child2)
        = visible (Main.cue_text long_cue)
      ∧ (length (words (Main.cue_text long_cue))
         ≤ length (words (Main.cue_text child1))
           + length (words (Main.cue_text child2))
         ≤ S (length (words (Main.cue_text long_cue))))%nat.
Proof.
  apply (split_segment_conserves Splitter.exact_floats exact_imd 40 long_cue 1);
    by vm_compute.
Defined.

(** The segment of four seconds through the splitter, at a limit of 40
    characters: the punctuation search splits after ["Hello there."]. *)
Example split_segment_scenario :
  Splitter.find_punctuation_split_point Splitter.exact_floats
    (lit "Hello there. How are you today my friend?") 40
  = (11, Splitter.multiple_balanced)
  ∧ Splitter.split_segment Splitter.exact_floats exact_imd 40 long_cue
    = Some [ Main.mkCue (Main.Whole 1) (lit "00:00:00,000 --> 00:00:00,992")
               (lit "Hello there.");
             Main.mkCue (Main.PlusHalf 1) (lit "00:00:01,022 --> 00:00:04,000")
               (lit "How are you today my friend?") ].
Proof. by vm_compute. Qed.

(** ** The whole splitting pass *)

(** What the final filter of [split_advanced_segments] lets through: a text
    of two characters or more once stripped and, when the time line has
    its two parts, two different parts at least 50 ms apart. *)
Definition passes_filter (c : Main.Cue) : Prop :=
  (2 ≤ length (strip (Main.cue_text c)))%nat
  ∧ ∀ start_time end_time,
      split (lit " --> ") (Main.timestamp c) = [start_time; end_time] →
      start_time ≠ end_time
      ∧ 50 ≤ Main.parse_timestamp end_time - Main.parse_timestamp start_time.

Section PassFilter.
Import Main Splitter.

Lemma occurs_app sep l r : occurs sep (l ++ sep ++ r) = true.
Proof.
  induction l as [|c l IH].
  - cbn [app]. destruct (sep ++ r) eqn:E; cbn [occurs]; rewrite <- E, startswith_app; done.
  - cbn [app occurs]. rewrite IH. apply orb_true_r.
Qed.

Lemma keeps_true segment : keeps segment = Some true → passes_filter segment.
Proof.
  unfold keeps, passes_filter.
  destruct (bool_decide _ || _) eqn:E1; [done|].
  apply orb_false_iff in E1 as [_ E1]. apply Nat.ltb_ge in E1.
  intros H. split; [done|]. intros st et Ht. rewrite Ht in H.
  assert (occurs (lit " --> ") (timestamp segment) = true) as Ho.
  { rewrite <- (join_split (lit " --> ") (timestamp segment)) by done.
    rewrite Ht. apply (occurs_app _ st et). }
  rewrite Ho in H. case_bool_decide; [done|].
  destruct (Z.geb_spec (parse_timestamp st) (parse_timestamp et)); [done|].
  destruct (Z.ltb_spec (parse_timestamp et - parse_timestamp st) 50); [done|].
  split; [done|lia].
Qed.

Lemma filter_loop_spec segments acc valid_segments :
  foldl filter_step acc segments = Some valid_segments →
  ∃ before kept, acc = Some before ∧ valid_segments = before ++ kept
                 ∧ Forall passes_filter kept ∧ (length kept ≤ length segments)%nat.
Proof.
  revert acc. induction segments as [|segment segments IH]; intros acc H.
  - exists valid_segments, []. rewrite app_nil_r. by repeat split.
  - cbn [foldl] in H. apply IH in H as (before' & kept & E & -> & Hk & Hl).
    destruct acc as [before|]; [|done]. cbn in E.
    destruct (keeps segment) as [[|]|] eqn:Ek; cbn in E; [| |done].
    + injection E as <-. exists before, (segment :: kept).
      split; [done|]. split; [by rewrite <- app_assoc|].
      split; [constructor; [by apply keeps_true|done]|]. cbn [length]. lia.
    + injection E as <-. exists before, kept. repeat split; try done.
      cbn [length]. lia.
Qed.

Lemma insert_by_num_length x l : length (insert_by_num x l) = S (length l).
Proof.
  induction l as [|y l IH]; [done|]. cbn [insert_by_num].
  destruct (_ <=? _); cbn [length]; [done|]. by rewrite IH.
Qed.

Lemma sort_by_num_length l : length (sort_by_num l) = length l.
Proof.
  induction l as [|x l IH]; [done|]. unfold sort_by_num in *. cbn [foldr].
  rewrite insert_by_num_length. by rewrite IH.
Qed.

Variable fl : Floats.
Variable imd : Z → Z → Z → Z.

Lemma split_segment_length char_limit segment added :
  split_segment fl imd char_limit segment = Some added → (length added ≤ 2)%nat.
Proof.
  unfold split_segment. destruct (should_process _ _ _); [|by intros [= <-]; simpl; lia].
  destruct (split (lit " --> ") (timestamp segment))
    as [|start_time [|end_time [|? ?]]] eqn:Ht; try done.
  destruct (find_split _ _ _) as [[first_part second_part]|];
    [|by intros [= <-]; simpl; lia].
  destruct (emit_split_shape imd segment first_part second_part _ _ Ht)
    as [->|(t1 & t2 & ->)]; intros [= <-]; simpl; lia.
Qed.

Lemma split_loop_length char_limit segments acc new_segments :
  foldl (split_step fl imd char_limit) acc segments = Some new_segments →
  ∃ before, acc = Some before
            ∧ (length new_segments ≤ length before + 2 * length segments)%nat.
Proof.
  revert acc. induction segments as [|segment segments IH]; intros acc H.
  - exists new_segments. cbn [length]. split; [done|lia].
  - cbn [foldl] in H. apply IH in H as (before' & E & Hl).
    destruct acc as [before|]; [|done]. cbn in E.
    destruct (split_segment fl imd char_limit segment) as [added|] eqn:Es; [|done].
    cbn in E. injection E as <-. apply split_segment_length in Es.
    exists before. split; [done|]. rewrite length_app in Hl. cbn [length]. lia.
Qed.

End PassFilter.

(** X23. Whatever [split_advanced_segments] returns, its segments are
    numbered 1, 2, 3, ... in their order, each passes the final filter - a
    text of two characters or more, and two different times at least 50 ms
    apart when the time line has its two parts - and there are at most
    twice as many of them as blocks were read. *)
Theorem split_advanced_segments_result :
  ∀ (fl : Splitter.Floats) (imd : Z → Z → Z → Z) (srt_content : str) (char_limit : Z)
    (cues : list Main.Cue),
    Splitter.split_advanced_cues fl imd srt_content char_limit = Some cues →
    (∀ i c, cues !! i = Some c → Main.num c = Main.Whole (Z.of_nat i + 1))
    ∧ Forall passes_filter cues
    ∧ ∃ segments, Splitter.parse_cues srt_content = Some segments
                  ∧ (length cues ≤ 2 * length segments)%nat.
Proof.
  intros fl imd srt char_limit cues. unfold Splitter.split_advanced_cues.
  destruct (Splitter.parse_cues srt) as [segments|]; [|done]. cbn.
  destruct (foldl _ (Some []) segments) as [new_segments|] eqn:En; [|done]. cbn.
  destruct (foldl Splitter.filter_step _ _) as [valid_segments|] eqn:Ev; [|done]. cbn.
  intros [= <-].
  apply split_loop_length in En as (? & [= <-] & Hn).
  apply filter_loop_spec in Ev as (? & kept & [= <-] & -> & Hk & Hl).
  rewrite sort_by_num_length in Hl. cbn [app length] in *.
  unfold Splitter.renumber. split; [|split].
  - intros i c Hc. rewrite list_lookup_imap in Hc.
    destruct (kept !! i); [|done]. by injection Hc as <-.
  - apply Forall_lookup. intros i c Hc. rewrite list_lookup_imap in Hc.
    destruct (kept !! i) as [c0|] eqn:E0; [|done]. injection Hc as <-.
    by apply (Forall_lookup_1 _ _ _ _ Hk E0).
  - exists segments. split; [done|]. rewrite length_imap. lia.
Qed.

(** A long segment followed by a short one, and what the pass makes of
    them at a limit of 40 characters. *)
Definition long_short_srt : str :=
  srt_text ["1"; "00:00:00,000 --> 00:00:04,000";
            "Hello there. How are you today my friend?"; "";
            "2"; "00:00:04,100 --> 00:00:05,000"; "Bye"]%string.
Definition long_short_cues : list Main.Cue :=
  [ Main.mkCue (Main.Whole 1) (lit "00:00:00,000 --> 00:00:00,992") (lit "Hello there.");
    Main.mkCue (Main.Whole 2) (lit "00:00:01,022 --> 00:00:04,000")
      (lit "How are you today my friend?");
    Main.mkCue (Main.Whole 3) (lit "00:00:04,100 --> 00:00:05,000") (lit "Bye") ].

Lemma split_advanced_segments_result_witness :
  (∀ i c, long_short_cues !! i = Some c → Main.num c = Main.Whole (Z.of_nat i + 1))
  ∧ Forall passes_filter long_short_cues
  ∧ ∃ segments, Splitter.parse_cues long_short_srt = Some segments
                ∧ (length long_short_cues ≤ 2 * length segments)%nat.
Proof.
  apply (split_advanced_segments_result Splitter.exact_floats exact_imd
           long_short_srt 40 long_short_cues).
  by vm_compute.
Defined.

Example split_advanced_segments_pass_scenario :
  Splitter.split_advanced_segments Splitter.exact_floats exact_imd long_short_srt 40
  = Some (srt_text ["1"; "00:00:00,000 --> 00:00:00,992"; "Hello there."; "";
                    "2"; "00:00:01,022 --> 00:00:04,000";
                    "How are you today my friend?"; "";
                    "3"; "00:00:04,100 --> 00:00:05,000"; "Bye"; ""]%string).
Proof. by vm_compute. Qed.

(** ** The whole timing pass of [main.py] *)

(** The time [format_timestamp] of [main.py] writes for [t]: zero for a
    negative time, hours capped at 99. *)
Definition written_time (t : Z) : Z :=
  if t <? 0 then 0 else Z.min 99 (t / 3600000) * 3600000 + t mod 3600000.

Definition written_segment (seg : Segment) : Segment :=
  mkSegment (number seg) (written_time (start_ms seg)) (written_time (end_ms seg))
    (text seg).

Section MainPassFacts.

Lemma written_time_range t : 0 ≤ written_time t < 360000000.
Proof.
  unfold written_time. destruct (Z.ltb_spec t 0); [lia|].
  pose proof (Z.mod_pos_bound t 3600000 ltac:(lia)).
  assert (0 ≤ t / 3600000) by (apply Z.div_pos; lia). lia.
Qed.

Lemma written_fields u h :
  0 ≤ u → 0 ≤ h →
  let w := h * 3600000 + u mod 3600000 in
  w / 3600000 = h ∧ w mod 3600000 = u mod 3600000 ∧ w mod 1000 = u mod 1000
  ∧ w mod 60000 / 1000 = (u / 1000) mod 60
  ∧ u mod 3600000 / 60000 = (u / 1000) mod 3600 / 60.
Proof. intros Hu Hh. cbv zeta. Z.div_mod_to_equations. lia. Qed.

Lemma main_format_written t :
  Main.format_timestamp t = TR.format_timestamp (written_time t).
Proof.
  pose proof (written_time_range t) as Hr.
  unfold Main.format_timestamp, TR.format_timestamp.
  rewrite (Z.max_r 0 (written_time t)) by lia.
  unfold written_time in *.
  set (u := if t <? 0 then 0 else t).
  assert (0 ≤ u) as Hu by (unfold u; destruct (Z.ltb_spec t 0); lia).
  assert ((if t <? 0 then 0 else Z.min 99 (t / 3600000) * 3600000 + t mod 3600000)
          = Z.min 99 (u / 3600000) * 3600000 + u mod 3600000) as ->.
  { unfold u. by destruct (Z.ltb_spec t 0). }
  destruct (clock_fields u Hu) as (Hh & Hm & Hs & Hms & Eh & Eu).
  assert (0 ≤ Z.min 99 (u / 3600000)) as Hq by lia.
  destruct (written_fields u (Z.min 99 (u / 3600000)) Hu Hq) as (E1 & E2 & E3 & E4 & E5).
  cbv zeta. change (1000 * 60 * 60) with 3600000. change (1000 * 60) with 60000.
  rewrite E1, E2, E3, E4, E5, Eh.
  replace (Z.max 0 (Z.min 99 (u / 3600000))) with (Z.min 99 (u / 3600000)) by lia.
  replace (Z.max 0 (Z.min 59 ((u / 1000) mod 3600 / 60)))
    with ((u / 1000) mod 3600 / 60) by lia.
  replace (Z.max 0 (Z.min 59 ((u / 1000) mod 60))) with ((u / 1000) mod 60) by lia.
  replace (Z.max 0 (Z.min 999 (u mod 1000))) with (u mod 1000) by lia.
  done.
Qed.

End MainPassFacts.

(** A text as the parsers return it: not empty, without white space at its
    ends, without blank line. *)
Definition well_formed_text (t : str) : Prop :=
  t ≠ [] ∧ clean t ∧ ¬ contains [LF; LF] t.

Section MainPassRender.

Lemma main_srt_lines segments :
  MainPass.srt_lines segments = TR.srt_lines (written_segment <$> segments).
Proof.
  unfold MainPass.srt_lines, TR.srt_lines.
  set (f := λ (acc : list str) (segment : Segment), acc ++ _).
  set (g := λ (acc : list str) (segment : Segment), acc ++ _).
  enough (∀ acc, foldl f acc segments = foldl g acc (written_segment <$> segments)) as H
    by apply H.
  induction segments as [|seg segments IH]; intros acc; [done|].
  rewrite fmap_cons. cbn [foldl]. rewrite IH. f_equal. unfold f, g.
  cbn [written_segment number start_ms end_ms text].
  by rewrite !main_format_written.
Qed.

Lemma main_render_srt segments :
  MainPass.render_srt segments = TR.render_srt (written_segment <$> segments).
Proof. unfold MainPass.render_srt, TR.render_srt. by rewrite main_srt_lines. Qed.

Lemma main_parse_tr_format u :
  0 ≤ u < 360000000 → Main.parse_timestamp (TR.format_timestamp u) = u.
Proof.
  intros Hu. rewrite <- (main_parse_format_timestamp_id u Hu) at 2.
  rewrite main_format_written. unfold written_time.
  destruct (Z.ltb_spec u 0); [lia|].
  pose proof (Z.div_mod u 3600000 ltac:(lia)).
  assert (u / 3600000 < 100) by (apply Z.div_lt_upper_bound; lia).
  do 2 f_equal. lia.
Qed.

Definition within_hours (seg : Segment) : Prop :=
  start_ms seg < 360000000 ∧ end_ms seg < 360000000.

Lemma main_parse_step_block seg :
  well_formed_segment seg → within_hours seg →
  parse_step Main.parse_timestamp [] (block_text seg) = [seg].
Proof.
  intros Hwf [Hs' He'].
  destruct (block_clean seg Hwf) as [Hc Hne].
  destruct Hwf as (Hs & He & Htne & Htc & _).
  destruct (time_line_facts seg) as (Hlc & _ & _ & Harrow).
  unfold parse_step. rewrite (strip_clean_id _ Hc), bool_decide_false by done.
  rewrite block_lines.
  pose proof (split_not_nil [LF] (text seg)) as Hsp.
  destruct (Nat.leb_spec 3 (length (py_str (number seg) :: time_line seg
                                      :: split [LF] (text seg)))) as [_|Hlen].
  2:{ destruct (split [LF] (text seg)); [done|]. simpl in Hlen. lia. }
  unfold parse_block.
  rewrite (strip_clean_id (py_str _))
    by apply numeral_clean, py_str_numeral.
  rewrite py_int_py_str. cbn [mbind option_bind].
  rewrite (strip_clean_id _ Hlc), Harrow.
  rewrite !(strip_clean_id (TR.format_timestamp _))
    by apply stamp_clean, format_timestamp_stamp.
  rewrite !main_parse_tr_format by done.
  rewrite join_split by done. rewrite (strip_clean_id _ Htc).
  by destruct seg.
Qed.

Lemma main_parse_render segments :
  Forall well_formed_segment segments → Forall within_hours segments →
  parse_blocks Main.parse_timestamp (TR.render_srt segments) = segments.
Proof.
  intros Hwf Hin. destruct (decide (segments = [])) as [->|Hne]; [done|].
  unfold TR.render_srt, parse_blocks.
  rewrite join_srt_lines by done.
  pose proof (blocks_clean segments Hwf Hne) as Hc.
  rewrite strip_app_spaces by (done || by repeat constructor).
  rewrite (strip_clean_id _ Hc), split_blocks by done.
  rewrite parse_blocks_fold. simpl.
  induction Hwf as [|seg segments Hseg Hsegs IH]; [done|].
  apply Forall_cons in Hin as [Hin1 Hin2].
  rewrite fmap_cons, fmap_cons. cbn [concat].
  rewrite main_parse_step_block by done.
  destruct (decide (segments = [])) as [->|Hne']; [done|].
  simpl. f_equal. apply IH; [done..|]. by apply blocks_clean.
Qed.

(** What [main.py] writes for segments with well-formed texts reads back,
    with its own parser, as the segments with the times as written. *)
Lemma main_render_parse segments :
  Forall (λ seg, well_formed_text (text seg)) segments →
  parse_blocks Main.parse_timestamp (MainPass.render_srt segments)
  = written_segment <$> segments.
Proof.
  intros Ht. rewrite main_render_srt. apply main_parse_render.
  - apply Forall_fmap. eapply Forall_impl; [exact Ht|].
    intros seg (H1 & H2 & H3). unfold well_formed_segment. cbn.
    pose proof (written_time_range (start_ms seg)).
    pose proof (written_time_range (end_ms seg)).
    split; [lia|]. split; [lia|]. done.
  - apply Forall_fmap. apply Forall_forall. intros seg _. unfold within_hours. cbn.
    pose proof (written_time_range (start_ms seg)).
    pose proof (written_time_range (end_ms seg)). lia.
Qed.

Lemma well_formed_text_label (l l' : list Segment) :
  label <$> l = label <$> l' →
  Forall (λ seg, well_formed_text (text seg)) l' →
  Forall (λ seg, well_formed_text (text seg)) l.
Proof.
  intros E H.
  assert (text <$> l = text <$> l') as Et.
  { apply (f_equal (fmap snd)) in E. by rewrite <- !list_fmap_compose in E. }
  apply (Forall_fmap text well_formed_text). rewrite Et. by apply Forall_fmap.
Qed.

Variable imd : Z → Z → Z → Z.

Lemma main_redistribute_label group mind gap :
  label <$> Main.redistribute_timing_in_group imd group mind gap = label <$> group.
Proof.
  unfold Main.redistribute_timing_in_group.
  destruct (length group <=? 1)%nat; [done|].
  destruct (_ =? 0); [done|].
  destruct (head group), (last group); try done.
  destruct (_ <=? 0); [done|].
  destruct (_ <=? 0); cbv beta iota zeta.
  all: match goal with
       | |- context [Main.redistribute_loop ?a ?b ?c ?d ?e ?f ?g ?h ?i ?j] =>
           pose proof (main_loop_label a b c d e f g h i j) as Hl;
           destruct (Main.redistribute_loop a b c d e f g h i j) as [|r0 out]
       end; [done|].
  all: by rewrite verify_no_overlaps_label, label_alter.
Qed.

Lemma main_redistribute_groups_label groups mind :
  label <$> MainPass.redistribute_groups imd groups mind = label <$> concat groups.
Proof.
  unfold MainPass.redistribute_groups.
  set (f := λ (all_redistributed : list Segment) (group : list Segment), _).
  enough (∀ acc, label <$> foldl f acc groups = label <$> (acc ++ concat groups)) as H
    by apply (H []).
  induction groups as [|g groups IH]; intros acc; cbn [foldl concat].
  - by rewrite app_nil_r.
  - rewrite IH, app_assoc, !fmap_app. do 2 f_equal. unfold f.
    destruct (1 <? length g)%nat; rewrite fmap_app; [|done].
    by rewrite main_redistribute_label.
Qed.

End MainPassRender.

(** X24. What [redistribute_srt_timing] of [main.py] writes reads back, with
    the parser of [main.py], as segments in the order of their numbers that
    carry the numbers and texts of the segments of the input, each as often
    as there; when the segments of the input come in the order of their
    numbers, it reads back as the redistributed groups one after the other,
    with the times as [format_timestamp] writes them. *)
Theorem main_redistribute_srt_timing_keeps_cues :
  ∀ (imd : Z → Z → Z → Z) (srt_content : str) (max_gap_ms min_duration_ms : Z),
    let segments := parse_blocks Main.parse_timestamp srt_content in
    let result :=
      MainPass.redistribute_srt_timing imd srt_content max_gap_ms min_duration_ms in
    label <$> parse_blocks Main.parse_timestamp result ≡ₚ label <$> segments
    ∧ all_adjacent number_le (parse_blocks Main.parse_timestamp result)
    ∧ (all_adjacent number_le segments →
       parse_blocks Main.parse_timestamp result
       = written_segment
           <$> MainPass.redistribute_groups imd
                 (Main.group_continuous_subtitles_for_timing srt_content max_gap_ms)
                 min_duration_ms).
Proof.
  intros imd T mg mind. cbv zeta.
  unfold MainPass.redistribute_srt_timing, Main.group_continuous_subtitles_for_timing.
  pose proof (parse_blocks_well_formed Main.parse_timestamp main_parse_timestamp_nonneg T)
    as Hwf.
  pose proof (group_segments_concat (parse_blocks Main.parse_timestamp T) mg) as Hcat.
  destruct (group_segments (parse_blocks Main.parse_timestamp T) mg) as [|g0 groups] eqn:Eg.
  { cbn [concat] in Hcat. rewrite <- Hcat.
    split; [done|]. split; [apply all_adjacent_nil|]. by intros _. }
  rewrite <- Eg in *. clear Eg g0 groups.
  set (all := MainPass.redistribute_groups imd _ mind).
  assert (label <$> all = label <$> parse_blocks Main.parse_timestamp T) as Hlab.
  { unfold all. by rewrite main_redistribute_groups_label, Hcat. }
  assert (Forall (λ seg, well_formed_text (text seg)) all) as Htext.
  { apply (well_formed_text_label _ _ Hlab).
    eapply Forall_impl; [exact Hwf|]. by intros seg (_ & _ & ? & ? & ?). }
  assert (∀ l : list Segment, label <$> (written_segment <$> l) = label <$> l) as Hw.
  { intros l. by rewrite <- list_fmap_compose. }
  split; [|split].
  - rewrite main_render_parse.
    + by rewrite Hw, sort_by_number_perm, Hlab.
    + by rewrite sort_by_number_perm.
  - rewrite main_render_parse by (by rewrite sort_by_number_perm).
    eapply number_le_fmap; [|apply (sort_by_number_sorted all)].
    apply label_number. by rewrite Hw.
  - intros Hord. rewrite sort_by_number_id.
    + by apply main_render_parse.
    + eapply number_le_fmap; [|exact Hord]. symmetry. by apply label_number.
Qed.

(** ** The exchange format *)

(** An item of the dictionary [srt_to_json] builds: a key without white
    space at its ends, and the two strings of a block, stripped. *)
Definition exchange_item (item : str * Main.pyval) : Prop :=
  clean item.1
  ∧ ∃ timestamp subtitle_text,
      item.2 = Exchange.entry timestamp subtitle_text
      ∧ clean timestamp ∧ clean subtitle_text.

Section ExchangeFacts.
Import Main Exchange.

Lemma dict_set_fresh {V} k (v : V) d : k ∉ d.*1 → dict_set k v d = d ++ [(k, v)].
Proof.
  induction d as [|[k' v'] d IH]; [done|]. cbn [fmap list_fmap dict_set app].
  intros [Hk Hd]%not_elem_of_cons. rewrite decide_False by done. by rewrite IH.
Qed.

Lemma dict_set_keys {V} k (v : V) d :
  (dict_set k v d).*1 = if decide (k ∈ d.*1) then d.*1 else d.*1 ++ [k].
Proof.
  induction d as [|[k' v'] d IH]; [done|]. cbn [fmap list_fmap dict_set].
  destruct (decide (k = k')) as [->|Hk].
  - rewrite decide_True by (by left). done.
  - cbn [fmap list_fmap]. rewrite IH. destruct (decide (k ∈ d.*1)) as [Hin|Hn].
    + rewrite decide_True by (by right). done.
    + rewrite decide_False; [done|]. by intros [?|?]%elem_of_cons.
Qed.

Lemma dict_set_spec {V} (P : str * V → Prop) k (v : V) d :
  P (k, v) → Forall P d → NoDup d.*1 →
  Forall P (dict_set k v d) ∧ NoDup (dict_set k v d).*1.
Proof.
  intros Hkv Hd Hn. split.
  - clear Hn. induction Hd as [|[k' v'] d Hx Hd IH]; [by constructor|].
    cbn [dict_set]. destruct (decide (k = k')); by constructor.
  - rewrite dict_set_keys. case_decide; [done|].
    apply NoDup_app. split; [done|]. split; [|apply NoDup_singleton].
    intros x Hx ->%list_elem_of_singleton. done.
Qed.

Lemma srt_to_json_items srt_content :
  Forall exchange_item (srt_to_json srt_content) ∧ NoDup (srt_to_json srt_content).*1.
Proof.
  unfold srt_to_json.
  apply (foldl_invariant (λ d, Forall exchange_item d ∧ NoDup d.*1)).
  - split; [done|]. cbn. apply NoDup_nil_2.
  - intros d block [Hd Hn]. unfold srt_to_json_step.
    case_bool_decide; [done|]. destruct (3 <=? _)%nat; [|done].
    apply dict_set_spec; [|done..].
    split; [apply strip_is_clean|]. eexists _, _. split; [done|].
    split; apply strip_is_clean.
Qed.

Lemma entry_timestamp timestamp subtitle_text :
  Reconstruct.timestamp_of (entry timestamp subtitle_text) = Some (PStr timestamp).
Proof. unfold entry. cbn. by rewrite lookup_insert_eq. Qed.

End ExchangeFacts.

(** X25. The dictionary [srt_to_json] builds has one item per key; no key
    starts or ends with white space, and every value is a dictionary with a
    string under ['t'] and a string under ['s'], neither of which starts or
    ends with white space. On such originals [reconstruct_with_timestamps]
    never raises, whatever the translations. *)
Theorem srt_to_json_reconstructs :
  ∀ srt_content : str,
    NoDup (Exchange.srt_to_json srt_content).*1
    ∧ Forall exchange_item (Exchange.srt_to_json srt_content)
    ∧ ∀ translated_texts : gmap str Main.pyval,
        is_Some (Reconstruct.reconstruct_with_timestamps
                   (list_to_map (Exchange.srt_to_json srt_content)) translated_texts).
Proof.
  intros T. destruct (srt_to_json_items T) as [Hi Hn].
  split; [done|]. split; [done|]. intros tr.
  pose proof (reconstruct_spec tr (list_to_map (Exchange.srt_to_json T))) as H.
  destruct (Reconstruct.reconstruct_with_timestamps _ tr) as [r|]; [by eexists|].
  destruct H as (k & _ & _ & seg & Hs & Ht).
  apply elem_of_list_to_map_2 in Hs.
  rewrite Forall_forall in Hi. destruct (Hi _ Hs) as (_ & ts & text & E & _).
  cbn in E. rewrite E, entry_timestamp in Ht. done.
Qed.

Section ExchangeRoundTrip.
Import Main Exchange.

(** What [srt_to_json] makes of a rendered segment. *)
Definition item_of (seg : Segment) : str * pyval :=
  (py_str (number seg), entry (time_line seg) (text seg)).

Lemma render_blocks segments :
  Forall well_formed_segment segments → segments ≠ [] →
  TR.render_srt segments = join [LF; LF] (block_text <$> segments).
Proof.
  intros Hwf Hne. unfold TR.render_srt. rewrite join_srt_lines by done.
  rewrite strip_app_spaces; [done|by apply blocks_clean|by repeat constructor].
Qed.

Lemma srt_to_json_step_block json_data seg :
  well_formed_segment seg → (LF ∉ text seg) →
  srt_to_json_step json_data (block_text seg)
  = dict_set (py_str (number seg)) (entry (time_line seg) (text seg)) json_data.
Proof.
  intros Hwf Hlf. destruct (block_clean seg Hwf) as [Hc Hne].
  destruct Hwf as (_ & _ & Htne & Htc & _).
  destruct (time_line_facts seg) as (Hlc & _ & _ & _).
  unfold srt_to_json_step. rewrite (strip_clean_id _ Hc), bool_decide_false by done.
  rewrite block_lines.
  rewrite (split_single [LF] (text seg)) by (by apply no_start_first).
  cbn [length Nat.leb lookup list_lookup default from_option id drop join].
  rewrite (strip_clean_id (py_str _)) by apply numeral_clean, py_str_numeral.
  by rewrite (strip_clean_id _ Hlc), (strip_clean_id _ Htc).
Qed.

Lemma py_str_inj n m : py_str n = py_str m → n = m.
Proof.
  intros E. apply (f_equal py_int) in E. rewrite !py_int_py_str in E. by injection E.
Qed.

Lemma srt_to_json_blocks json_data segments :
  Forall well_formed_segment segments → Forall (λ seg, LF ∉ text seg) segments →
  NoDup (number <$> segments) →
  (∀ seg, seg ∈ segments → py_str (number seg) ∉ json_data.*1) →
  foldl srt_to_json_step json_data (block_text <$> segments)
  = json_data ++ (item_of <$> segments).
Proof.
  intros Hwf. revert json_data.
  induction Hwf as [|seg segments Hseg Hsegs IH]; intros d Hlf Hn Hd.
  - by rewrite app_nil_r.
  - apply Forall_cons in Hlf as [Hlf1 Hlf2]. rewrite fmap_cons in Hn.
    apply NoDup_cons in Hn as [Hn1 Hn2].
    rewrite !fmap_cons. cbn [foldl].
    rewrite srt_to_json_step_block by done.
    rewrite dict_set_fresh by (apply Hd; by left).
    rewrite IH; [by rewrite <- app_assoc|done..|].
    intros seg' Hin. rewrite fmap_app. apply not_elem_of_app. split.
    + apply Hd. by right.
    + cbn. intros E%list_elem_of_singleton%py_str_inj.
      apply Hn1. rewrite <- E. by apply list_elem_of_fmap_2.
Qed.

Lemma srt_to_json_render segments :
  Forall well_formed_segment segments → Forall (λ seg, LF ∉ text seg) segments →
  NoDup (number <$> segments) →
  srt_to_json (TR.render_srt segments) = item_of <$> segments.
Proof.
  intros Hwf Hlf Hn. destruct (decide (segments = [])) as [->|Hne]; [done|].
  unfold srt_to_json. rewrite render_blocks by done.
  rewrite (strip_clean_id _ (blocks_clean segments Hwf Hne)), split_blocks by done.
  rewrite srt_to_json_blocks; [done..|]. intros seg _ Hin. cbn in Hin.
  by apply elem_of_nil in Hin.
Qed.

End ExchangeRoundTrip.

Section ExchangeBack.
Import Main Exchange.

Definition numbered_of (seg : Segment) : Z * pyval :=
  (number seg, entry (time_line seg) (text seg)).

Lemma py_str_not_reserved n : py_str n ∉ reserved_keys.
Proof.
  intros H. assert (py_int (py_str n) = None) as E.
  { apply reserved_keys_spec in H as [-> | ->]; by vm_compute. }
  by rewrite py_int_py_str in E.
Qed.

Lemma numbered_items_render segments :
  numbered_items (item_of <$> segments) = Some (numbered_of <$> segments).
Proof.
  induction segments as [|seg segments IH]; [done|].
  rewrite fmap_cons. cbn [numbered_items item_of].
  rewrite bool_decide_eq_true_2 by apply py_str_not_reserved.
  rewrite py_int_py_str. cbn. by rewrite IH.
Qed.

Lemma insert_by_key_head x l :
  (∀ y, head l = Some y → x.1 ≤ y.1) → insert_by_key x l = x :: l.
Proof.
  destruct l as [|y l]; [done|]. intros H. cbn [insert_by_key].
  destruct (Z.leb_spec x.1 y.1); [done|]. specialize (H y eq_refl). lia.
Qed.

Lemma sort_by_key_render segments :
  all_adjacent number_le segments →
  sort_by_key (numbered_of <$> segments) = numbered_of <$> segments.
Proof.
  induction segments as [|seg segments IH]; [done|].
  intros [Hx Hl]%all_adjacent_cons. rewrite fmap_cons. unfold sort_by_key in *.
  cbn [foldr]. rewrite IH by done. apply insert_by_key_head.
  destruct segments as [|seg' segments]; [done|]. intros y [= <-]. cbn.
  by apply (Hx seg').
Qed.

Lemma text_field_entry timestamp subtitle_text :
  text_field (entry timestamp subtitle_text) (lit "t") = Some timestamp
  ∧ text_field (entry timestamp subtitle_text) (lit "s") = Some subtitle_text.
Proof.
  unfold entry, text_field. split.
  - by rewrite lookup_insert_eq.
  - rewrite lookup_insert_ne by done. by rewrite lookup_singleton_eq.
Qed.

Lemma json_lines_render segments acc :
  foldl json_lines_step (Some acc) (numbered_of <$> segments)
  = Some (acc ++ concat ((λ seg, [py_str (number seg); time_line seg; text seg; []])
                           <$> segments)).
Proof.
  revert acc. induction segments as [|seg segments IH]; intros acc.
  - by rewrite app_nil_r.
  - rewrite !fmap_cons. cbn [foldl concat]. unfold json_lines_step at 2.
    cbn [numbered_of fst snd mbind option_bind].
    destruct (text_field_entry (time_line seg) (text seg)) as [-> ->].
    cbn [mbind option_bind]. rewrite IH. by rewrite <- app_assoc.
Qed.

Lemma json_to_srt_render segments :
  all_adjacent number_le segments →
  json_to_srt (item_of <$> segments) = Some (join [LF] (TR.srt_lines segments)).
Proof.
  intros Hord. unfold json_to_srt. rewrite numbered_items_render. cbn [mbind option_bind].
  rewrite sort_by_key_render by done. rewrite json_lines_render. cbn [mbind option_bind app].
  by rewrite srt_lines_concat.
Qed.

(** In a list whose numbers increase strictly from each segment to the
    next, no number occurs twice. *)
Lemma increasing_head_min l s x :
  all_adjacent (λ a b, number a < number b) (s :: l) →
  x ∈ number <$> (s :: l) → number s ≤ x.
Proof.
  revert s. induction l as [|s' l IH]; intros s H Hx.
  - rewrite fmap_cons in Hx. apply elem_of_cons in Hx as [->|Hx]; [lia|].
    by apply elem_of_nil in Hx.
  - apply all_adjacent_cons in H as [H0 Hs]. rewrite fmap_cons in Hx.
    apply elem_of_cons in Hx as [->|Hx]; [lia|].
    specialize (H0 s' eq_refl). cbv beta in H0.
    specialize (IH s' Hs Hx). lia.
Qed.

Lemma increasing_NoDup segments :
  all_adjacent (λ a b, number a < number b) segments →
  NoDup (number <$> segments) ∧ all_adjacent number_le segments.
Proof.
  intros H. split.
  - induction segments as [|s0 segs IH]; [apply NoDup_nil_2|].
    apply all_adjacent_cons in H as [H0 Hs]. rewrite fmap_cons.
    apply NoDup_cons. split; [|by apply IH].
    destruct segs as [|s1 segs]; [by intros ?%elem_of_nil|].
    specialize (H0 s1 eq_refl). cbv beta in H0. intros Hin.
    pose proof (increasing_head_min segs s1 (number s0) Hs Hin). lia.
  - intros i x y Hx Hy. specialize (H i x y Hx Hy). unfold number_le.
    cbv beta in H. lia.
Qed.

End ExchangeBack.

(** X26. A rendered file goes through the exchange format unharmed: for
    segments with well-formed single-line texts whose numbers increase
    strictly, [json_to_srt] of [srt_to_json] of the rendered segments
    returns the lines of the rendering joined by line feeds, that is the
    rendering itself followed, when there is a segment at all, by one line
    feed. *)
Theorem srt_json_round_trip :
  ∀ segments : list Segment,
    Forall well_formed_segment segments →
    Forall (λ seg, LF ∉ text seg) segments →
    all_adjacent (λ a b, number a < number b) segments →
    Exchange.json_to_srt (Exchange.srt_to_json (TR.render_srt segments))
    = Some (join [LF] (TR.srt_lines segments))
    ∧ (segments ≠ [] →
       join [LF] (TR.srt_lines segments) = TR.render_srt segments ++ [LF]).
Proof.
  intros segments Hwf Hlf Hinc.
  destruct (increasing_NoDup segments Hinc) as [Hn Hord]. split.
  - rewrite srt_to_json_render by done. by apply json_to_srt_render.
  - intros Hne. by rewrite join_srt_lines, render_blocks.
Qed.

Lemma sample_group_single_lines : Forall (λ seg, LF ∉ text seg) sample_group.
Proof. apply (bool_decide_unpack _). by vm_compute. Qed.

Lemma sample_group_increasing :
  all_adjacent (λ a b, number a < number b) sample_group.
Proof. intros [|[|[|i]]] x y Hx Hy; simplify_eq/=; lia. Qed.

Lemma srt_json_round_trip_witness :
  Exchange.json_to_srt (Exchange.srt_to_json (TR.render_srt sample_group))
  = Some (join [LF] (TR.srt_lines sample_group))
  ∧ (sample_group ≠ [] →
     join [LF] (TR.srt_lines sample_group) = TR.render_srt sample_group ++ [LF]).
Proof.
  apply (srt_json_round_trip sample_group sample_group_well_formed
           sample_group_single_lines sample_group_increasing).
Defined.

(** The sample file as a dictionary, and back. *)
Example exchange_scenario :
  Exchange.srt_to_json sample_srt
  = [ (lit "1", Exchange.entry (lit "00:00:00,000 --> 00:00:02,000") (lit "Hello there"));
      (lit "2", Exchange.entry (lit "00:00:02,100 --> 00:00:05,000")
                  (lit "how are <i>you</i> today"));
      (lit "3", Exchange.entry (lit "00:00:05,200 --> 00:00:09,000") (lit "my friend")) ]
  ∧ Exchange.json_to_srt (Exchange.srt_to_json sample_srt) = Some (sample_srt ++ [LF]).
Proof. split; reflexivity. Qed.

(** ** The width of a formatted time *)

Section Width.

Lemma digits_go_length fuel n acc (k : nat) :
  0 ≤ n < 10 ^ Z.of_nat k → (1 ≤ k)%nat →
  (length (digits_go fuel n acc) ≤ length acc + k)%nat.
Proof.
  revert n acc k. induction fuel as [|fuel IH]; intros n acc k Hn Hk; cbn [digits_go].
  - lia.
  - destruct (Z.ltb_spec n 10) as [Hlt|Hge]; [cbn [length]; lia|].
    destruct k as [|[|k]]; [lia| |].
    + change (10 ^ Z.of_nat 1) with 10 in Hn. lia.
    + etransitivity; [apply (IH _ _ (S k))|cbn [length]; lia]; [|lia].
      rewrite Nat2Z.inj_succ, Z.pow_succ_r in Hn by lia.
      split; [apply Z.div_pos; lia|]. apply Z.div_lt_upper_bound; lia.
Qed.

Lemma format_0d_length w n :
  0 ≤ n →
  (w ≤ length (format_0d w n))%nat
  ∧ (n < 10 ^ Z.of_nat w → (1 ≤ w)%nat → length (format_0d w n) = w).
Proof.
  intros Hn. unfold format_0d, zfill, digits. destruct (Z.ltb_spec n 0); [lia|].
  rewrite length_app, length_replicate. split; [lia|]. intros Hw Hw1.
  pose proof (digits_go_length (S (Z.to_nat (Z.log2 n))) n [] w (conj Hn Hw) Hw1) as Hl.
  cbn [length] in Hl. lia.
Qed.

End Width.

(** X27. [format_timestamp] of [main.py] always returns twelve characters;
    that of [timing_redistributor.py] returns at least twelve, and exactly
    twelve for a time below one hundred hours. *)
Theorem format_timestamp_width :
  ∀ total_ms : Z,
    length (Main.format_timestamp total_ms) = 12%nat
    ∧ (12 ≤ length (TR.format_timestamp total_ms))%nat
    ∧ (total_ms < 360000000 → length (TR.format_timestamp total_ms) = 12%nat).
Proof.
  intros t.
  assert (∀ u, 0 ≤ u →
            (12 ≤ length (TR.format_timestamp u))%nat
            ∧ (u < 360000000 → length (TR.format_timestamp u) = 12%nat)) as H.
  { intros u Hu. unfold TR.format_timestamp. rewrite Z.max_r by done. cbv zeta.
    rewrite !length_app. change (length (lit ":")) with 1%nat.
    change (length (lit ",")) with 1%nat.
    destruct (clock_fields u Hu) as (Hh & Hm & Hs & Hms & Eh & Eu).
    change (1000 * 60 * 60) with 3600000. change (1000 * 60) with 60000.
    assert (0 ≤ u / 3600000) as H1 by (apply Z.div_pos; lia).
    assert (0 ≤ u mod 3600000 / 60000 < 10 ^ Z.of_nat 2) as H2.
    { change (10 ^ Z.of_nat 2) with 100. clear. Z.div_mod_to_equations. lia. }
    assert (0 ≤ u mod 60000 / 1000 < 10 ^ Z.of_nat 2) as H3.
    { change (10 ^ Z.of_nat 2) with 100. clear. Z.div_mod_to_equations. lia. }
    assert (0 ≤ u mod 1000 < 10 ^ Z.of_nat 3) as H4.
    { change (10 ^ Z.of_nat 3) with 1000. lia. }
    destruct (format_0d_length 2 (u / 3600000) H1) as [L1 L1'].
    destruct (format_0d_length 2 _ (proj1 H2)) as [_ L2].
    destruct (format_0d_length 2 _ (proj1 H3)) as [_ L3].
    destruct (format_0d_length 3 _ (proj1 H4)) as [_ L4].
    rewrite L2, L3, L4 by (lia || apply H2 || apply H3 || apply H4).
    split; [lia|]. intros Hlt. rewrite L1'; [lia| |lia].
    change (10 ^ Z.of_nat 2) with 100. apply Z.div_lt_upper_bound; lia. }
  pose proof (written_time_range t) as Hr.
  split; [|split].
  - rewrite main_format_written. apply H; lia.
  - unfold TR.format_timestamp. rewrite <- (Z.max_r 0 (Z.max 0 t)) by lia.
    apply (H (Z.max 0 t)). lia.
  - intros Hlt. unfold TR.format_timestamp. rewrite <- (Z.max_r 0 (Z.max 0 t)) by lia.
    apply (H (Z.max 0 t)); lia.
Qed.
